(** * BusTub buffer pool: LRU replacer and buffer pool manager instance

    A shallow embedding of [src/buffer/lru_replacer.cpp] and
    [src/buffer/buffer_pool_manager_instance.cpp], with the properties the
    specification states about them.

    Conventions of the embedding.
    - A [std::list] is a Rocq list whose head is the front of the C++ list:
      [emplace_front] is cons, [back()] is [last], [pop_back()] is
      [removelast].
    - A [std::unordered_map] is a [gmap].
    - A member function that mutates [this] takes the object and returns the
      new object; an output parameter is returned next to the result.
    - An index into [pages_] outside the array is undefined behaviour in the
      source; here a read gives a default constructed page and a write
      does nothing.  [bpm_wf] below shows that the indexes used in states
      reached from a constructed pool are inside the array.
    - A failed assertion aborts the program: a function that asserts
      returns an [option], and [None] is the abort.
    - The latches are not modelled: every operation runs to completion under
      the manager's lock, so the operations are the atomic steps. *)

From Stdlib Require Import ZArith.
From Stdlib.Strings Require Import Byte.
From stdpp Require Import gmap list fin_maps sorting.

Local Open Scope Z_scope.

(** ** Types of [common/config.h] and [storage/page/page.h] *)

(** Modelled from the spec: [frame_id_t], [page_id_t], [INVALID_PAGE_ID] and
    [PAGE_SIZE] are declared in [common/config.h], which is not among the
    sources.  The spec calls frame indexes and page identifiers integers and
    reserves one sentinel identifier, without giving a width.  Frame indexes
    only ever come from [0 .. pool_size-1], they are naturals here.  A page
    identifier is a signed integer of 32 bits ([int32_t]; the source prints
    it with [%d] and adds the [uint32_t] [num_instances_] to it): it is a
    value of [Z], and the arithmetic of the allocator is written with the
    conversions [to_int32] and [to_uint32] of the C++ integer types.  A pin
    count is an [int] that only moves by one; it is counted in [Z] (its
    overflow, after 2^31 fetches of one page without an unpin, is undefined
    behaviour in the source).  The spec fixes the size of a page buffer
    without giving it; no statement below depends on the value of
    [PAGE_SIZE]. *)
Abbreviation frame_id_t := nat (only parsing).
Abbreviation page_id_t := Z (only parsing).
Definition INVALID_PAGE_ID : page_id_t := -1.
Definition PAGE_SIZE : nat := 4096.

(** The largest [page_id_t], 2^31 - 1. *)
Definition MAX_PAGE_ID : page_id_t := 2147483647.

(** The values of [uint32_t]. *)
Definition is_uint32 (z : Z) : Prop := 0 ≤ z < 4294967296.

(** Conversion of an integer to [int32_t]: modulo 2^32, into
    [-2^31 .. 2^31 - 1]. *)
Definition to_int32 (z : Z) : Z :=
  (z + 2147483648) `mod` 4294967296 - 2147483648.

(** Conversion of an integer to [uint32_t]: modulo 2^32, into
    [0 .. 2^32 - 1]. *)
Definition to_uint32 (z : Z) : Z := z `mod` 4294967296.

Abbreviation page_data := (list byte) (only parsing).

(** Modelled from the spec: class [Page] of [storage/page/page.h]: a byte
    buffer with the identifier of the resident page, the pin count and the
    dirty flag. *)
Record Page := mkPage {
  data_ : page_data;
  page_id_ : page_id_t;
  pin_count_ : Z;
  is_dirty_ : bool
}.

(** [Page::ResetMemory]: the buffer is zeroed. *)
Definition zeroed : page_data := replicate PAGE_SIZE x00.

(** A default constructed [Page]. *)
Definition empty_Page : Page := mkPage zeroed INVALID_PAGE_ID 0 false.

#[global] Instance Page_inhabited : Inhabited Page := populate empty_Page.

Definition set_is_dirty (pg : Page) (b : bool) : Page :=
  mkPage (data_ pg) (page_id_ pg) (pin_count_ pg) b.
Definition set_pin_count (pg : Page) (n : Z) : Page :=
  mkPage (data_ pg) (page_id_ pg) n (is_dirty_ pg).
Definition set_page_id (pg : Page) (p : page_id_t) : Page :=
  mkPage (data_ pg) p (pin_count_ pg) (is_dirty_ pg).
Definition ResetMemory (pg : Page) : Page :=
  mkPage zeroed (page_id_ pg) (pin_count_ pg) (is_dirty_ pg).
Definition set_data (pg : Page) (d : page_data) : Page :=
  mkPage d (page_id_ pg) (pin_count_ pg) (is_dirty_ pg).

(** ** The disk backend *)

Inductive disk_call :=
| DiskWrite (page_id : page_id_t) (buf : page_data)
| DiskRead (page_id : page_id_t).

(** Modelled from the spec: [DiskManager] is an external collaborator with
    the contract "[ReadPage(id, buf)] fills a buffer with the page's
    persisted bytes; [WritePage(id, buf)] persists a buffer under that
    identifier".  The store maps identifiers to persisted bytes, [calls]
    records every call in order.  A page that was never written reads as
    zeroes. *)
Record DiskManager := mkDisk {
  store : gmap Z (list byte);
  calls : list disk_call
}.

Definition WritePage (d : DiskManager) (page_id : page_id_t) (buf : page_data)
  : DiskManager :=
  mkDisk (<[page_id := buf]> (store d)) (calls d ++ [DiskWrite page_id buf]).

Definition ReadPage (d : DiskManager) (page_id : page_id_t)
  : page_data * DiskManager :=
  (default zeroed (store d !! page_id),
   mkDisk (store d) (calls d ++ [DiskRead page_id])).

Definition empty_disk : DiskManager := mkDisk ∅ [].

(** ** [LRUReplacer] (lru_replacer.cpp, the definitions at lines 18-62) *)

(** The source file holds the replacer twice.  The definitions of lines
    18-62 are the ones embedded here.  The second copy (lines 82-137) has
    the same [Victim] and [Size]; its [Pin] and [Unpin] keep in addition a
    pin count of their own per frame. *)

(** A [std::list<frame_id_t>::iterator] stored in [pin_map_table_]: it
    designates the node that holds frame [f], or it is [pin_lists_.end()]. *)
Inductive list_iterator :=
| it_node (f : frame_id_t)
| it_end.

Record LRUReplacer := mkLRU {
  num_pages_ : nat;
  pin_lists_ : list nat;
  pin_map_table_ : gmap nat list_iterator
}.

Definition new_LRUReplacer (num_pages : nat) : LRUReplacer :=
  mkLRU num_pages [] ∅.

(** [pin_lists_.erase(it)] for an iterator designating the node of [f]. *)
Fixpoint list_erase (f : frame_id_t) (l : list nat) : list nat :=
  match l with
  | [] => []
  | x :: l' => if decide (x = f) then l' else x :: list_erase f l'
  end.

(** [Victim]: [Some f] stands for "returns true with [*frame_id = f]",
    [None] for "returns false" ([*frame_id] is not written). *)
Definition Victim (r : LRUReplacer) : option frame_id_t * LRUReplacer :=
  match last (pin_lists_ r) with
  | Some back =>
      (Some back,
       mkLRU (num_pages_ r) (removelast (pin_lists_ r))
             (delete back (pin_map_table_ r)))
  | None => (None, r)
  end.

Definition Pin (r : LRUReplacer) (frame_id : frame_id_t) : LRUReplacer :=
  match pin_map_table_ r !! frame_id with
  | Some (it_node f) =>
      mkLRU (num_pages_ r) (list_erase f (pin_lists_ r))
            (<[frame_id := it_end]> (pin_map_table_ r))
  | Some it_end | None => r
  end.

Definition Unpin (r : LRUReplacer) (frame_id : frame_id_t) : LRUReplacer :=
  match pin_map_table_ r !! frame_id with
  | Some (it_node _) => r
  | Some it_end | None =>
      if decide (length (pin_lists_ r) < num_pages_ r)%nat
      then mkLRU (num_pages_ r) (frame_id :: pin_lists_ r)
                 (<[frame_id := it_node frame_id]> (pin_map_table_ r))
      else r
  end.

Definition Size (r : LRUReplacer) : nat := length (pin_lists_ r).

(** ** The second copy of [LRUReplacer] (lru_replacer.cpp, lines 82-137) *)

Module Counted.

(** The replacer with the additional table [pin_count_].  Its declaration
    is in the header, which is not among the sources; the source indexes
    it by frame and uses its entries as integers, so it is a map from
    frames to [Z], and [pin_count_[f]] of an absent frame is 0 as for
    every [operator[]] on a map of integers. *)
Record LRUReplacer := mkLRU {
  num_pages_ : nat;
  pin_lists_ : list nat;
  pin_map_table_ : gmap nat list_iterator;
  pin_count_ : gmap nat Z
}.

Definition new_LRUReplacer (num_pages : nat) : LRUReplacer :=
  mkLRU num_pages [] ∅ ∅.

Definition Victim (r : LRUReplacer) : option frame_id_t * LRUReplacer :=
  match last (pin_lists_ r) with
  | Some back =>
      (Some back,
       mkLRU (num_pages_ r) (removelast (pin_lists_ r))
             (delete back (pin_map_table_ r)) (pin_count_ r))
  | None => (None, r)
  end.

Definition Pin (r : LRUReplacer) (frame_id : frame_id_t) : LRUReplacer :=
  match pin_map_table_ r !! frame_id with
  | Some (it_node f) =>
      mkLRU (num_pages_ r) (list_erase f (pin_lists_ r))
            (<[frame_id := it_end]> (pin_map_table_ r))
            (<[frame_id := default 0 (pin_count_ r !! frame_id) + 1]>
               (pin_count_ r))
  | Some it_end | None => r
  end.

Definition Unpin (r : LRUReplacer) (frame_id : frame_id_t) : LRUReplacer :=
  match pin_map_table_ r !! frame_id with
  | None =>
      if decide (length (pin_lists_ r) < num_pages_ r)%nat
      then mkLRU (num_pages_ r) (frame_id :: pin_lists_ r)
                 (<[frame_id := it_node frame_id]> (pin_map_table_ r))
                 (<[frame_id := 0]> (pin_count_ r))
      else r
  | Some _ =>
      let c := default 0 (pin_count_ r !! frame_id) - 1 in
      if decide (c = 0)
      then mkLRU (num_pages_ r) (frame_id :: pin_lists_ r)
                 (<[frame_id := it_node frame_id]> (pin_map_table_ r))
                 (<[frame_id := 0]> (pin_count_ r))
      else mkLRU (num_pages_ r) (pin_lists_ r) (pin_map_table_ r)
                 (<[frame_id := c]> (pin_count_ r))
  end.

Definition Size (r : LRUReplacer) : nat := length (pin_lists_ r).

End Counted.

(** ** [BufferPoolManagerInstance] *)

Record BufferPoolManagerInstance := mkBPM {
  pool_size_ : nat;
  num_instances_ : Z;
  instance_index_ : Z;
  next_page_id_ : page_id_t;
  pages_ : list Page;
  replacer_ : LRUReplacer;
  free_list_ : list nat;
  page_table_ : gmap Z nat;
  disk_manager_ : DiskManager
}.

Abbreviation BPM := BufferPoolManagerInstance (only parsing).

(** The constructor.  [num_instances] and [instance_index] are [uint32_t]
    arguments: [None] when one of them is not a value of that type, or when
    one of the two assertions fails.  [next_page_id_] is initialised with
    [instance_index], converted to [page_id_t]. *)
Definition new_BufferPoolManagerInstance
    (pool_size : nat) (num_instances instance_index : Z)
    (disk : DiskManager)
  : option BPM :=
  if decide (is_uint32 num_instances ∧ is_uint32 instance_index)
  then
    if decide (0 < num_instances ∧ instance_index < num_instances)
    then Some (mkBPM pool_size num_instances instance_index
                     (to_int32 instance_index)
                     (replicate pool_size empty_Page)
                     (new_LRUReplacer pool_size)
                     (seq 0 pool_size)
                     ∅
                     disk)
    else None
  else None.

(** The constructor without partitioning delegates with one instance of
    index 0. *)
Definition new_BufferPoolManagerInstance_single
    (pool_size : nat) (disk : DiskManager) : option BPM :=
  new_BufferPoolManagerInstance pool_size 1 0 disk.

(** The condition asserted by [ValidatePageId],
    [page_id % num_instances_ == instance_index_]: the operands of [%] are
    an [int32_t] and a [uint32_t], so [page_id] is converted to [uint32_t]
    and the remainder is the one of unsigned integers. *)
Definition ValidatePageId (s : BPM) (page_id : page_id_t) : Prop :=
  to_uint32 page_id `mod` num_instances_ s = instance_index_ s.

#[global] Instance ValidatePageId_dec s page_id :
  Decision (ValidatePageId s page_id) := Z.eq_dec _ _.

(** [AllocatePage]: the identifier is the counter, the counter advances by
    [num_instances_] in the arithmetic of [page_id_t], and the assertion of
    [ValidatePageId] is checked on the identifier: the result is the
    identifier and the manager with the advanced counter, or [None] when
    the assertion fails and the program aborts. *)
Definition AllocatePage (s : BPM) : option (page_id_t * BPM) :=
  let next_page_id := next_page_id_ s in
  let s1 :=
    mkBPM (pool_size_ s) (num_instances_ s) (instance_index_ s)
          (to_int32 (next_page_id_ s + num_instances_ s))
          (pages_ s) (replacer_ s) (free_list_ s) (page_table_ s)
          (disk_manager_ s) in
  if decide (ValidatePageId s1 next_page_id)
  then Some (next_page_id, s1)
  else None.

Definition FlushPgImp (s : BPM) (page_id : page_id_t) : bool * BPM :=
  match page_table_ s !! page_id with
  | Some f =>
      if decide (page_id = INVALID_PAGE_ID) then (false, s)
      else
        let pg := pages_ s !!! f in
        if is_dirty_ pg
        then (true,
              mkBPM (pool_size_ s) (num_instances_ s) (instance_index_ s)
                    (next_page_id_ s)
                    (<[f := set_is_dirty pg false]> (pages_ s))
                    (replacer_ s) (free_list_ s) (page_table_ s)
                    (WritePage (disk_manager_ s) page_id (data_ pg)))
        else (true, s)
  | None => (false, s)
  end.

(** One iteration of the loop of [FlushAllPgsImp]. *)
Definition FlushAll_body (s : BPM) (i : nat) : BPM :=
  let pg := pages_ s !!! i in
  if is_dirty_ pg
  then mkBPM (pool_size_ s) (num_instances_ s) (instance_index_ s)
             (next_page_id_ s)
             (<[i := set_is_dirty pg false]> (pages_ s))
             (replacer_ s) (free_list_ s) (page_table_ s)
             (WritePage (disk_manager_ s) (page_id_ pg) (data_ pg))
  else s.

Definition FlushAllPgsImp (s : BPM) : BPM :=
  foldl FlushAll_body s (seq 0 (pool_size_ s)).

(** [NewPgImp s page_id]: [page_id] is the value the caller's output
    variable holds before the call; the result is the returned frame
    ([None] for [nullptr], [Some f] for [&pages_[f]]), the value of the
    output variable after the call, and the manager; it is [None] when
    the call of [AllocatePage] aborts. *)
Definition NewPgImp (s : BPM) (page_id : page_id_t)
  : option (option frame_id_t * page_id_t * BPM) :=
  if decide (free_list_ s = [] ∧ Size (replacer_ s) = 0%nat)
  then Some (None, page_id, s)
  else
    '(page_id, s1) ← AllocatePage s;
    Some (
    let install (frame_id : nat) (pages : list Page) (r : LRUReplacer)
                (fl : list nat) (pt : gmap Z nat) (d : DiskManager) :=
      let pg := pages !!! frame_id in
      let pg := set_is_dirty pg false in
      let pg := set_pin_count pg 1 in
      let pg := set_page_id pg page_id in
      let pg := ResetMemory pg in
      mkBPM (pool_size_ s1) (num_instances_ s1) (instance_index_ s1)
            (next_page_id_ s1)
            (<[frame_id := pg]> pages)
            (Pin r frame_id) fl (<[page_id := frame_id]> pt) d in
    match last (free_list_ s1) with
    | Some frame_id =>
        (Some frame_id, page_id,
         install frame_id (pages_ s1) (replacer_ s1)
                 (removelast (free_list_ s1)) (page_table_ s1)
                 (disk_manager_ s1))
    | None =>
        match Victim (replacer_ s1) with
        | (None, _) => (None, page_id, s1)
        | (Some frame_id, r) =>
            let pg := pages_ s1 !!! frame_id in
            let '(pages, d) :=
              if is_dirty_ pg
              then (<[frame_id := set_is_dirty pg false]> (pages_ s1),
                    WritePage (disk_manager_ s1) (page_id_ pg) (data_ pg))
              else (pages_ s1, disk_manager_ s1) in
            let pt := delete (page_id_ (pages !!! frame_id)) (page_table_ s1) in
            (Some frame_id, page_id,
             install frame_id pages r (free_list_ s1) pt d)
        end
    end).

Definition FetchPgImp (s : BPM) (page_id : page_id_t)
  : option frame_id_t * BPM :=
  match page_table_ s !! page_id with
  | Some f =>
      (Some f,
       mkBPM (pool_size_ s) (num_instances_ s) (instance_index_ s)
             (next_page_id_ s)
             (<[f := set_pin_count (pages_ s !!! f)
                                   (pin_count_ (pages_ s !!! f) + 1)]>
                (pages_ s))
             (Pin (replacer_ s) f) (free_list_ s) (page_table_ s)
             (disk_manager_ s))
  | None =>
      let acquired :=
        match last (free_list_ s) with
        | Some frame_id =>
            Some (frame_id, removelast (free_list_ s), replacer_ s)
        | None =>
            match Victim (replacer_ s) with
            | (Some frame_id, r) => Some (frame_id, free_list_ s, r)
            | (None, _) => None
            end
        end in
      match acquired with
      | None => (None, s)
      | Some (frame_id, fl, r) =>
          let pg := pages_ s !!! frame_id in
          let d := if is_dirty_ pg
                   then WritePage (disk_manager_ s) (page_id_ pg) (data_ pg)
                   else disk_manager_ s in
          let pt := delete (page_id_ pg) (page_table_ s) in
          let pt := <[page_id := frame_id]> pt in
          let pg := set_page_id pg page_id in
          let pg := set_is_dirty pg false in
          let pg := set_pin_count pg 1 in
          let '(buf, d) := ReadPage d page_id in
          let pg := set_data pg buf in
          (Some frame_id,
           mkBPM (pool_size_ s) (num_instances_ s) (instance_index_ s)
                 (next_page_id_ s)
                 (<[frame_id := pg]> (pages_ s))
                 r fl pt d)
      end
  end.

(** Modelled from the spec: [DeallocatePage] is defined in the header of the
    class, which is not among the sources; the spec says that it consumes
    the deallocation notification as "bookkeeping only".  It keeps no
    state. *)
Definition DeallocatePage (s : BPM) (page_id : page_id_t) : BPM := s.

Definition DeletePgImp (s : BPM) (page_id : page_id_t) : bool * BPM :=
  let s := DeallocatePage s page_id in
  match page_table_ s !! page_id with
  | None => (true, s)
  | Some f =>
      if decide (pin_count_ (pages_ s !!! f) ≠ 0) then (false, s)
      else
        let pg := pages_ s !!! f in
        let pg := set_page_id pg INVALID_PAGE_ID in
        let pg := set_is_dirty pg false in
        (true,
         mkBPM (pool_size_ s) (num_instances_ s) (instance_index_ s)
               (next_page_id_ s)
               (<[f := pg]> (pages_ s))
               (replacer_ s)
               (f :: free_list_ s)
               (delete page_id (page_table_ s))
               (disk_manager_ s))
  end.

Definition UnpinPgImp (s : BPM) (page_id : page_id_t) (is_dirty : bool)
  : bool * BPM :=
  match page_table_ s !! page_id with
  | None => (false, s)
  | Some f =>
      if decide (pin_count_ (pages_ s !!! f) ≤ 0) then (false, s)
      else
        let pg := pages_ s !!! f in
        let pg := set_is_dirty pg (is_dirty_ pg || is_dirty) in
        let pg := set_pin_count pg (pin_count_ pg - 1) in
        (true,
         mkBPM (pool_size_ s) (num_instances_ s) (instance_index_ s)
               (next_page_id_ s)
               (<[f := pg]> (pages_ s))
               (if decide (pin_count_ pg = 0)
                then Unpin (replacer_ s) f else replacer_ s)
               (free_list_ s) (page_table_ s) (disk_manager_ s))
  end.

(** ** Sequences of operations *)

Inductive bpm_op :=
| OpNewPage
| OpFetchPage (page_id : page_id_t)
| OpUnpinPage (page_id : page_id_t) (is_dirty : bool)
| OpFlushPage (page_id : page_id_t)
| OpDeletePage (page_id : page_id_t)
| OpFlushAllPages.

Inductive op_result :=
| RPage (frame : option nat)
| RNewPage (frame : option nat) (page_id : page_id_t)
| RBool (b : bool)
| RVoid.

(** One call on the manager; [None] when the call aborts.  The caller of
    [NewPage] passes an output variable that holds the sentinel. *)
Definition exec (s : BPM) (o : bpm_op) : option (op_result * BPM) :=
  match o with
  | OpNewPage =>
      '(r, id, s') ← NewPgImp s INVALID_PAGE_ID; Some (RNewPage r id, s')
  | OpFetchPage p => let '(r, s') := FetchPgImp s p in Some (RPage r, s')
  | OpUnpinPage p d =>
      let '(b, s') := UnpinPgImp s p d in Some (RBool b, s')
  | OpFlushPage p => let '(b, s') := FlushPgImp s p in Some (RBool b, s')
  | OpDeletePage p => let '(b, s') := DeletePgImp s p in Some (RBool b, s')
  | OpFlushAllPages => Some (RVoid, FlushAllPgsImp s)
  end.

(** The manager after a call that returns.  A call that aborts ends the
    program and leaves no manager behind: [step] then gives the manager of
    before the call, so that the states built with [step] are the states
    that calls which return lead to. *)
Definition step (s : BPM) (o : bpm_op) : BPM :=
  match exec s o with
  | Some (_, s') => s'
  | None => s
  end.

(** The manager after a sequence of calls; the sequence ends with the first
    call that aborts. *)
Fixpoint run (s : BPM) (ops : list bpm_op) : BPM :=
  match ops with
  | [] => s
  | o :: ops' =>
      match exec s o with
      | Some (_, s') => run s' ops'
      | None => s
      end
  end.

(** The results of a sequence of calls, in order, up to the first call that
    aborts. *)
Fixpoint results (s : BPM) (ops : list bpm_op) : list op_result :=
  match ops with
  | [] => []
  | o :: ops' =>
      match exec s o with
      | Some (r, s') => r :: results s' ops'
      | None => []
      end
  end.

(** [allocate k s]: the identifiers of [k] successive calls of
    [AllocatePage], in order; [None] when one of them aborts. *)
Fixpoint allocate (k : nat) (s : BPM) : option (list page_id_t * BPM) :=
  match k with
  | O => Some ([], s)
  | S k' =>
      '(id, s1) ← AllocatePage s;
      '(ids, s2) ← allocate k' s1;
      Some (id :: ids, s2)
  end.

(** A state of a pool that was constructed and then used through its
    public operations. *)
Inductive reachable : BPM → Prop :=
| reachable_new pool_size n i d s :
    new_BufferPoolManagerInstance pool_size n i d = Some s → reachable s
| reachable_step s o : reachable s → reachable (step s o).

(** A fresh unpartitioned pool over an empty disk, for the examples. *)
Definition fresh_pool (n : nat) : BPM :=
  mkBPM n 1 0 0 (replicate n empty_Page) (new_LRUReplacer n) (seq 0 n) ∅
        empty_disk.

(** A fresh unpartitioned pool over a disk that holds the bytes [buf] for
    page [id]. *)
Definition pool_over (n : nat) (id : page_id_t) (buf : page_data) : BPM :=
  mkBPM n 1 0 0 (replicate n empty_Page) (new_LRUReplacer n) (seq 0 n) ∅
        (mkDisk {[id := buf]} []).

(** * Definitions for the statements *)

(** ** The replacer *)

Module Replacer.

(** Consistency of the list with the iterator table: the list has no
    duplicates, and the table holds a node iterator for exactly the frames
    of the list (the iterator of [f] designates the node holding [f]). *)
Record wf (r : LRUReplacer) : Prop := mk_wf {
  wf_nodup : NoDup (pin_lists_ r);
  wf_listed : ∀ f, f ∈ pin_lists_ r → pin_map_table_ r !! f = Some (it_node f);
  wf_node : ∀ f g, pin_map_table_ r !! f = Some (it_node g) →
                   g = f ∧ f ∈ pin_lists_ r
}.

(** [victims n r]: the results of [n] successive calls of [Victim]. *)
Fixpoint victims (n : nat) (r : LRUReplacer)
  : list (option nat) * LRUReplacer :=
  match n with
  | O => ([], r)
  | S n' =>
      let '(v, r1) := Victim r in
      let '(vs, r2) := victims n' r1 in
      (v :: vs, r2)
  end.

(** The states of a replacer that was constructed and then used. *)
Inductive reachable : LRUReplacer → Prop :=
| reachable_new n : reachable (new_LRUReplacer n)
| reachable_Pin r f : reachable r → reachable (Pin r f)
| reachable_Unpin r f : reachable r → reachable (Unpin r f)
| reachable_Victim r : reachable r → reachable (Victim r).2.

End Replacer.

(** ** Identifiers *)

(** The identifiers handed out by the successful [NewPage] calls of a
    sequence of results. *)
Fixpoint new_ids (rs : list op_result) : list Z :=
  match rs with
  | [] => []
  | RNewPage (Some _) id :: rs' => id :: new_ids rs'
  | _ :: rs' => new_ids rs'
  end.

(** The first [n] identifiers of the arithmetic progression that starts at
    [a] with step [d]. *)
Fixpoint progression (a d : Z) (n : nat) : list Z :=
  match n with
  | O => []
  | S n' => a :: progression (a + d) d n'
  end.

(** ** Well-formed pool states *)

(** Facts about a pool that every sequence of calls preserves. *)
Record bpm_wf (s : BPM) : Prop := mk_bpm_wf {
  wf_pages_len : length (pages_ s) = pool_size_ s;
  wf_free_lt : ∀ f, f ∈ free_list_ s → (f < pool_size_ s)%nat;
  wf_free_nodup : NoDup (free_list_ s);
  wf_table : ∀ p f, page_table_ s !! p = Some f →
                    (f < pool_size_ s)%nat ∧ page_id_ (pages_ s !!! f) = p;
  wf_free_table : ∀ f p, f ∈ free_list_ s → page_table_ s !! p ≠ Some f;
  wf_free_clean : ∀ f, f ∈ free_list_ s →
                       page_id_ (pages_ s !!! f) = INVALID_PAGE_ID ∧
                       is_dirty_ (pages_ s !!! f) = false;
  wf_lru : Replacer.wf (replacer_ s);
  wf_lru_lt : ∀ f, f ∈ pin_lists_ (replacer_ s) → (f < pool_size_ s)%nat;
  wf_lru_cap : num_pages_ (replacer_ s) = pool_size_ s;
  wf_pin_nonneg : Forall (λ pg, 0 ≤ pin_count_ pg) (pages_ s)
}.

(** ** Flushing every frame *)

(** The frame after the body of the loop of [FlushAllPgsImp]. *)
Definition flushed (pg : Page) : Page :=
  if is_dirty_ pg then set_is_dirty pg false else pg.

(** The [WritePage] calls of the loop over the frames [ps], in order: one
    for each dirty frame. *)
Fixpoint flush_calls (ps : list Page) : list disk_call :=
  match ps with
  | [] => []
  | pg :: ps' =>
      (if is_dirty_ pg then [DiskWrite (page_id_ pg) (data_ pg)] else [])
      ++ flush_calls ps'
  end.

(** ** Identifier clashes and the capacity invariant *)

(** Calls that keep identifiers apart: [FetchPage] is not asked for the
    sentinel, and [NewPage] is not called while the identifier it is about
    to hand out is resident or is the sentinel (the counter wraps around
    and can reach it). *)
Definition no_id_clash (s : BPM) (o : bpm_op) : Prop :=
  match o with
  | OpNewPage =>
      page_table_ s !! next_page_id_ s = None ∧
      next_page_id_ s ≠ INVALID_PAGE_ID
  | OpFetchPage p => p ≠ INVALID_PAGE_ID
  | _ => True
  end.

Fixpoint no_id_clashes (s : BPM) (ops : list bpm_op) : Prop :=
  match ops with
  | [] => True
  | o :: ops' => no_id_clash s o ∧ no_id_clashes (step s o) ops'
  end.

Inductive reachable_no_clash : BPM → Prop :=
| reachable_no_clash_new pool_size n i d s :
    new_BufferPoolManagerInstance pool_size n i d = Some s →
    reachable_no_clash s
| reachable_no_clash_step s o :
    reachable_no_clash s → no_id_clash s o → reachable_no_clash (step s o).

(** Calls in which [FetchPage] only asks for identifiers below the
    allocator's counter, as are all the identifiers that [NewPage] has
    handed out, and [NewPage] is only called while the counter has not
    wrapped around. *)
Definition fetch_known (s : BPM) (o : bpm_op) : Prop :=
  match o with
  | OpFetchPage p => 0 ≤ p < next_page_id_ s
  | OpNewPage =>
      0 ≤ next_page_id_ s ∧ next_page_id_ s + num_instances_ s ≤ MAX_PAGE_ID
  | _ => True
  end.

Inductive reachable_known : BPM → Prop :=
| reachable_known_new pool_size n i d s :
    new_BufferPoolManagerInstance pool_size n i d = Some s →
    reachable_known s
| reachable_known_step s o :
    reachable_known s → fetch_known s o → reachable_known (step s o).

Record cap_inv (s : BPM) : Prop := mk_cap_inv {
  cap_wf : bpm_wf s;
  cap_sentinel : page_table_ s !! INVALID_PAGE_ID = None;
  cap_count :
    (length (free_list_ s) + size (page_table_ s))%nat = pool_size_ s;
  cap_lru : ∀ f, f ∈ pin_lists_ (replacer_ s) →
                 f ∈ free_list_ s ∨ ∃ p, page_table_ s !! p = Some f
}.

(** ** Pools on which [DeletePage] is never called *)

Definition not_delete (o : bpm_op) : Prop :=
  match o with
  | OpDeletePage _ => False
  | _ => True
  end.

Inductive reachable_no_delete : BPM → Prop :=
| reachable_no_delete_new pool_size n i d s :
    new_BufferPoolManagerInstance pool_size n i d = Some s →
    reachable_no_delete s
| reachable_no_delete_step s o :
    reachable_no_delete s → not_delete o → reachable_no_delete (step s o).

(** Every frame of the eligibility ordering has pin count zero and is not
    in the free list, and every frame of the free list has pin count
    zero. *)
Record pin_inv (s : BPM) : Prop := mk_pin_inv {
  pin_wf : bpm_wf s;
  pin_zero : ∀ f, f ∈ pin_lists_ (replacer_ s) →
                  pin_count_ (pages_ s !!! f) = 0;
  pin_not_free : ∀ f, f ∈ pin_lists_ (replacer_ s) → f ∉ free_list_ s;
  pin_free_zero : ∀ f, f ∈ free_list_ s → pin_count_ (pages_ s !!! f) = 0
}.

(** ** A sequence of calls that evicts a pinned page *)

(** The calls that lead to the eviction of a pinned page, in a pool of one
    frame: page 0 is created, unpinned and evicted by the creation of page
    1; page 1 is unpinned (frame 0 enters the eligibility ordering) and
    deleted (frame 0 enters the free list and stays in the ordering); page
    0 is fetched again, from the free list, and stays pinned. *)
Definition pin_then_evict : list bpm_op :=
  [OpNewPage; OpUnpinPage 0 false; OpNewPage; OpUnpinPage 1 false;
   OpDeletePage 1; OpFetchPage 0].

(** ** Sequences of calls on the replacer, for both copies *)

Inductive lru_op :=
| LPin (frame_id : frame_id_t)
| LUnpin (frame_id : frame_id_t)
| LVictim.

(** One call on the first copy of the replacer; a [Victim] call gives its
    result, the other calls give nothing. *)
Definition lru_exec (r : LRUReplacer) (o : lru_op)
  : option nat * LRUReplacer :=
  match o with
  | LPin f => (None, Pin r f)
  | LUnpin f => (None, Unpin r f)
  | LVictim => Victim r
  end.

Fixpoint lru_run (r : LRUReplacer) (ops : list lru_op)
  : list (option nat) * LRUReplacer :=
  match ops with
  | [] => ([], r)
  | o :: ops' =>
      let '(v, r1) := lru_exec r o in
      let '(vs, r2) := lru_run r1 ops' in
      (v :: vs, r2)
  end.

(** The same for the second copy. *)
Definition counted_exec (r : Counted.LRUReplacer) (o : lru_op)
  : option nat * Counted.LRUReplacer :=
  match o with
  | LPin f => (None, Counted.Pin r f)
  | LUnpin f => (None, Counted.Unpin r f)
  | LVictim => Counted.Victim r
  end.

Fixpoint counted_run (r : Counted.LRUReplacer) (ops : list lru_op)
  : list (option nat) * Counted.LRUReplacer :=
  match ops with
  | [] => ([], r)
  | o :: ops' =>
      let '(v, r1) := counted_exec r o in
      let '(vs, r2) := counted_run r1 ops' in
      (v :: vs, r2)
  end.

(** The calls a pool makes on its replacer: [Unpin] only for a frame that
    is not eligible, and only while the ordering is below its capacity. *)
Definition unpin_fresh (r : LRUReplacer) (o : lru_op) : Prop :=
  match o with
  | LUnpin f => (f ∉ pin_lists_ r) ∧ (length (pin_lists_ r) < num_pages_ r)%nat
  | _ => True
  end.

Fixpoint unpins_fresh (r : LRUReplacer) (ops : list lru_op) : Prop :=
  match ops with
  | [] => True
  | o :: ops' => unpin_fresh r o ∧ unpins_fresh (lru_exec r o).2 ops'
  end.

(** The two copies in step: the same capacity, ordering and iterator table,
    and the pin count of the second copy is 1 for a frame that was pinned
    out of the ordering and 0 for a frame of the ordering. *)
Record copies_agree (r : LRUReplacer) (c : Counted.LRUReplacer) : Prop :=
  mk_copies_agree {
  agree_num_pages : Counted.num_pages_ c = num_pages_ r;
  agree_lists : Counted.pin_lists_ c = pin_lists_ r;
  agree_table : Counted.pin_map_table_ c = pin_map_table_ r;
  agree_pinned : ∀ f, pin_map_table_ r !! f = Some it_end →
                      default 0 (Counted.pin_count_ c !! f) = 1;
  agree_listed : ∀ f g, pin_map_table_ r !! f = Some (it_node g) →
                        default 0 (Counted.pin_count_ c !! f) = 0
}.

(** ** Filling a fresh pool *)

(** The results of [m] successful [NewPage] calls that take the frames
    [m-1], ..., [0] and the identifiers [id], [id + step], ... *)
Fixpoint fill_results (m : nat) (id step : Z) : list op_result :=
  match m with
  | O => []
  | S m' => RNewPage (Some m') id :: fill_results m' (id + step) step
  end.

(** ** Pin counts and eligibility *)

(** No pin count is negative, the frames of the free list have pin count
    zero, and a resident frame with pin count zero is in the eligibility
    ordering. *)
Record pins_inv (s : BPM) : Prop := mk_pins_inv {
  pins_wf : bpm_wf s;
  pins_free : ∀ f, f ∈ free_list_ s → pin_count_ (pages_ s !!! f) = 0;
  pins_elig : ∀ p f, page_table_ s !! p = Some f →
                     pin_count_ (pages_ s !!! f) = 0 →
                     f ∈ pin_lists_ (replacer_ s)
}.

(** ** Disk calls *)

(** A [WritePage] call that carries the identifier and the buffer of a
    frame that is dirty in [s]. *)
Definition written_from (s : BPM) (c : disk_call) : Prop :=
  match c with
  | DiskWrite id buf =>
      ∃ f, (f < pool_size_ s)%nat ∧
           is_dirty_ (pages_ s !!! f) = true ∧
           page_id_ (pages_ s !!! f) = id ∧
           data_ (pages_ s !!! f) = buf
  | DiskRead _ => True
  end.

(** * The replacer *)

Module ReplacerFacts.
Import Replacer.

Lemma elem_of_list_erase f g (l : list nat) :
  NoDup l → g ∈ list_erase f l ↔ g ∈ l ∧ g ≠ f.
Proof.
  induction l as [|x l IH]; simpl; intros Hnd.
  - split; [by intros ?%elem_of_nil | by intros [?%elem_of_nil _]].
  - apply NoDup_cons in Hnd as [Hx Hnd].
    destruct (decide (x = f)) as [->|Hne].
    + rewrite elem_of_cons. split.
      * intros Hg. split; [by right|]. by intros ->.
      * by intros [[->|?] ?].
    + rewrite !elem_of_cons, IH by done. split.
      * intros [->|[Hg Hgf]]; [by split; [left|] | by split; [right|]].
      * intros [[->|Hg] Hgf]; [by left | by right].
Qed.

Lemma NoDup_list_erase f (l : list nat) : NoDup l → NoDup (list_erase f l).
Proof.
  induction l as [|x l IH]; simpl; intros Hnd; [done|].
  apply NoDup_cons in Hnd as [Hx Hnd].
  destruct (decide (x = f)); [done|].
  apply NoDup_cons. split; [|by apply IH].
  rewrite elem_of_list_erase by done. by intros [Hin _].
Qed.

Lemma wf_new n : wf (new_LRUReplacer n).
Proof.
  split; simpl.
  - apply NoDup_nil_2.
  - by intros f ?%elem_of_nil.
  - intros f g. by rewrite lookup_empty.
Qed.

Lemma wf_Pin r f : wf r → wf (Pin r f).
Proof.
  intros [Hnd Hl Hn]. unfold Pin.
  destruct (pin_map_table_ r !! f) as [[g|]|] eqn:E; try by split.
  destruct (Hn _ _ E) as [-> Hin].
  split; simpl.
  - by apply NoDup_list_erase.
  - intros h [Hh Hne]%elem_of_list_erase; [|done].
    rewrite lookup_insert_ne by done. by apply Hl.
  - intros h k. rewrite lookup_insert. case_decide; [done|].
    intros Hk. destruct (Hn _ _ Hk) as [-> ?]. split; [done|].
    apply elem_of_list_erase; [done|]. split; [done|congruence].
Qed.

Lemma not_listed r f :
  wf r → pin_map_table_ r !! f ≠ Some (it_node f) → f ∉ pin_lists_ r.
Proof. intros Hwf Hne Hin. by apply Hne, wf_listed. Qed.

Lemma wf_Unpin r f : wf r → wf (Unpin r f).
Proof.
  intros Hwf. unfold Unpin.
  assert (pin_map_table_ r !! f ≠ Some (it_node f) →
          wf (mkLRU (num_pages_ r) (f :: pin_lists_ r)
                    (<[f := it_node f]> (pin_map_table_ r)))) as Hins.
  { intros Hne. pose proof (not_listed _ _ Hwf Hne) as Hnin.
    destruct Hwf as [Hnd Hl Hn]. split; simpl.
    - by apply NoDup_cons.
    - intros h. rewrite elem_of_cons, lookup_insert.
      case_decide; [by subst|]. intros [->|?]; [done|]. by apply Hl.
    - intros h k. rewrite lookup_insert, elem_of_cons. case_decide.
      + intros [= <-]. subst. by split; [|left].
      + intros Hk. destruct (Hn _ _ Hk) as [-> ?]. by split; [|right]. }
  destruct (pin_map_table_ r !! f) as [[g|]|] eqn:E; [done|..];
    case_decide; try done; by apply Hins.
Qed.

Lemma wf_Victim r : wf r → wf (Victim r).2.
Proof.
  intros [Hnd Hl Hn]. unfold Victim.
  destruct (last (pin_lists_ r)) as [b|] eqn:E; [|by split].
  apply last_Some in E as [l' E]. simpl.
  rewrite E in Hnd. rewrite E, removelast_last.
  apply NoDup_app in Hnd as (Hnd' & Hdisj & _).
  assert (∀ h, h ∈ l' → h ≠ b) as Hneq.
  { intros h Hh ->. apply (Hdisj b Hh). by apply list_elem_of_singleton. }
  split; simpl.
  - done.
  - intros h Hh. rewrite lookup_delete_ne by (by apply not_eq_sym, Hneq).
    apply Hl. rewrite E. apply elem_of_app. by left.
  - intros h k. rewrite lookup_delete. case_decide; [done|].
    intros Hk. destruct (Hn _ _ Hk) as [-> Hin]. split; [done|].
    rewrite E in Hin. apply elem_of_app in Hin as [?|Hin]; [done|].
    apply list_elem_of_singleton in Hin. congruence.
Qed.

Lemma reachable_lru_wf r : reachable r → wf r.
Proof.
  induction 1; auto using wf_new, wf_Pin, wf_Unpin, wf_Victim.
Qed.

(** [Unpin] of a frame that is not in the list puts it at the front,
    provided the capacity allows it. *)
Lemma Unpin_fresh r f :
  wf r → f ∉ pin_lists_ r → (length (pin_lists_ r) < num_pages_ r)%nat →
  Unpin r f = mkLRU (num_pages_ r) (f :: pin_lists_ r)
                    (<[f := it_node f]> (pin_map_table_ r)).
Proof.
  intros Hwf Hnin Hlt. unfold Unpin.
  destruct (pin_map_table_ r !! f) as [[g|]|] eqn:E.
  - destruct (wf_node _ Hwf _ _ E) as [_ ?]. done.
  - by rewrite decide_True.
  - by rewrite decide_True.
Qed.

(** [Unpin] of a listed frame changes nothing. *)
Lemma Unpin_listed r f : wf r → f ∈ pin_lists_ r → Unpin r f = r.
Proof.
  intros Hwf Hin. unfold Unpin. by rewrite (wf_listed _ Hwf _ Hin).
Qed.

Lemma Unpin_num_pages r f : num_pages_ (Unpin r f) = num_pages_ r.
Proof.
  unfold Unpin.
  destruct (pin_map_table_ r !! f) as [[g|]|]; try case_decide; done.
Qed.

(** Unpinning distinct frames that are not listed stacks them at the
    front, the last one first. *)
Lemma Unpin_all r (fs : list nat) :
  wf r → NoDup fs → (∀ f, f ∈ fs → f ∉ pin_lists_ r) →
  (length (pin_lists_ r) + length fs ≤ num_pages_ r)%nat →
  pin_lists_ (foldl Unpin r fs) = reverse fs ++ pin_lists_ r.
Proof.
  revert r. induction fs as [|f fs IH]; intros r Hwf Hnd Hfresh Hcap.
  - done.
  - apply NoDup_cons in Hnd as [Hf Hnd]. simpl in *.
    assert (f ∉ pin_lists_ r) as Hnin by (apply Hfresh; by left).
    rewrite IH.
    + rewrite Unpin_fresh by (done || lia). simpl.
      by rewrite reverse_cons, <- app_assoc.
    + by apply wf_Unpin.
    + done.
    + intros g Hg. rewrite Unpin_fresh by (done || lia). simpl.
      apply not_elem_of_cons. split; [by intros ->|].
      apply Hfresh. by right.
    + rewrite Unpin_fresh by (done || lia). simpl. lia.
Qed.

(** Draining a list: the victims come from the back. *)
Lemma victims_drain (l : list nat) n m :
  (victims (length l) (mkLRU n l m)).1 = Some <$> reverse l ∧
  pin_lists_ (victims (length l) (mkLRU n l m)).2 = [].
Proof.
  revert m. induction l as [|x l IH] using rev_ind; intros m; [done|].
  rewrite length_app, Nat.add_comm. simpl. unfold Victim. simpl.
  rewrite last_snoc, removelast_last.
  specialize (IH (delete x m)).
  destruct (victims (length l) _) as [vs r2]. simpl in *.
  destruct IH as [-> ->]. by rewrite reverse_snoc.
Qed.

Lemma NoDup_3 (a b c : nat) : a ≠ b → a ≠ c → b ≠ c → NoDup [a; b; c].
Proof.
  intros Hab Hac Hbc.
  apply NoDup_cons. split.
  { rewrite !elem_of_cons. intros [?|[?|?%elem_of_nil]]; done. }
  apply NoDup_cons. split.
  { rewrite elem_of_cons. intros [?|?%elem_of_nil]; done. }
  apply NoDup_singleton.
Qed.

End ReplacerFacts.

(** C6, LRU order.  From a replacer whose eligibility ordering is empty
    (every frame is pinned), with room for three frames: after [Unpin A],
    [Unpin B], [Unpin C] of three distinct frames, three calls of [Victim]
    return [A], then [B], then [C], and a fourth reports that nothing is
    eligible.  In general: any distinct frames [fs] unpinned in this order
    from an empty ordering are returned by [Victim] in this same order;
    [Victim] on a non-empty ordering returns its back (the entry unpinned
    the longest ago) and removes exactly that entry; [Victim] on an empty
    ordering returns the none indicator and changes nothing. *)
Theorem Victim_lru_order :
  (∀ r A B C,
     Replacer.reachable r → pin_lists_ r = [] → (3 ≤ num_pages_ r)%nat →
     A ≠ B → A ≠ C → B ≠ C →
     ∃ r1 r2 r3,
       Victim (Unpin (Unpin (Unpin r A) B) C) = (Some A, r1) ∧
       Victim r1 = (Some B, r2) ∧
       Victim r2 = (Some C, r3) ∧
       Victim r3 = (None, r3)) ∧
  (∀ r (fs : list nat),
     Replacer.reachable r → pin_lists_ r = [] → NoDup fs →
     (length fs ≤ num_pages_ r)%nat →
     (Replacer.victims (length fs) (foldl Unpin r fs)).1 = Some <$> fs ∧
     Victim (Replacer.victims (length fs) (foldl Unpin r fs)).2 =
       (None, (Replacer.victims (length fs) (foldl Unpin r fs)).2)) ∧
  (∀ r l f,
     pin_lists_ r = l ++ [f] →
     (Victim r).1 = Some f ∧ pin_lists_ (Victim r).2 = l) ∧
  (∀ r, pin_lists_ r = [] → Victim r = (None, r)).
Proof.
  assert (∀ r l f, pin_lists_ r = l ++ [f] →
            Victim r = (Some f, mkLRU (num_pages_ r) l
                                      (delete f (pin_map_table_ r)))) as HV.
  { intros r l f E. unfold Victim. by rewrite E, last_snoc, removelast_last. }
  assert (∀ r, pin_lists_ r = [] → Victim r = (None, r)) as HN.
  { intros r E. unfold Victim. by rewrite E. }
  split; [|split; [|split]].
  - intros r A B C Hr Hnil Hcap HAB HAC HBC.
    pose proof (ReplacerFacts.reachable_lru_wf _ Hr) as Hwf.
    pose proof (ReplacerFacts.Unpin_all r [A; B; C] Hwf) as Hl.
    rewrite Hnil in Hl. simpl in Hl.
    specialize (Hl (ReplacerFacts.NoDup_3 _ _ _ HAB HAC HBC)
                   (λ f _, not_elem_of_nil f) Hcap).
    assert (pin_lists_ (Unpin (Unpin (Unpin r A) B) C) = [C; B] ++ [A])
      as Hl' by exact Hl.
    eexists _, _, _. split; [by apply HV|].
    split; [by apply (HV _ [C] B)|].
    split; [by apply (HV _ [] C)|].
    by apply HN.
  - intros r fs Hr Hnil Hnd Hcap.
    pose proof (ReplacerFacts.reachable_lru_wf _ Hr) as Hwf.
    pose proof (ReplacerFacts.Unpin_all r fs Hwf Hnd) as Hl.
    rewrite Hnil in Hl. simpl in Hl. rewrite app_nil_r in Hl.
    specialize (Hl (λ f _, not_elem_of_nil f) Hcap).
    destruct (foldl Unpin r fs) as [n l m]. simpl in Hl. subst l.
    pose proof (ReplacerFacts.victims_drain (reverse fs) n m) as [H1 H2].
    rewrite length_reverse, reverse_involutive in H1.
    rewrite length_reverse in H2.
    split; [done|]. by apply HN.
  - intros r l f E. by rewrite (HV _ _ _ E).
  - done.
Qed.

Lemma Victim_lru_order_witness :
  ∃ r1 r2 r3,
    Victim (Unpin (Unpin (Unpin (new_LRUReplacer 3) 2%nat) 0%nat) 1%nat)
      = (Some 2%nat, r1) ∧
    Victim r1 = (Some 0%nat, r2) ∧
    Victim r2 = (Some 1%nat, r3) ∧
    Victim r3 = (None, r3).
Proof.
  apply (proj1 Victim_lru_order (new_LRUReplacer 3) 2%nat 0%nat 1%nat).
  - apply Replacer.reachable_new.
  - reflexivity.
  - simpl. lia.
  - lia.
  - lia.
  - lia.
Defined.

(** X24.  The second copy of the replacer gives the same order: from a
    new replacer with room for three frames, three distinct frames unpinned
    in the order [A], [B], [C] are the victims in this order, and then
    nothing is eligible. *)
Lemma Counted_Victim_lru_order (n A B C : nat) :
  (3 ≤ n)%nat → A ≠ B → A ≠ C → B ≠ C →
  let r := Counted.Unpin (Counted.Unpin (Counted.Unpin
             (Counted.new_LRUReplacer n) A) B) C in
  ∃ r1 r2 r3,
    Counted.Victim r = (Some A, r1) ∧
    Counted.Victim r1 = (Some B, r2) ∧
    Counted.Victim r2 = (Some C, r3) ∧
    Counted.Victim r3 = (None, r3).
Proof.
  intros Hn HAB HAC HBC.
  unfold Counted.new_LRUReplacer, Counted.Unpin at 3. simpl.
  rewrite lookup_empty, decide_True by lia.
  unfold Counted.Unpin at 2. simpl.
  rewrite lookup_insert_ne, lookup_empty, decide_True by (done || lia).
  unfold Counted.Unpin. simpl.
  rewrite !lookup_insert_ne, lookup_empty, decide_True by (done || lia).
  unfold Counted.Victim. simpl. eauto 10.
Qed.

(** * Exhaustion and page identifiers *)

(** The two outcomes of [AllocatePage]. *)
Lemma AllocatePage_Some s id s1 :
  AllocatePage s = Some (id, s1) →
  id = next_page_id_ s ∧ ValidatePageId s id ∧
  s1 = mkBPM (pool_size_ s) (num_instances_ s) (instance_index_ s)
             (to_int32 (next_page_id_ s + num_instances_ s))
             (pages_ s) (replacer_ s) (free_list_ s) (page_table_ s)
             (disk_manager_ s).
Proof.
  unfold AllocatePage. case_decide as HV; [|done]. by intros [= <- <-].
Qed.

Lemma AllocatePage_None s :
  AllocatePage s = None ↔ ¬ ValidatePageId s (next_page_id_ s).
Proof. unfold AllocatePage. by case_decide. Qed.

Lemma AllocatePage_valid s :
  ValidatePageId s (next_page_id_ s) →
  AllocatePage s =
    Some (next_page_id_ s,
          mkBPM (pool_size_ s) (num_instances_ s) (instance_index_ s)
                (to_int32 (next_page_id_ s + num_instances_ s))
                (pages_ s) (replacer_ s) (free_list_ s) (page_table_ s)
                (disk_manager_ s)).
Proof. intros HV. unfold AllocatePage. by rewrite decide_True. Qed.

(** C9.  When the free list and the eligibility ordering are both empty,
    [NewPgImp] returns the failure indicator and nothing else happens: the
    manager, hence its next-identifier counter, is unchanged and the
    caller's output variable keeps its value.  Moreover this is the only way
    [NewPgImp] fails: whenever a call returns the failure indicator, the
    manager and the output variable are unchanged, so no identifier is
    consumed by a failed call. *)
Theorem NewPgImp_exhausted_no_alloc (s : BPM) (out : Z) :
  free_list_ s = [] → Size (replacer_ s) = 0%nat →
  NewPgImp s out = Some (None, out, s) ∧
  (∀ r, NewPgImp s out = Some r → next_page_id_ r.2 = next_page_id_ s) ∧
  (∀ s0 out0 r, NewPgImp s0 out0 = Some r → r.1.1 = None →
                r = (None, out0, s0)).
Proof.
  intros Hfl Hsz.
  assert (NewPgImp s out = Some (None, out, s)) as E.
  { unfold NewPgImp. by rewrite decide_True. }
  split; [done|]. split; [rewrite E; by intros r [= <-]|].
  intros s0 out0 r. unfold NewPgImp.
  destruct (decide (free_list_ s0 = [] ∧ Size (replacer_ s0) = 0%nat))
    as [?|Hne]; [by intros [= <-]|].
  destruct (AllocatePage s0) as [[id s1]|] eqn:EA; [|done].
  apply AllocatePage_Some in EA as (-> & _ & ->).
  simpl. destruct (last (free_list_ s0)) as [f|] eqn:El;
    [by intros [= <-]|].
  unfold Victim.
  destruct (last (pin_lists_ (replacer_ s0))) as [b|] eqn:Eb.
  - simpl. destruct (is_dirty_ _); by intros [= <-].
  - exfalso. apply Hne. apply last_None in El. apply last_None in Eb.
    unfold Size. by rewrite Eb.
Qed.

Lemma FlushAll_fold_counter l s :
  next_page_id_ (foldl FlushAll_body s l) = next_page_id_ s ∧
  num_instances_ (foldl FlushAll_body s l) = num_instances_ s ∧
  instance_index_ (foldl FlushAll_body s l) = instance_index_ s.
Proof.
  revert s. induction l as [|i l IH]; intros s; [done|]. simpl.
  destruct (IH (FlushAll_body s i)) as (-> & -> & ->).
  unfold FlushAll_body. by destruct (is_dirty_ _).
Qed.

Lemma to_int32_small z :
  -2147483648 ≤ z ≤ MAX_PAGE_ID → to_int32 z = z.
Proof.
  unfold MAX_PAGE_ID, to_int32. intros Hz.
  rewrite Z.mod_small by lia. lia.
Qed.

Lemma to_int32_range z : -2147483648 ≤ to_int32 z ≤ MAX_PAGE_ID.
Proof.
  unfold MAX_PAGE_ID, to_int32.
  pose proof (Z.mod_pos_bound (z + 2147483648) 4294967296). lia.
Qed.

Lemma to_uint32_small z : 0 ≤ z ≤ MAX_PAGE_ID → to_uint32 z = z.
Proof.
  unfold MAX_PAGE_ID, to_uint32. intros Hz. apply Z.mod_small. lia.
Qed.

(** What a call that returns does to the allocator: a successful [NewPage]
    hands out the counter, which passed [ValidatePageId], and advances it
    by [num_instances_] in the arithmetic of [page_id_t]; every other call,
    and a failed [NewPage], leaves the counter alone. *)
Lemma exec_counter s o r s' :
  exec s o = Some (r, s') →
  num_instances_ s' = num_instances_ s ∧
  instance_index_ s' = instance_index_ s ∧
  ((∃ f, r = RNewPage (Some f) (next_page_id_ s) ∧
         ValidatePageId s (next_page_id_ s) ∧
         next_page_id_ s' =
           to_int32 (next_page_id_ s + num_instances_ s)) ∨
   (new_ids [r] = [] ∧ next_page_id_ s' = next_page_id_ s)).
Proof.
  destruct o as [|p|p d|p|p|]; simpl.
  - unfold NewPgImp. case_decide as Hne.
    { simpl. intros [= <- <-]. split; [done|]. split; [done|]. by right. }
    destruct (AllocatePage s) as [[id s1]|] eqn:EA; [|done].
    apply AllocatePage_Some in EA as (-> & HV & ->). simpl.
    destruct (last (free_list_ s)) as [f|] eqn:El; simpl.
    { intros [= <- <-]. simpl. split; [done|]. split; [done|]. left. eauto. }
    unfold Victim.
    destruct (last (pin_lists_ (replacer_ s))) as [b|] eqn:Eb; simpl.
    + destruct (is_dirty_ _); simpl; intros [= <- <-]; simpl;
        (split; [done|]; split; [done|]; left; eauto).
    + exfalso. apply Hne. apply last_None in El. apply last_None in Eb.
      unfold Size. by rewrite Eb.
  - destruct (FetchPgImp s p) as [r0 s0] eqn:E. intros [= <- <-].
    revert E. unfold FetchPgImp.
    destruct (page_table_ s !! p); simpl.
    { intros [= <- <-]. simpl. split; [done|]. split; [done|]. by right. }
    destruct (last (free_list_ s)); simpl.
    { intros [= <- <-]. simpl. split; [done|]. split; [done|]. by right. }
    unfold Victim. destruct (last (pin_lists_ (replacer_ s))); simpl;
      intros [= <- <-]; simpl; (split; [done|]; split; [done|]; by right).
  - destruct (UnpinPgImp s p d) as [r0 s0] eqn:E. intros [= <- <-].
    revert E. unfold UnpinPgImp.
    destruct (page_table_ s !! p); [case_decide|]; intros [= <- <-];
      simpl; (split; [done|]; split; [done|]; by right).
  - destruct (FlushPgImp s p) as [r0 s0] eqn:E. intros [= <- <-].
    revert E. unfold FlushPgImp.
    destruct (page_table_ s !! p);
      [case_decide; [|destruct (is_dirty_ _)]|]; intros [= <- <-];
      simpl; (split; [done|]; split; [done|]; by right).
  - destruct (DeletePgImp s p) as [r0 s0] eqn:E. intros [= <- <-].
    revert E. unfold DeletePgImp, DeallocatePage.
    destruct (page_table_ s !! p); [case_decide|]; intros [= <- <-];
      simpl; (split; [done|]; split; [done|]; by right).
  - intros [= <- <-]. unfold FlushAllPgsImp.
    destruct (FlushAll_fold_counter (seq 0 (pool_size_ s)) s)
      as (-> & -> & ->).
    split; [done|]. split; [done|]. by right.
Qed.

Lemma new_ids_cons r rs : new_ids (r :: rs) = new_ids [r] ++ new_ids rs.
Proof. by destruct r as [?|[?|] ?|?|]. Qed.

(** Every identifier handed out passed the assertion of [ValidatePageId]:
    read as an unsigned integer it is congruent to [instance_index_]
    modulo [num_instances_]. *)
Lemma new_ids_valid s ops :
  Forall (ValidatePageId s) (new_ids (results s ops)).
Proof.
  revert s. induction ops as [|o ops IH]; intros s; [constructor|].
  cbn [results]. destruct (exec s o) as [[r s']|] eqn:E; [|constructor].
  destruct (exec_counter _ _ _ _ E) as (HN & Hi & Hc).
  assert (Forall (ValidatePageId s) (new_ids (results s' ops))) as Hrest.
  { eapply Forall_impl; [apply IH|]. intros id.
    unfold ValidatePageId. by rewrite HN, Hi. }
  destruct Hc as [(f & -> & HV & _)|[Hr _]].
  - cbn [new_ids]. by constructor.
  - by rewrite new_ids_cons, Hr.
Qed.

(** While the counter does not leave the range of [page_id_t], the
    identifiers handed out are those of the progression that starts at the
    counter with step [num_instances_]. *)
Lemma new_ids_progression s ops :
  0 ≤ next_page_id_ s → 0 < num_instances_ s →
  next_page_id_ s +
    (Z.of_nat (length (new_ids (results s ops))) - 1) * num_instances_ s
    ≤ MAX_PAGE_ID →
  new_ids (results s ops) =
  progression (next_page_id_ s) (num_instances_ s)
              (length (new_ids (results s ops))).
Proof.
  revert s. induction ops as [|o ops IH]; intros s Hnext HN; [done|].
  cbn [results]. destruct (exec s o) as [[r s']|] eqn:E; [|done].
  destruct (exec_counter _ _ _ _ E) as (HN' & _ & Hc).
  destruct Hc as [(f & -> & _ & Hnext')|[Hr Hnext']].
  - cbn [new_ids length progression]. intros Hb. f_equal.
    destruct (new_ids (results s' ops)) as [|id ids] eqn:Eids; [done|].
    rewrite <- Eids in *.
    assert (0 < Z.of_nat (length (new_ids (results s' ops)))) as Hpos
      by (rewrite Eids; simpl; lia).
    assert (next_page_id_ s' = next_page_id_ s + num_instances_ s) as Hn.
    { rewrite Hnext'. apply to_int32_small. unfold MAX_PAGE_ID in *. nia. }
    rewrite <- Hn, <- HN'. apply IH; rewrite ?HN', ?Hn; [lia|lia|nia].
  - rewrite new_ids_cons, Hr. simpl. intros Hb.
    rewrite <- Hnext', <- HN' in Hb |- *.
    apply IH; [by rewrite Hnext'|by rewrite HN'|done].
Qed.

Lemma progression_elem a d n x :
  x ∈ progression a d n → ∃ k : nat, (k < n)%nat ∧ x = a + Z.of_nat k * d.
Proof.
  revert a. induction n as [|n IH]; intros a; simpl.
  - by intros ?%elem_of_nil.
  - intros [->|Hx]%elem_of_cons.
    + exists 0%nat. split; lia.
    + destruct (IH _ Hx) as (k & Hk & ->). exists (S k). split; lia.
Qed.

Lemma progression_sorted a d n :
  0 < d → StronglySorted Z.lt (progression a d n).
Proof.
  intros Hd. revert a. induction n as [|n IH]; intros a; simpl.
  - constructor.
  - constructor; [apply IH|].
    apply Forall_forall. intros x Hx.
    destruct (progression_elem _ _ _ _ Hx) as (k & _ & ->). nia.
Qed.

(** While the counter does not leave the range of [page_id_t], successive
    calls of [AllocatePage] do not abort and return the progression. *)
Lemma allocate_progression k s :
  0 ≤ next_page_id_ s → 0 < num_instances_ s →
  next_page_id_ s `mod` num_instances_ s = instance_index_ s →
  next_page_id_ s + (Z.of_nat k - 1) * num_instances_ s ≤ MAX_PAGE_ID →
  ∃ s', allocate k s =
          Some (progression (next_page_id_ s) (num_instances_ s) k, s').
Proof.
  revert s. induction k as [|k IH]; intros s Hnext HN Hmod Hb.
  { by eexists. }
  cbn [allocate progression].
  rewrite AllocatePage_valid.
  2: { unfold ValidatePageId. rewrite to_uint32_small; [done|].
       unfold MAX_PAGE_ID in *. nia. }
  simpl. destruct k as [|k].
  { simpl. by eexists. }
  set (s1 := mkBPM _ _ _ _ _ _ _ _ _).
  assert (next_page_id_ s1 = next_page_id_ s + num_instances_ s) as Hn.
  { subst s1. simpl. apply to_int32_small. unfold MAX_PAGE_ID in *. nia. }
  destruct (IH s1) as [s' Hs'].
  - rewrite Hn. lia.
  - done.
  - rewrite Hn. subst s1. simpl.
    rewrite <- (Z.mul_1_l (num_instances_ s)) at 1.
    by rewrite Z_mod_plus_full.
  - rewrite Hn. subst s1. simpl. nia.
  - rewrite Hs', Hn. simpl. by eexists.
Qed.

(** A [NewPgImp] call that does not find the pool exhausted and does not
    abort returns a frame, and the counter as its identifier. *)
Lemma NewPgImp_returns s out :
  ¬ (free_list_ s = [] ∧ Size (replacer_ s) = 0%nat) →
  ValidatePageId s (next_page_id_ s) →
  ∃ f s', NewPgImp s out = Some (Some f, next_page_id_ s, s').
Proof.
  intros Hne HV. unfold NewPgImp. rewrite decide_False by done.
  rewrite AllocatePage_valid by done. simpl.
  destruct (last (free_list_ s)) as [f|] eqn:El; simpl; [by eauto|].
  unfold Victim.
  destruct (last (pin_lists_ (replacer_ s))) as [b|] eqn:Eb; simpl.
  - destruct (is_dirty_ _); simpl; eauto.
  - exfalso. apply Hne. apply last_None in El. apply last_None in Eb.
    unfold Size. by rewrite Eb.
Qed.

Lemma exec_New_counter s :
  ¬ (free_list_ s = [] ∧ Size (replacer_ s) = 0%nat) →
  ValidatePageId s (next_page_id_ s) →
  ∃ f s', exec s OpNewPage = Some (RNewPage (Some f) (next_page_id_ s), s').
Proof.
  intros Hne HV. simpl.
  destruct (NewPgImp_returns s INVALID_PAGE_ID Hne HV) as (f & s' & ->).
  simpl. eauto.
Qed.

(** C8, as amended.  For a manager constructed with [num_instances] [N]
    and [instance_index] [i] (the constructor's assertions demand [0 < N]
    and [i < N]) and any sequence of calls: every identifier handed out by
    [NewPage] passed [ValidatePageId], that is, read as an unsigned 32-bit
    integer it is congruent to [i] modulo [N]; so an instance constructed
    with the same [N] and another index never hands out one of them.  As
    long as the identifiers [i], [i + N], [i + 2N], ... do not exceed the
    largest [page_id_t], they are the identifiers handed out, in this
    order, strictly increasing and each congruent to [i] modulo [N]; that
    many successive calls of [AllocatePage] return them without aborting;
    and every [NewPage] call that does not find the pool exhausted and
    whose [ValidatePageId] holds returns a frame with the counter as
    identifier. *)
Theorem AllocatePage_partitioned
    (pool_size : nat) (N i : Z) (d : DiskManager) (s : BPM)
    (ops : list bpm_op) :
  new_BufferPoolManagerInstance pool_size N i d = Some s →
  let ids := new_ids (results s ops) in
  Forall (ValidatePageId s) ids ∧
  (∀ pool_size' j d' s' ops',
     j ≠ i →
     new_BufferPoolManagerInstance pool_size' N j d' = Some s' →
     ∀ id, id ∈ ids → id ∉ new_ids (results s' ops')) ∧
  (i + (Z.of_nat (length ids) - 1) * N ≤ MAX_PAGE_ID →
   ids = progression i N (length ids) ∧
   StronglySorted Z.lt ids ∧
   Forall (λ id, id `mod` N = i) ids) ∧
  (∀ k : nat,
     i + (Z.of_nat k - 1) * N ≤ MAX_PAGE_ID →
     ∃ s', allocate k s = Some (progression i N k, s')) ∧
  (∀ s1, ¬ (free_list_ s1 = [] ∧ Size (replacer_ s1) = 0%nat) →
         ValidatePageId s1 (next_page_id_ s1) →
         ∃ f s2, exec s1 OpNewPage =
                   Some (RNewPage (Some f) (next_page_id_ s1), s2)).
Proof.
  unfold new_BufferPoolManagerInstance.
  case_decide as HU; [|done]. case_decide as HN; [|done].
  destruct HU as [HUN HUi]. unfold is_uint32 in HUN, HUi.
  intros [= <-]. set (s := mkBPM _ _ _ _ _ _ _ _ _).
  set (ids := new_ids (results s ops)).
  pose proof (new_ids_valid s ops) as Hval.
  pose proof (new_ids_progression s ops) as Hp.
  fold ids in Hval, Hp. simpl in Hp. clearbody ids.
  split; [done|]. split; [|split; [|split]].
  - intros pool_size' j d' s' ops' Hji.
    case_decide as HU'; [|done]. case_decide as HN'; [|done].
    intros [= <-] id Hid Hid'.
    set (s' := mkBPM _ _ _ _ _ _ _ _ _) in Hid'.
    pose proof (new_ids_valid s' ops') as Hval'.
    rewrite Forall_forall in Hval, Hval'.
    specialize (Hval _ Hid). specialize (Hval' _ Hid').
    unfold ValidatePageId in Hval, Hval'. simpl in Hval, Hval'. congruence.
  - intros Hb.
    destruct (decide (length ids = 0%nat)) as [Hz|Hz].
    { apply nil_length_inv in Hz. subst ids. simpl.
      split; [done|]. split; constructor. }
    assert (0 ≤ (Z.of_nat (length ids) - 1) * N) as Hprod by nia.
    assert (to_int32 i = i) as Hi.
    { apply to_int32_small. unfold MAX_PAGE_ID in *. lia. }
    rewrite Hi in Hp.
    assert (ids = progression i N (length ids)) as Hids
      by (apply Hp; lia).
    split; [done|]. split.
    + rewrite Hids. apply progression_sorted. lia.
    + apply Forall_forall. intros id Hid. rewrite Hids in Hid.
      apply progression_elem in Hid as (k & _ & ->).
      rewrite Z_mod_plus_full. apply Z.mod_small. lia.
  - intros k Hb. destruct k as [|k]; [by eexists|].
    assert (0 ≤ (Z.of_nat (S k) - 1) * N) as Hprod by nia.
    assert (to_int32 i = i) as Hi.
    { apply to_int32_small. unfold MAX_PAGE_ID in *. lia. }
    pose proof (allocate_progression (S k) s) as Ha. simpl in Ha.
    rewrite Hi in Ha. apply Ha; [lia|lia| |lia].
    apply Z.mod_small. lia.
  - apply exec_New_counter.
Qed.

Lemma AllocatePage_partitioned_witness :
  let s := mkBPM 2 3 1 1 (replicate 2 empty_Page) (new_LRUReplacer 2)
                 (seq 0 2) ∅ empty_disk in
  let ids := new_ids (results s [OpNewPage; OpNewPage]) in
  ids = [1; 4] ∧
  Forall (ValidatePageId s) ids ∧
  (∀ pool_size' j d' s' ops',
     j ≠ 1 →
     new_BufferPoolManagerInstance pool_size' 3 j d' = Some s' →
     ∀ id, id ∈ ids → id ∉ new_ids (results s' ops')) ∧
  (1 + (Z.of_nat (length ids) - 1) * 3 ≤ MAX_PAGE_ID →
   ids = progression 1 3 (length ids) ∧
   StronglySorted Z.lt ids ∧
   Forall (λ id, id `mod` 3 = 1) ids) ∧
  (∀ k : nat,
     1 + (Z.of_nat k - 1) * 3 ≤ MAX_PAGE_ID →
     ∃ s', allocate k s = Some (progression 1 3 k, s')) ∧
  (∀ s1, ¬ (free_list_ s1 = [] ∧ Size (replacer_ s1) = 0%nat) →
         ValidatePageId s1 (next_page_id_ s1) →
         ∃ f s2, exec s1 OpNewPage =
                   Some (RNewPage (Some f) (next_page_id_ s1), s2)).
Proof.
  split; [vm_compute; reflexivity|].
  apply (AllocatePage_partitioned 2 3 1 empty_disk _ [OpNewPage; OpNewPage]).
  vm_compute. reflexivity.
Defined.

(** C8 as stated fails.  With [N = 2^30 + 1] and [i = 0] the third
    identifier is [2N] converted to [page_id_t], which is negative: the
    identifiers are not increasing, and the third is not congruent to 0
    modulo [N] as an integer (it is as an unsigned integer, which is what
    [ValidatePageId] checks).  The fifth allocation finds the counter at 4
    and aborts. *)
Lemma AllocatePage_partitioned_counterexample :
  let s := mkBPM 3 1073741825 0 0 (replicate 3 empty_Page)
                 (new_LRUReplacer 3) (seq 0 3) ∅ empty_disk in
  let ids := new_ids (results s [OpNewPage; OpNewPage; OpNewPage]) in
  new_BufferPoolManagerInstance 3 1073741825 0 empty_disk = Some s ∧
  ids = [0; 1073741825; -2147483646] ∧
  ¬ StronglySorted Z.lt ids ∧
  ¬ Forall (λ id, id `mod` 1073741825 = 0) ids ∧
  fst <$> allocate 4 s =
    Some [0; 1073741825; -2147483646; -1073741821] ∧
  allocate 5 s = None.
Proof.
  split; [vm_compute; reflexivity|].
  split; [vm_compute; reflexivity|].
  split; [|split; [|split; vm_compute; reflexivity]].
  - assert (new_ids (results
              (mkBPM 3 1073741825 0 0 (replicate 3 empty_Page)
                     (new_LRUReplacer 3) (seq 0 3) ∅ empty_disk)
              [OpNewPage; OpNewPage; OpNewPage]) =
            [0; 1073741825; -2147483646]) as -> by (vm_compute; reflexivity).
    intros H. apply StronglySorted_inv in H as [H _].
    apply StronglySorted_inv in H as [_ H].
    apply Forall_inv in H. lia.
  - assert (new_ids (results
              (mkBPM 3 1073741825 0 0 (replicate 3 empty_Page)
                     (new_LRUReplacer 3) (seq 0 3) ∅ empty_disk)
              [OpNewPage; OpNewPage; OpNewPage]) =
            [0; 1073741825; -2147483646]) as -> by (vm_compute; reflexivity).
    intros H. apply Forall_inv_tail in H. apply Forall_inv_tail in H.
    apply Forall_inv in H. vm_compute in H. discriminate.
Qed.

Lemma NewPgImp_exhausted_no_alloc_witness :
  let s := run (fresh_pool 1) [OpNewPage] in
  NewPgImp s 7 = Some (None, 7, s) ∧
  (∀ r, NewPgImp s 7 = Some r → next_page_id_ r.2 = next_page_id_ s) ∧
  (∀ s0 out0 r, NewPgImp s0 out0 = Some r → r.1.1 = None →
                r = (None, out0, s0)).
Proof.
  apply (NewPgImp_exhausted_no_alloc (run (fresh_pool 1) [OpNewPage]) 7).
  - vm_compute. reflexivity.
  - vm_compute. reflexivity.
Defined.

(** * Well-formed pool states *)

Lemma list_erase_sub f g (l : list nat) : g ∈ list_erase f l → g ∈ l.
Proof.
  induction l as [|x l IH]; simpl; [done|].
  destruct (decide (x = f)); rewrite ?elem_of_cons.
  - by right.
  - intros [->|Hg]; [by left|]. right. by apply IH.
Qed.

Lemma Pin_sub r f g : g ∈ pin_lists_ (Pin r f) → g ∈ pin_lists_ r.
Proof.
  unfold Pin. destruct (pin_map_table_ r !! f) as [[h|]|]; simpl; try done.
  apply list_erase_sub.
Qed.

Lemma Pin_num_pages r f : num_pages_ (Pin r f) = num_pages_ r.
Proof. unfold Pin. by destruct (pin_map_table_ r !! f) as [[h|]|]. Qed.

(** After [Pin] the frame is not in the eligibility ordering. *)
Lemma Pin_not_listed r f : Replacer.wf r → f ∉ pin_lists_ (Pin r f).
Proof.
  intros Hwf Hin. pose proof (ReplacerFacts.wf_Pin r f Hwf) as Hwf'.
  apply (Replacer.wf_listed _ Hwf') in Hin. revert Hin. unfold Pin.
  destruct (pin_map_table_ r !! f) as [[h|]|] eqn:E; simpl.
  - by rewrite lookup_insert_eq.
  - by rewrite E.
  - by rewrite E.
Qed.

Lemma Unpin_sub r f g :
  g ∈ pin_lists_ (Unpin r f) → g = f ∨ g ∈ pin_lists_ r.
Proof.
  unfold Unpin.
  destruct (pin_map_table_ r !! f) as [[h|]|]; try case_decide; simpl;
    rewrite ?elem_of_cons; auto.
Qed.

Lemma Victim_Some r f r' :
  Victim r = (Some f, r') →
  ∃ l, pin_lists_ r = l ++ [f] ∧
       r' = mkLRU (num_pages_ r) l (delete f (pin_map_table_ r)).
Proof.
  unfold Victim. destruct (last (pin_lists_ r)) as [b|] eqn:E; [|done].
  apply last_Some in E as [l E]. rewrite E, removelast_last.
  intros [= <- <-]. eauto.
Qed.

Lemma Victim_None r r' : Victim r = (None, r') → pin_lists_ r = [] ∧ r' = r.
Proof.
  unfold Victim. destruct (last (pin_lists_ r)) as [b|] eqn:E; [done|].
  apply last_None in E. by intros [= <-].
Qed.

Lemma last_free (fl : list nat) f :
  NoDup fl → last fl = Some f →
  f ∈ fl ∧ NoDup (removelast fl) ∧ (f ∉ removelast fl) ∧
  (∀ g, g ∈ removelast fl → g ∈ fl) ∧
  length fl = S (length (removelast fl)).
Proof.
  intros Hnd [l ->]%last_Some. rewrite removelast_last.
  apply NoDup_app in Hnd as (Hnd & Hdisj & _).
  split; [apply elem_of_app; right; by apply list_elem_of_singleton|].
  split; [done|]. split.
  - intros Hin. apply (Hdisj f Hin). by apply list_elem_of_singleton.
  - split; [intros g ?; apply elem_of_app; by left|].
    rewrite length_app. simpl. lia.
Qed.

(** Overwriting a frame by a page with the same identifier changes no
    identifier of the frame table. *)
Lemma page_id_insert_same (ps : list Page) f g pg :
  page_id_ pg = page_id_ (ps !!! f) →
  page_id_ (<[f := pg]> ps !!! g) = page_id_ (ps !!! g).
Proof.
  intros E. destruct (decide (f < length ps)%nat) as [Hlt|Hge].
  - destruct (decide (f = g)) as [<-|Hne].
    + by rewrite list_lookup_total_insert_eq.
    + by rewrite list_lookup_total_insert_ne.
  - by rewrite list_insert_ge by lia.
Qed.

Lemma pin_nonneg_lookup (ps : list Page) f :
  Forall (λ pg, 0 ≤ pin_count_ pg) ps → 0 ≤ pin_count_ (ps !!! f).
Proof.
  intros HF. rewrite list_lookup_total_alt.
  destruct (ps !! f) as [pg|] eqn:E; simpl; [|done].
  by apply (Forall_lookup_1 _ _ _ _ HF E).
Qed.

Lemma bpm_wf_new pool_size n i d s :
  new_BufferPoolManagerInstance pool_size n i d = Some s → bpm_wf s.
Proof.
  unfold new_BufferPoolManagerInstance. do 2 (case_decide; [|done]).
  intros [= <-]. split; simpl.
  - apply length_replicate.
  - intros f Hf. apply elem_of_seq in Hf. lia.
  - apply NoDup_seq.
  - intros p f. by rewrite lookup_empty.
  - intros f p _. by rewrite lookup_empty.
  - intros f Hf. apply elem_of_seq in Hf.
    rewrite lookup_total_replicate_2 by lia. done.
  - apply ReplacerFacts.wf_new.
  - by intros f ?%elem_of_nil.
  - done.
  - apply Forall_replicate. done.
Qed.

(** A frame's metadata is overwritten, its identifier stays: the shape of
    the updates of [UnpinPgImp], [FlushPgImp], [FlushAllPgsImp] and of the
    hit path of [FetchPgImp]. *)
Lemma bpm_wf_touch s f pg r d :
  bpm_wf s →
  page_id_ pg = page_id_ (pages_ s !!! f) →
  0 ≤ pin_count_ pg →
  (f ∈ free_list_ s → is_dirty_ pg = false) →
  Replacer.wf r →
  (∀ g, g ∈ pin_lists_ r → (g < pool_size_ s)%nat) →
  num_pages_ r = pool_size_ s →
  bpm_wf (mkBPM (pool_size_ s) (num_instances_ s) (instance_index_ s)
                (next_page_id_ s) (<[f := pg]> (pages_ s)) r
                (free_list_ s) (page_table_ s) d).
Proof.
  intros Hwf Hid Hpin Hfree Hr Hrlt Hcap.
  destruct Hwf as [Hlen Hflt Hfnd Htab Hft Hfc _ _ _ Hnn].
  split; simpl; try done.
  - by rewrite length_insert.
  - intros p g Hp. destruct (Htab _ _ Hp) as [? <-].
    split; [done|]. by apply page_id_insert_same.
  - intros g Hg. destruct (Hfc _ Hg) as [Hi Hd].
    rewrite page_id_insert_same by done. split; [done|].
    destruct (decide (f = g)) as [->|Hne].
    + destruct (decide (g < length (pages_ s))%nat).
      * rewrite list_lookup_total_insert_eq by done. auto.
      * by rewrite list_insert_ge by lia.
    + by rewrite list_lookup_total_insert_ne.
  - by apply Forall_insert.
Qed.

(** A frame is given to a new page: the shape of the updates of [NewPgImp]
    and of the miss path of [FetchPgImp]. *)
Lemma bpm_wf_install s f p pg fl (pt : gmap Z nat) r d next :
  bpm_wf s →
  (f < pool_size_ s)%nat →
  page_id_ pg = p →
  0 ≤ pin_count_ pg →
  NoDup fl →
  (∀ g, g ∈ fl → g ∈ free_list_ s ∧ g ≠ f) →
  (∀ q g, pt !! q = Some g → page_table_ s !! q = Some g ∧ g ≠ f) →
  Replacer.wf r →
  (∀ g, g ∈ pin_lists_ r → g ∈ pin_lists_ (replacer_ s)) →
  num_pages_ r = num_pages_ (replacer_ s) →
  bpm_wf (mkBPM (pool_size_ s) (num_instances_ s) (instance_index_ s)
                next (<[f := pg]> (pages_ s)) r fl (<[p := f]> pt) d).
Proof.
  intros Hwf Hf Hid Hpin Hnd Hfl Hpt Hr Hrsub Hcap.
  destruct Hwf as [Hlen Hflt Hfnd Htab Hft Hfc _ Hrlt Hrcap Hnn].
  split; simpl; try done.
  - by rewrite length_insert.
  - intros g Hg. apply Hflt. by apply Hfl.
  - intros q g. rewrite lookup_insert. case_decide as Hq.
    + intros [= <-]. split; [done|].
      rewrite list_lookup_total_insert_eq by lia. congruence.
    + intros Hg. destruct (Hpt _ _ Hg) as [Hg' Hne].
      rewrite list_lookup_total_insert_ne by done. by apply Htab.
  - intros g q Hg. destruct (Hfl _ Hg) as [Hg' Hne].
    rewrite lookup_insert. case_decide; [congruence|].
    intros Hq. destruct (Hpt _ _ Hq) as [Hq' _]. by apply (Hft g q).
  - intros g Hg. destruct (Hfl _ Hg) as [Hg' Hne].
    rewrite list_lookup_total_insert_ne by done. by apply Hfc.
  - intros g Hg. by apply Hrlt, Hrsub.
  - congruence.
  - by apply Forall_insert.
Qed.

Lemma bpm_wf_FlushAll_body s i : bpm_wf s → bpm_wf (FlushAll_body s i).
Proof.
  intros Hwf. unfold FlushAll_body.
  destruct (is_dirty_ (pages_ s !!! i)) eqn:Ed; [|done].
  apply bpm_wf_touch; try done.
  - by apply pin_nonneg_lookup, wf_pin_nonneg.
  - by apply wf_lru.
  - by apply wf_lru_lt.
  - by apply wf_lru_cap.
Qed.

Lemma bpm_wf_FlushAll s : bpm_wf s → bpm_wf (FlushAllPgsImp s).
Proof.
  unfold FlushAllPgsImp. generalize (seq 0 (pool_size_ s)). intros l.
  revert s. induction l as [|i l IH]; intros s Hwf; [done|].
  simpl. by apply IH, bpm_wf_FlushAll_body.
Qed.

Lemma bpm_wf_Flush s p : bpm_wf s → bpm_wf (FlushPgImp s p).2.
Proof.
  intros Hwf. unfold FlushPgImp.
  destruct (page_table_ s !! p) as [f|] eqn:E; [|done].
  case_decide; [done|].
  destruct (is_dirty_ (pages_ s !!! f)) eqn:Ed; [|done]. simpl.
  apply bpm_wf_touch; try done.
  - by apply pin_nonneg_lookup, wf_pin_nonneg.
  - by apply wf_lru.
  - by apply wf_lru_lt.
  - by apply wf_lru_cap.
Qed.

Lemma bpm_wf_Unpin s p b : bpm_wf s → bpm_wf (UnpinPgImp s p b).2.
Proof.
  intros Hwf. unfold UnpinPgImp.
  destruct (page_table_ s !! p) as [f|] eqn:E; [|done].
  case_decide as Hpin; [done|]. simpl.
  destruct (wf_table _ Hwf _ _ E) as [Hf Hid].
  apply bpm_wf_touch; try done.
  - simpl. lia.
  - intros Hin. by destruct (wf_free_table _ Hwf _ p Hin).
  - case_decide; [apply ReplacerFacts.wf_Unpin|]; by apply wf_lru.
  - intros g. case_decide; [|by apply wf_lru_lt].
    intros [->|?]%Unpin_sub; [done|]. by apply wf_lru_lt.
  - case_decide; [rewrite ReplacerFacts.Unpin_num_pages|]; by apply wf_lru_cap.
Qed.

Lemma bpm_wf_Fetch_hit s p f :
  bpm_wf s → page_table_ s !! p = Some f → bpm_wf (FetchPgImp s p).2.
Proof.
  intros Hwf E. unfold FetchPgImp. rewrite E. simpl.
  apply bpm_wf_touch; try done.
  - pose proof (pin_nonneg_lookup _ f (wf_pin_nonneg _ Hwf)). simpl. lia.
  - intros Hin. by destruct (wf_free_table _ Hwf _ p Hin).
  - by apply ReplacerFacts.wf_Pin, wf_lru.
  - intros g Hg%Pin_sub. by apply wf_lru_lt.
  - rewrite Pin_num_pages. by apply wf_lru_cap.
Qed.

Lemma bpm_wf_Delete s p : bpm_wf s → bpm_wf (DeletePgImp s p).2.
Proof.
  intros Hwf. unfold DeletePgImp, DeallocatePage.
  destruct (page_table_ s !! p) as [f|] eqn:E; [|done].
  case_decide as Hpin; [done|]. simpl.
  destruct (wf_table _ Hwf _ _ E) as [Hf Hid].
  assert (f ∉ free_list_ s) as Hnin.
  { intros Hin. by destruct (wf_free_table _ Hwf _ p Hin). }
  destruct Hwf as [Hlen Hflt Hfnd Htab Hft Hfc Hr Hrlt Hrcap Hnn].
  split; simpl; try done.
  - by rewrite length_insert.
  - intros g [->|Hg]%elem_of_cons; auto.
  - by apply NoDup_cons.
  - intros q g. rewrite lookup_delete. case_decide as Hq; [done|].
    intros Hg. destruct (Htab _ _ Hg) as [Hglt Hgid]. split; [done|].
    rewrite list_lookup_total_insert_ne; [done|].
    intros ->. congruence.
  - intros g q Hg. rewrite lookup_delete. case_decide as Hq; [done|].
    apply elem_of_cons in Hg as [->|Hg]; [|by apply Hft].
    intros Hg. destruct (Htab _ _ Hg) as [_ Hgid]. congruence.
  - intros g [->|Hg]%elem_of_cons.
    + by rewrite list_lookup_total_insert_eq by lia.
    + rewrite list_lookup_total_insert_ne; [by apply Hfc|].
      by intros ->.
  - apply Forall_insert; [done|]. simpl.
    by apply pin_nonneg_lookup.
Qed.

(** Erasing the identifier found in frame [f] leaves no entry for [f]. *)
Lemma table_erase_frame s f :
  bpm_wf s → ∀ q g,
  delete (page_id_ (pages_ s !!! f)) (page_table_ s) !! q = Some g →
  page_table_ s !! q = Some g ∧ g ≠ f.
Proof.
  intros Hwf q g. rewrite lookup_delete. case_decide as Hq; [done|].
  intros Hg. split; [done|]. intros ->.
  destruct (wf_table _ Hwf _ _ Hg) as [_ Hid]. congruence.
Qed.

Lemma wf_Victim_Some r f r' :
  Replacer.wf r → Victim r = (Some f, r') →
  Replacer.wf r' ∧ f ∈ pin_lists_ r ∧ (f ∉ pin_lists_ r') ∧
  (∀ g, g ∈ pin_lists_ r' → g ∈ pin_lists_ r) ∧
  num_pages_ r' = num_pages_ r.
Proof.
  intros Hwf HV. pose proof (ReplacerFacts.wf_Victim r Hwf) as Hwf'.
  rewrite HV in Hwf'. simpl in Hwf'.
  apply Victim_Some in HV as (l & El & ->). simpl.
  pose proof (Replacer.wf_nodup _ Hwf) as Hnd. rewrite El in Hnd.
  apply NoDup_app in Hnd as (_ & Hdisj & _).
  split; [done|]. rewrite El. split; [|split; [|split]].
  - apply elem_of_app. right. by apply list_elem_of_singleton.
  - intros Hin. apply (Hdisj f Hin). by apply list_elem_of_singleton.
  - intros g Hg. apply elem_of_app. by left.
  - done.
Qed.

Lemma bpm_wf_New s out r :
  bpm_wf s → NewPgImp s out = Some r → bpm_wf r.2.
Proof.
  intros Hwf. unfold NewPgImp. case_decide as Hne; [by intros [= <-]|].
  destruct (AllocatePage s) as [[id s1]|] eqn:EA; [|done].
  apply AllocatePage_Some in EA as (-> & _ & ->). intros [= <-]. simpl.
  destruct (last (free_list_ s)) as [f|] eqn:El; simpl.
  - destruct (last_free _ _ (wf_free_nodup _ Hwf) El)
      as (Hin & Hnd & Hnin & Hsub & _).
    apply bpm_wf_install; try done.
    + by apply wf_free_lt.
    + intros g Hg. split; [by apply Hsub|]. by intros ->.
    + intros q g Hg. split; [done|]. intros ->.
      by apply (wf_free_table _ Hwf f q).
    + by apply ReplacerFacts.wf_Pin, wf_lru.
    + intros g. apply Pin_sub.
    + apply Pin_num_pages.
  - apply last_None in El.
    destruct (Victim (replacer_ s)) as [[f|] r] eqn:EV.
    + destruct (wf_Victim_Some _ _ _ (wf_lru _ Hwf) EV)
        as (Hr & Hin & Hnin & Hsub & Hcap).
      assert (f < pool_size_ s)%nat as Hf by (by apply wf_lru_lt).
      assert (∀ pg d, page_id_ pg = next_page_id_ s → pin_count_ pg = 1 →
        bpm_wf (mkBPM (pool_size_ s) (num_instances_ s) (instance_index_ s)
          (to_int32 (next_page_id_ s + num_instances_ s))
          (<[f := pg]> (pages_ s))
          (Pin r f) (free_list_ s)
          (<[next_page_id_ s := f]>
             (delete (page_id_ (pages_ s !!! f)) (page_table_ s))) d)) as HI.
      { intros pg d Hid Hpin. apply bpm_wf_install; try done.
        - lia.
        - rewrite El. apply NoDup_nil_2.
        - rewrite El. by intros g ?%elem_of_nil.
        - by apply table_erase_frame.
        - by apply ReplacerFacts.wf_Pin.
        - intros g Hg%Pin_sub. by apply Hsub.
        - by rewrite Pin_num_pages. }
      destruct (is_dirty_ (pages_ s !!! f)) eqn:Ed; simpl.
      * rewrite list_insert_insert_eq.
        rewrite (page_id_insert_same _ f f) by done. by apply HI.
      * by apply HI.
    + exfalso. apply Hne.
      apply Victim_None in EV as [EV _]. unfold Size. by rewrite EV.
Qed.

Lemma bpm_wf_Fetch s p : bpm_wf s → bpm_wf (FetchPgImp s p).2.
Proof.
  intros Hwf. destruct (page_table_ s !! p) as [f|] eqn:E.
  { by eapply bpm_wf_Fetch_hit. }
  unfold FetchPgImp. rewrite E.
  destruct (last (free_list_ s)) as [f|] eqn:El; simpl.
  - destruct (last_free _ _ (wf_free_nodup _ Hwf) El)
      as (Hin & Hnd & Hnin & Hsub & _).
    apply bpm_wf_install; try done.
    + by apply wf_free_lt.
    + intros g Hg. split; [by apply Hsub|]. by intros ->.
    + by apply table_erase_frame.
    + by apply wf_lru.
  - apply last_None in El.
    destruct (Victim (replacer_ s)) as [[f|] r] eqn:EV; [|done].
    destruct (wf_Victim_Some _ _ _ (wf_lru _ Hwf) EV)
      as (Hr & Hin & Hnin & Hsub & Hcap).
    assert (f < pool_size_ s)%nat as Hf by (by apply wf_lru_lt).
    simpl. apply bpm_wf_install; try done.
    + rewrite El. apply NoDup_nil_2.
    + rewrite El. by intros g ?%elem_of_nil.
    + by apply table_erase_frame.
Qed.

Lemma bpm_wf_step s o : bpm_wf s → bpm_wf (step s o).
Proof.
  intros Hwf. unfold step, exec. destruct o as [|p|p d|p|p|].
  - destruct (NewPgImp s INVALID_PAGE_ID) as [[[? ?] ?]|] eqn:E; [|done].
    apply (bpm_wf_New _ _ _ Hwf E).
  - pose proof (bpm_wf_Fetch s p Hwf) as H.
    by destruct (FetchPgImp s p).
  - pose proof (bpm_wf_Unpin s p d Hwf) as H.
    by destruct (UnpinPgImp s p d).
  - pose proof (bpm_wf_Flush s p Hwf) as H.
    by destruct (FlushPgImp s p).
  - pose proof (bpm_wf_Delete s p Hwf) as H.
    by destruct (DeletePgImp s p).
  - by apply bpm_wf_FlushAll.
Qed.

Lemma reachable_wf s : reachable s → bpm_wf s.
Proof.
  induction 1; eauto using bpm_wf_new, bpm_wf_step.
Qed.

Lemma fresh_pool_new n :
  new_BufferPoolManagerInstance_single n empty_disk = Some (fresh_pool n).
Proof. reflexivity. Qed.

Lemma exec_step s o r s' : exec s o = Some (r, s') → step s o = s'.
Proof. intros E. unfold step. by rewrite E. Qed.

Lemma reachable_run s ops : reachable s → reachable (run s ops).
Proof.
  revert s. induction ops as [|o ops IH]; intros s Hs; [done|].
  simpl. destruct (exec s o) as [[r s']|] eqn:E; [|done].
  apply IH. rewrite <- (exec_step _ _ _ _ E). by constructor.
Qed.

Lemma reachable_fresh n ops : reachable (run (fresh_pool n) ops).
Proof.
  apply reachable_run. eapply reachable_new. apply (fresh_pool_new n).
Qed.

(** [step] for [NewPage]: the manager of the result, or the manager of
    before the call when the call aborts. *)
Lemma step_New s :
  step s OpNewPage =
    match NewPgImp s INVALID_PAGE_ID with
    | Some r => r.2
    | None => s
    end.
Proof.
  unfold step, exec. by destruct (NewPgImp _ _) as [[[? ?] ?]|].
Qed.

Lemma step_New_case s (P : BPM → Prop) :
  P s → (∀ r, NewPgImp s INVALID_PAGE_ID = Some r → P r.2) →
  P (step s OpNewPage).
Proof.
  intros Hs Hr. rewrite step_New.
  destruct (NewPgImp _ _) as [r|]; [by apply Hr|done].
Qed.

Lemma step_Fetch s p : step s (OpFetchPage p) = (FetchPgImp s p).2.
Proof. unfold step, exec. by destruct (FetchPgImp _ _). Qed.

Lemma step_Unpin s p d : step s (OpUnpinPage p d) = (UnpinPgImp s p d).2.
Proof. unfold step, exec. by destruct (UnpinPgImp _ _ _). Qed.

Lemma step_Flush s p : step s (OpFlushPage p) = (FlushPgImp s p).2.
Proof. unfold step, exec. by destruct (FlushPgImp _ _). Qed.

Lemma step_Delete s p : step s (OpDeletePage p) = (DeletePgImp s p).2.
Proof. unfold step, exec. by destruct (DeletePgImp _ _). Qed.

(** * Unpinning *)

(** A list without duplicates of naturals below [n] that misses one of them
    is shorter than [n]. *)
Lemma NoDup_below_length (l : list nat) n f :
  NoDup l → (∀ g, g ∈ l → (g < n)%nat) → (f < n)%nat → f ∉ l →
  (length l < n)%nat.
Proof.
  intros Hnd Hlt Hf Hnin.
  assert (f :: l ⊆+ seq 0 n) as Hsub.
  { apply NoDup_submseteq; [by apply NoDup_cons|].
    intros g [->|Hg]%elem_of_cons; apply elem_of_seq; [lia|].
    specialize (Hlt _ Hg). lia. }
  apply submseteq_length in Hsub. rewrite length_seq in Hsub. simpl in Hsub.
  lia.
Qed.

(** In a well-formed pool the capacity check of [Unpin] never refuses a
    frame of the pool: after the call the frame is eligible. *)
Lemma Unpin_eligible s f :
  bpm_wf s → (f < pool_size_ s)%nat → f ∈ pin_lists_ (Unpin (replacer_ s) f).
Proof.
  intros Hwf Hf.
  destruct (decide (f ∈ pin_lists_ (replacer_ s))) as [Hin|Hnin].
  - by rewrite ReplacerFacts.Unpin_listed by (done || by apply wf_lru).
  - rewrite ReplacerFacts.Unpin_fresh; [by left|by apply wf_lru|done|].
    rewrite (wf_lru_cap _ Hwf).
    eapply NoDup_below_length; eauto using wf_lru_lt.
    by apply Replacer.wf_nodup, wf_lru.
Qed.

(** C7.  In a reachable state, [UnpinPgImp] returns false exactly when the
    page is not resident or the pin count of its frame is zero, and then the
    pool is unchanged.  When it returns true, the frame of the page gets
    [is_dirty_ || is_dirty] as its dirty flag and its pin count decremented,
    nothing else in the frame table changes, the replacer is the result of
    [Unpin] on that frame exactly when the decremented count is zero (the
    frame is then in the eligibility ordering) and is untouched otherwise,
    and the rest of the pool is unchanged. *)
Theorem UnpinPgImp_spec (s : BPM) (page_id : Z) (is_dirty : bool) :
  reachable s →
  let b := (UnpinPgImp s page_id is_dirty).1 in
  let s' := (UnpinPgImp s page_id is_dirty).2 in
  (b = false ↔
     page_table_ s !! page_id = None ∨
     ∃ f, page_table_ s !! page_id = Some f ∧
          pin_count_ (pages_ s !!! f) = 0) ∧
  (b = false → s' = s) ∧
  (b = true →
     ∃ f, page_table_ s !! page_id = Some f ∧
          let pg := pages_ s !!! f in
          pages_ s' !!! f =
            mkPage (data_ pg) (page_id_ pg) (pin_count_ pg - 1)
                   (is_dirty_ pg || is_dirty) ∧
          (∀ g, g ≠ f → pages_ s' !!! g = pages_ s !!! g) ∧
          (pin_count_ pg - 1 = 0 →
             replacer_ s' = Unpin (replacer_ s) f ∧
             f ∈ pin_lists_ (replacer_ s')) ∧
          (pin_count_ pg - 1 ≠ 0 → replacer_ s' = replacer_ s) ∧
          free_list_ s' = free_list_ s ∧
          page_table_ s' = page_table_ s ∧
          next_page_id_ s' = next_page_id_ s ∧
          disk_manager_ s' = disk_manager_ s).
Proof.
  intros Hs. pose proof (reachable_wf _ Hs) as Hwf.
  unfold UnpinPgImp.
  destruct (page_table_ s !! page_id) as [f|] eqn:E; simpl.
  2: { split; [|done]. split; [by left|done]. }
  pose proof (pin_nonneg_lookup _ f (wf_pin_nonneg _ Hwf)) as Hnn.
  destruct (wf_table _ Hwf _ _ E) as [Hf _].
  case_decide as Hpin; simpl.
  - split; [|done]. split; [|done]. intros _. right. exists f.
    split; [done|lia].
  - split; [|split; [done|]].
    + split; [done|]. intros [?|(g & [= <-] & Hz)]; [done|lia].
    + intros _. exists f. split; [done|].
      split; [by rewrite list_lookup_total_insert_eq
                by (by rewrite (wf_pages_len _ Hwf))|].
      split; [intros g Hg; by rewrite list_lookup_total_insert_ne|].
      split; [|split].
      * intros Hz. rewrite decide_True by done. split; [done|].
        by apply Unpin_eligible.
      * intros Hz. by rewrite decide_False.
      * done.
Qed.

Lemma UnpinPgImp_spec_witness :
  let s := run (fresh_pool 1) [OpNewPage] in
  let b := (UnpinPgImp s 0 true).1 in
  let s' := (UnpinPgImp s 0 true).2 in
  (b = false ↔
     page_table_ s !! 0 = None ∨
     ∃ f, page_table_ s !! 0 = Some f ∧
          pin_count_ (pages_ s !!! f) = 0) ∧
  (b = false → s' = s) ∧
  (b = true →
     ∃ f, page_table_ s !! 0 = Some f ∧
          let pg := pages_ s !!! f in
          pages_ s' !!! f =
            mkPage (data_ pg) (page_id_ pg) (pin_count_ pg - 1)
                   (is_dirty_ pg || true) ∧
          (∀ g, g ≠ f → pages_ s' !!! g = pages_ s !!! g) ∧
          (pin_count_ pg - 1 = 0 →
             replacer_ s' = Unpin (replacer_ s) f ∧
             f ∈ pin_lists_ (replacer_ s')) ∧
          (pin_count_ pg - 1 ≠ 0 → replacer_ s' = replacer_ s) ∧
          free_list_ s' = free_list_ s ∧
          page_table_ s' = page_table_ s ∧
          next_page_id_ s' = next_page_id_ s ∧
          disk_manager_ s' = disk_manager_ s).
Proof.
  apply (UnpinPgImp_spec (run (fresh_pool 1) [OpNewPage]) 0 true).
  apply reachable_fresh.
Defined.

(** * Flushing every frame *)

Lemma flush_calls_app ps1 ps2 :
  flush_calls (ps1 ++ ps2) = flush_calls ps1 ++ flush_calls ps2.
Proof.
  induction ps1 as [|pg ps1 IH]; simpl; [done|].
  by rewrite IH, app_assoc.
Qed.

(** The loop after its first [n] iterations. *)
Lemma FlushAll_prefix s n :
  (n ≤ length (pages_ s))%nat →
  let s' := foldl FlushAll_body s (seq 0 n) in
  pages_ s' = (flushed <$> take n (pages_ s)) ++ drop n (pages_ s) ∧
  calls (disk_manager_ s') =
    calls (disk_manager_ s) ++ flush_calls (take n (pages_ s)) ∧
  pool_size_ s' = pool_size_ s ∧ num_instances_ s' = num_instances_ s ∧
  instance_index_ s' = instance_index_ s ∧
  next_page_id_ s' = next_page_id_ s ∧ replacer_ s' = replacer_ s ∧
  free_list_ s' = free_list_ s ∧ page_table_ s' = page_table_ s.
Proof.
  induction n as [|n IH]; intros Hn; cbv zeta.
  { simpl. by rewrite app_nil_r. }
  rewrite seq_S, foldl_app. simpl.
  destruct IH as (Hp & Hc & IH); [lia|].
  destruct (lookup_lt_is_Some_2 (pages_ s) n) as [pg Hpg]; [lia|].
  set (sn := foldl FlushAll_body s (seq 0 n)) in *.
  assert (length (flushed <$> take n (pages_ s)) = n) as Hlen.
  { rewrite length_fmap, length_take. lia. }
  assert (pages_ sn !!! n = pg) as Hn'.
  { rewrite Hp, (drop_S _ _ _ Hpg).
    by apply list_lookup_total_middle. }
  rewrite (take_S_r _ _ _ Hpg), fmap_app, flush_calls_app. simpl.
  unfold FlushAll_body. rewrite Hn'. unfold flushed at 2.
  destruct (is_dirty_ pg) eqn:Ed; simpl.
  - rewrite Hp, Hc, (drop_S _ _ _ Hpg).
    rewrite insert_app_r_alt by lia. rewrite Hlen, Nat.sub_diag. simpl.
    by rewrite <- !app_assoc.
  - rewrite Hp, Hc, (drop_S _ _ _ Hpg), app_nil_r.
    by rewrite <- !app_assoc.
Qed.

(** C10.  In a reachable state, after [FlushAllPgsImp] no frame is dirty:
    the frame table is the old one with the dirty flag of every dirty frame
    cleared and every clean frame as it was; the disk received, after the
    earlier calls, exactly one [WritePage] for each frame that was dirty,
    with the identifier and the buffer of that frame, in the order of the
    frames; and nothing else of the pool changed. *)
Theorem FlushAllPgsImp_spec (s : BPM) :
  reachable s →
  let s' := FlushAllPgsImp s in
  Forall (λ pg, is_dirty_ pg = false) (pages_ s') ∧
  pages_ s' = flushed <$> pages_ s ∧
  (∀ i pg, pages_ s !! i = Some pg → is_dirty_ pg = true →
           pages_ s' !! i = Some (mkPage (data_ pg) (page_id_ pg)
                                         (pin_count_ pg) false)) ∧
  (∀ i pg, pages_ s !! i = Some pg → is_dirty_ pg = false →
           pages_ s' !! i = Some pg) ∧
  calls (disk_manager_ s') =
    calls (disk_manager_ s) ++ flush_calls (pages_ s) ∧
  replacer_ s' = replacer_ s ∧ free_list_ s' = free_list_ s ∧
  page_table_ s' = page_table_ s ∧ next_page_id_ s' = next_page_id_ s.
Proof.
  intros Hs. pose proof (reachable_wf _ Hs) as Hwf.
  pose proof (wf_pages_len _ Hwf) as Hlen.
  destruct (FlushAll_prefix s (pool_size_ s))
    as (Hp & Hc & _ & _ & _ & Hn & Hr & Hf & Ht); [lia|].
  fold (FlushAllPgsImp s) in *.
  rewrite <- Hlen, firstn_all, drop_all, app_nil_r in Hp.
  rewrite <- Hlen, firstn_all in Hc.
  simpl. rewrite Hp. repeat split; try done.
  - apply Forall_fmap, Forall_forall. intros pg _. simpl. unfold flushed.
    by destruct (is_dirty_ pg) eqn:E.
  - intros i pg Hi Hd. rewrite list_lookup_fmap, Hi. simpl.
    unfold flushed. by rewrite Hd.
  - intros i pg Hi Hd. rewrite list_lookup_fmap, Hi. simpl.
    unfold flushed. by rewrite Hd.
Qed.

Lemma FlushAllPgsImp_spec_witness :
  let s := run (fresh_pool 1) [OpNewPage; OpUnpinPage 0 true] in
  let s' := FlushAllPgsImp s in
  Forall (λ pg, is_dirty_ pg = false) (pages_ s') ∧
  pages_ s' = flushed <$> pages_ s ∧
  (∀ i pg, pages_ s !! i = Some pg → is_dirty_ pg = true →
           pages_ s' !! i = Some (mkPage (data_ pg) (page_id_ pg)
                                         (pin_count_ pg) false)) ∧
  (∀ i pg, pages_ s !! i = Some pg → is_dirty_ pg = false →
           pages_ s' !! i = Some pg) ∧
  calls (disk_manager_ s') =
    calls (disk_manager_ s) ++ flush_calls (pages_ s) ∧
  replacer_ s' = replacer_ s ∧ free_list_ s' = free_list_ s ∧
  page_table_ s' = page_table_ s ∧ next_page_id_ s' = next_page_id_ s.
Proof.
  apply (FlushAllPgsImp_spec
           (run (fresh_pool 1) [OpNewPage; OpUnpinPage 0 true])).
  apply reachable_fresh.
Defined.

(** * Write-back of a dirty victim *)

(** C5.  In a reachable state let page [p] be resident in frame [f] with
    the dirty flag set (it was fetched and unpinned with [is_dirty = true]),
    and let [f] be the frame the eviction picks: the free list is empty and
    [Victim] returns [f].  Then [NewPgImp], and [FetchPgImp] of a page [q]
    that is not resident, reuse [f] and issue exactly one [WritePage], with
    the identifier [p] and the buffer of the frame as it was; for
    [FetchPgImp] this call comes before the [ReadPage] that fills the frame
    for [q], and for [NewPgImp] the buffer is zeroed afterwards.  The page
    table is the old one with the entry of [p] erased and then the new
    identifier mapped to [f].  [NewPgImp] calls [AllocatePage] before it
    picks the frame: it returns when the assertion of [ValidatePageId]
    holds of the counter, and otherwise aborts before anything is
    evicted. *)
Theorem dirty_victim_written_back
    (s : BPM) (p q : Z) (f : nat) (out : Z) :
  reachable s →
  page_table_ s !! p = Some f →
  is_dirty_ (pages_ s !!! f) = true →
  free_list_ s = [] →
  (Victim (replacer_ s)).1 = Some f →
  page_table_ s !! q = None →
  let buf := data_ (pages_ s !!! f) in
  let fetch := FetchPgImp s q in
  (ValidatePageId s (next_page_id_ s) →
   ∃ new, NewPgImp s out = Some new ∧
   new.1.1 = Some f ∧
   new.1.2 = next_page_id_ s ∧
   calls (disk_manager_ new.2) =
     calls (disk_manager_ s) ++ [DiskWrite p buf] ∧
   store (disk_manager_ new.2) !! p = Some buf ∧
   page_table_ new.2 = <[next_page_id_ s := f]> (delete p (page_table_ s)) ∧
   pages_ new.2 !!! f = mkPage zeroed (next_page_id_ s) 1 false) ∧
  (¬ ValidatePageId s (next_page_id_ s) → NewPgImp s out = None) ∧
  (fetch.1 = Some f ∧
   calls (disk_manager_ fetch.2) =
     calls (disk_manager_ s) ++ [DiskWrite p buf; DiskRead q] ∧
   page_table_ fetch.2 = <[q := f]> (delete p (page_table_ s)) ∧
   pages_ fetch.2 !!! f =
     mkPage (default zeroed (<[p := buf]> (store (disk_manager_ s)) !! q))
            q 1 false).
Proof.
  intros Hs Hp Hd Hfl HV Hq.
  pose proof (reachable_wf _ Hs) as Hwf.
  destruct (wf_table _ Hwf _ _ Hp) as [Hf Hid].
  assert (f < length (pages_ s))%nat as Hlen
    by (by rewrite (wf_pages_len _ Hwf)).
  destruct (Victim (replacer_ s)) as [v r] eqn:EV. simpl in HV. subst v.
  pose proof (Victim_Some _ _ _ EV) as (l & El & _).
  assert (¬ (free_list_ s = [] ∧ Size (replacer_ s) = 0%nat)) as Hne.
  { unfold Size. rewrite El, length_app. simpl. lia. }
  split; [|split].
  - intros HV. unfold NewPgImp. rewrite decide_False by done.
    rewrite AllocatePage_valid by done.
    simpl. rewrite Hfl. simpl. rewrite EV, Hd. simpl.
    eexists. split; [reflexivity|]. simpl.
    rewrite list_lookup_total_insert_eq by done. simpl.
    rewrite Hid, lookup_insert_eq. repeat split; try done.
    rewrite list_lookup_total_insert_eq; [done|].
    by rewrite length_insert.
  - intros HV. unfold NewPgImp. rewrite decide_False by done.
    apply AllocatePage_None in HV. by rewrite HV.
  - unfold FetchPgImp. rewrite Hq, Hfl. simpl. rewrite EV, Hd. simpl.
    rewrite Hid. repeat split; try done.
    + by rewrite <- app_assoc.
    + by rewrite list_lookup_total_insert_eq.
Qed.

(** Fetching a page and unpinning it with [is_dirty = true] leaves it
    resident with the dirty flag set. *)
Lemma Fetch_Unpin_dirty (s : BPM) (p : Z) (f : nat) :
  reachable s →
  (FetchPgImp s p).1 = Some f →
  let s1 := (FetchPgImp s p).2 in
  (UnpinPgImp s1 p true).1 = true →
  let s2 := (UnpinPgImp s1 p true).2 in
  reachable s2 ∧ page_table_ s2 !! p = Some f ∧
  is_dirty_ (pages_ s2 !!! f) = true ∧
  data_ (pages_ s2 !!! f) = data_ (pages_ s1 !!! f).
Proof.
  intros Hs Hf s1 Hu s2.
  assert (reachable s1) as Hs1.
  { subst s1. rewrite <- step_Fetch. by constructor. }
  assert (reachable s2) as Hs2.
  { subst s2. rewrite <- step_Unpin. by constructor. }
  assert (page_table_ s1 !! p = Some f) as Hp.
  { subst s1. revert Hf. unfold FetchPgImp.
    destruct (page_table_ s !! p) as [g|] eqn:E; simpl.
    - by intros [= <-].
    - destruct (last (free_list_ s)); simpl.
      + intros [= <-]. by rewrite lookup_insert_eq.
      + destruct (Victim (replacer_ s)) as [[g|] r]; [|done]. simpl.
        intros [= <-]. by rewrite lookup_insert_eq. }
  pose proof (reachable_wf _ Hs1) as Hwf1.
  destruct (wf_table _ Hwf1 _ _ Hp) as [Hlt _].
  split; [done|]. clear Hs2.
  revert Hu. subst s2. unfold UnpinPgImp. rewrite Hp.
  case_decide; [done|]. simpl. intros _.
  rewrite list_lookup_total_insert_eq
    by (by rewrite (wf_pages_len _ Hwf1)).
  simpl. by rewrite orb_true_r.
Qed.

Lemma dirty_victim_written_back_witness :
  let s := run (fresh_pool 1) [OpFetchPage 5; OpUnpinPage 5 true] in
  let buf := data_ (pages_ s !!! 0%nat) in
  let fetch := FetchPgImp s 9 in
  (∃ new, NewPgImp s 7 = Some new ∧
   new.1.1 = Some 0%nat ∧
   new.1.2 = next_page_id_ s ∧
   calls (disk_manager_ new.2) =
     calls (disk_manager_ s) ++ [DiskWrite 5 buf] ∧
   store (disk_manager_ new.2) !! 5 = Some buf ∧
   page_table_ new.2 =
     <[next_page_id_ s := 0%nat]> (delete 5 (page_table_ s)) ∧
   pages_ new.2 !!! 0%nat = mkPage zeroed (next_page_id_ s) 1 false) ∧
  (fetch.1 = Some 0%nat ∧
   calls (disk_manager_ fetch.2) =
     calls (disk_manager_ s) ++ [DiskWrite 5 buf; DiskRead 9] ∧
   page_table_ fetch.2 = <[9 := 0%nat]> (delete 5 (page_table_ s)) ∧
   pages_ fetch.2 !!! 0%nat =
     mkPage (default zeroed (<[5 := buf]> (store (disk_manager_ s)) !! 9))
            9 1 false).
Proof.
  destruct (dirty_victim_written_back
              (run (fresh_pool 1) [OpFetchPage 5; OpUnpinPage 5 true])
              5 9 0 7) as (Hnew & _ & Hfetch).
  - apply reachable_fresh.
  - vm_compute. reflexivity.
  - vm_compute. reflexivity.
  - vm_compute. reflexivity.
  - vm_compute. reflexivity.
  - vm_compute. reflexivity.
  - split; [|exact Hfetch]. apply Hnew. vm_compute. reflexivity.
Defined.

(** * The capacity invariant *)

Lemma size_delete_insert (m : gmap Z nat) p q f g :
  m !! p = Some g → m !! q = None →
  size (<[q := f]> (delete p m)) = size m.
Proof.
  intros Hp Hq.
  rewrite map_size_insert_None.
  - rewrite <- (insert_delete_id m p g Hp) at 2.
    by rewrite map_size_insert_None by apply lookup_delete_eq.
  - rewrite lookup_delete_ne; [done|]. intros ->. congruence.
Qed.

Lemma cap_inv_new pool_size n i d s :
  new_BufferPoolManagerInstance pool_size n i d = Some s → cap_inv s.
Proof.
  intros Hnew. split; [by eapply bpm_wf_new|..]; revert Hnew;
    unfold new_BufferPoolManagerInstance; do 2 (case_decide; [|done]);
    intros [= <-]; simpl.
  - done.
  - by rewrite length_seq, map_size_empty, Nat.add_0_r.
  - by intros f ?%elem_of_nil.
Qed.

(** The frame table is not consulted by the capacity invariant: a call that
    leaves the free list and the page table alone and does not add a frame
    to the replacer keeps it. *)
Lemma cap_inv_same s s' :
  cap_inv s → bpm_wf s' →
  pool_size_ s' = pool_size_ s →
  free_list_ s' = free_list_ s → page_table_ s' = page_table_ s →
  (∀ f, f ∈ pin_lists_ (replacer_ s') →
        f ∈ pin_lists_ (replacer_ s) ∨ ∃ p, page_table_ s !! p = Some f) →
  cap_inv s'.
Proof.
  intros [Hwf Hsen Hcnt Hlru] Hwf' Hps Hfl Hpt Hr.
  split; rewrite ?Hps, ?Hfl, ?Hpt; try done.
  intros f [Hf|Hf]%Hr; auto.
Qed.

Lemma FlushAll_fold_frame l s :
  let s' := foldl FlushAll_body s l in
  pool_size_ s' = pool_size_ s ∧ free_list_ s' = free_list_ s ∧
  page_table_ s' = page_table_ s ∧ replacer_ s' = replacer_ s.
Proof.
  revert s. induction l as [|i l IH]; intros s; [done|]. simpl.
  destruct (IH (FlushAll_body s i)) as (-> & -> & -> & ->).
  unfold FlushAll_body. by destruct (is_dirty_ _).
Qed.

(** A frame is handed to a new page. *)
Lemma cap_inv_install s s' f p :
  cap_inv s → bpm_wf s' →
  pool_size_ s' = pool_size_ s →
  p ≠ INVALID_PAGE_ID →
  page_table_ s !! p = None →
  (∀ g, g ∈ pin_lists_ (replacer_ s') → g ∈ pin_lists_ (replacer_ s)) →
  ((∃ old, last (free_list_ s) = Some f ∧
           free_list_ s' = removelast (free_list_ s) ∧
           page_table_ s !! old = None ∧
           page_table_ s' = <[p := f]> (delete old (page_table_ s))) ∨
   (free_list_ s = [] ∧ free_list_ s' = [] ∧
    f ∈ pin_lists_ (replacer_ s) ∧
    page_table_ s' =
      <[p := f]> (delete (page_id_ (pages_ s !!! f)) (page_table_ s)))) →
  cap_inv s'.
Proof.
  intros [Hwf Hsen Hcnt Hlru] Hwf' Hps Hp Hfresh Hr Hcase.
  destruct Hcase as [(old & El & Hfl & Hold & Hpt)|(Hfl & Hfl' & Hin & Hpt)].
  - destruct (last_free _ _ (wf_free_nodup _ Hwf) El)
      as (Hfin & _ & _ & Hsub & Hlen).
    rewrite delete_id in Hpt by done.
    split; rewrite ?Hps, ?Hfl, ?Hpt; try done.
    + by rewrite lookup_insert_ne.
    + rewrite map_size_insert_None by done. lia.
    + intros g Hg%Hr. destruct (decide (g = f)) as [->|Hne].
      { right. exists p. by rewrite lookup_insert_eq. }
      destruct (Hlru _ Hg) as [Hgf|[q Hq]].
      * left. apply last_Some in El as [l El]. rewrite El in Hgf |- *.
        rewrite removelast_last. apply elem_of_app in Hgf as [?|Hgf]; [done|].
        apply list_elem_of_singleton in Hgf. done.
      * right. exists q. rewrite lookup_insert_ne; [done|].
        intros ->. congruence.
  - destruct (Hlru _ Hin) as [Hf|[old Hold]].
    { rewrite Hfl in Hf. by apply elem_of_nil in Hf. }
    destruct (wf_table _ Hwf _ _ Hold) as [_ Hid]. rewrite Hid in Hpt.
    split; rewrite ?Hps, ?Hfl', ?Hpt; try done.
    + rewrite lookup_insert_ne by done.
      rewrite lookup_delete_ne; [done|]. intros ->. congruence.
    + rewrite (size_delete_insert _ _ _ _ _ Hold Hfresh).
      by rewrite <- Hcnt, Hfl.
    + intros g Hg%Hr. right. destruct (decide (g = f)) as [->|Hne].
      { exists p. by rewrite lookup_insert_eq. }
      destruct (Hlru _ Hg) as [Hgf|[q Hq]].
      { rewrite Hfl in Hgf. by apply elem_of_nil in Hgf. }
      exists q. rewrite lookup_insert_ne by (intros ->; congruence).
      rewrite lookup_delete_ne; [done|]. intros ->. congruence.
Qed.

Lemma cap_inv_New s out r :
  cap_inv s → page_table_ s !! next_page_id_ s = None →
  next_page_id_ s ≠ INVALID_PAGE_ID →
  NewPgImp s out = Some r → cap_inv r.2.
Proof.
  intros Hinv Hfresh Hnext Hr. pose proof (cap_wf _ Hinv) as Hwf.
  pose proof (bpm_wf_New s out r Hwf Hr) as Hwf'. revert Hr Hwf'.
  unfold NewPgImp. case_decide as Hne; [by intros [= <-]|].
  destruct (AllocatePage s) as [[id s1]|] eqn:EA; [|done].
  apply AllocatePage_Some in EA as (-> & _ & ->). intros [= <-]. simpl.
  destruct (last (free_list_ s)) as [f|] eqn:El; simpl.
  - intros Hwf'.
    apply (cap_inv_install s _ f (next_page_id_ s)); simpl; try done.
    + intros g. apply Pin_sub.
    + left. exists INVALID_PAGE_ID. split; [done|]. split; [done|].
      pose proof (cap_sentinel _ Hinv). split; [done|].
      by rewrite delete_id.
  - apply last_None in El.
    destruct (Victim (replacer_ s)) as [[f|] r] eqn:EV.
    + destruct (wf_Victim_Some _ _ _ (wf_lru _ Hwf) EV)
        as (Hr & Hin & Hnin & Hsub & Hcap).
      destruct (is_dirty_ (pages_ s !!! f)) eqn:Ed; simpl;
        rewrite ?(page_id_insert_same _ f f) by done; intros Hwf';
        (apply (cap_inv_install s _ f (next_page_id_ s)); simpl; try done;
         [intros g Hg%Pin_sub; by apply Hsub | by right]).
    + exfalso. apply Hne.
      apply Victim_None in EV as [EV _]. unfold Size. by rewrite EV.
Qed.

Lemma cap_inv_Fetch s p :
  cap_inv s → p ≠ INVALID_PAGE_ID → cap_inv (FetchPgImp s p).2.
Proof.
  intros Hinv Hp. pose proof (cap_wf _ Hinv) as Hwf.
  pose proof (bpm_wf_Fetch s p Hwf) as Hwf'. revert Hwf'.
  unfold FetchPgImp. destruct (page_table_ s !! p) as [f|] eqn:E; simpl.
  { intros Hwf'. apply (cap_inv_same s); try done. simpl.
    intros g Hg%Pin_sub. by left. }
  destruct (last (free_list_ s)) as [f|] eqn:El; simpl.
  - intros Hwf'. apply (cap_inv_install s _ f p); simpl; try done.
    left. exists (page_id_ (pages_ s !!! f)).
    split; [done|]. split; [done|]. split; [|done].
    apply last_Some_elem_of in El.
    destruct (wf_free_clean _ Hwf _ El) as [-> _]. by apply cap_sentinel.
  - apply last_None in El.
    destruct (Victim (replacer_ s)) as [[f|] r] eqn:EV; [|done].
    destruct (wf_Victim_Some _ _ _ (wf_lru _ Hwf) EV)
      as (Hr & Hin & Hnin & Hsub & Hcap).
    simpl. intros Hwf'. apply (cap_inv_install s _ f p); simpl; try done.
    by right.
Qed.

Lemma cap_inv_Unpin s p b : cap_inv s → cap_inv (UnpinPgImp s p b).2.
Proof.
  intros Hinv. pose proof (cap_wf _ Hinv) as Hwf.
  pose proof (bpm_wf_Unpin s p b Hwf) as Hwf'. revert Hwf'.
  unfold UnpinPgImp. destruct (page_table_ s !! p) as [f|] eqn:E; [|done].
  case_decide; [done|]. simpl. intros Hwf'.
  apply (cap_inv_same s); try done. simpl.
  intros g. case_decide; [|by left].
  intros [->|?]%Unpin_sub; [right; eauto|by left].
Qed.

Lemma cap_inv_Flush s p : cap_inv s → cap_inv (FlushPgImp s p).2.
Proof.
  intros Hinv. pose proof (cap_wf _ Hinv) as Hwf.
  pose proof (bpm_wf_Flush s p Hwf) as Hwf'. revert Hwf'.
  unfold FlushPgImp. destruct (page_table_ s !! p) as [f|] eqn:E; [|done].
  case_decide; [done|]. destruct (is_dirty_ _); [|done]. simpl.
  intros Hwf'. apply (cap_inv_same s); try done. simpl. by left.
Qed.

Lemma cap_inv_FlushAll s : cap_inv s → cap_inv (FlushAllPgsImp s).
Proof.
  intros Hinv. pose proof (cap_wf _ Hinv) as Hwf.
  pose proof (bpm_wf_FlushAll s Hwf) as Hwf'.
  destruct (FlushAll_fold_frame (seq 0 (pool_size_ s)) s)
    as (Hps & Hfl & Hpt & Hr).
  apply (cap_inv_same s); try done.
  unfold FlushAllPgsImp. rewrite Hr. by left.
Qed.

Lemma cap_inv_Delete s p : cap_inv s → cap_inv (DeletePgImp s p).2.
Proof.
  intros Hinv. pose proof (cap_wf _ Hinv) as Hwf.
  pose proof (bpm_wf_Delete s p Hwf) as Hwf'. revert Hwf'.
  unfold DeletePgImp, DeallocatePage. destruct (page_table_ s !! p) as [f|] eqn:E; [|done].
  case_decide; [done|]. simpl. intros Hwf'.
  destruct Hinv as [_ Hsen Hcnt Hlru].
  split; simpl; try done.
  - by apply lookup_delete_None; right.
  - rewrite map_size_delete_Some by done.
    assert (size (page_table_ s) ≠ 0%nat).
    { apply map_size_ne_0_lookup. eauto. }
    lia.
  - intros g Hg. destruct (Hlru _ Hg) as [?|[q Hq]].
    + left. by right.
    + destruct (decide (q = p)) as [->|Hne].
      * left. rewrite E in Hq. injection Hq as ->. by left.
      * right. exists q. by rewrite lookup_delete_ne.
Qed.

Lemma cap_inv_step s o : cap_inv s → no_id_clash s o → cap_inv (step s o).
Proof.
  intros Hinv Hok. destruct o as [|p|p d|p|p|]; simpl in Hok.
  - destruct Hok as [Hfresh Hnext]. apply step_New_case; [done|].
    intros r Hr. by eapply cap_inv_New.
  - rewrite step_Fetch. by apply cap_inv_Fetch.
  - rewrite step_Unpin. by apply cap_inv_Unpin.
  - rewrite step_Flush. by apply cap_inv_Flush.
  - rewrite step_Delete. by apply cap_inv_Delete.
  - by apply cap_inv_FlushAll.
Qed.

Lemma reachable_no_clash_inv s : reachable_no_clash s → cap_inv s.
Proof.
  induction 1; eauto using cap_inv_new, cap_inv_step.
Qed.

Lemma reachable_no_clash_run s ops :
  reachable_no_clash s → no_id_clashes s ops →
  reachable_no_clash (run s ops).
Proof.
  revert s. induction ops as [|o ops IH]; intros s Hs Hok; [done|].
  destruct Hok as [Ho Hok]. simpl.
  destruct (exec s o) as [[r s']|] eqn:E; [|done].
  rewrite <- (exec_step _ _ _ _ E). apply IH; [by constructor|done].
Qed.

(** C2, as amended.  In every state reached from a freshly constructed pool
    by [NewPage], [FetchPage], [UnpinPage], [FlushPage], [DeletePage] and
    [FlushAllPages] calls among which no [FetchPage] asks for the sentinel
    and no [NewPage] is made while the identifier it hands out is resident
    or is the sentinel, the length of the free list plus the number of
    entries of the page table is [pool_size_]. *)
Theorem capacity_invariant (s : BPM) :
  reachable_no_clash s →
  (length (free_list_ s) + size (page_table_ s))%nat = pool_size_ s.
Proof. intros Hs. by apply cap_count, reachable_no_clash_inv. Qed.

Lemma capacity_invariant_witness :
  let s := run (fresh_pool 2)
               [OpNewPage; OpNewPage; OpUnpinPage 0 true; OpFetchPage 0;
                OpUnpinPage 0 false; OpNewPage; OpDeletePage 1] in
  (length (free_list_ s) + size (page_table_ s))%nat = pool_size_ s.
Proof.
  apply (capacity_invariant
    (run (fresh_pool 2)
         [OpNewPage; OpNewPage; OpUnpinPage 0 true; OpFetchPage 0;
          OpUnpinPage 0 false; OpNewPage; OpDeletePage 1])).
  apply reachable_no_clash_run.
  - eapply reachable_no_clash_new. apply (fresh_pool_new 2).
  - vm_compute. repeat split; discriminate.
Defined.

(** Where the keys of the page table come from. *)
Lemma page_table_step s o q g :
  page_table_ (step s o) !! q = Some g →
  is_Some (page_table_ s !! q) ∨
  (o = OpNewPage ∧ q = next_page_id_ s ∧
   next_page_id_ (step s o) =
     to_int32 (next_page_id_ s + num_instances_ s)) ∨
  o = OpFetchPage q.
Proof.
  destruct o as [|p|p d|p|p|].
  - rewrite step_New. unfold NewPgImp. case_decide; [by left; eauto|].
    destruct (AllocatePage s) as [[id s1]|] eqn:EA; [|by left; eauto].
    apply AllocatePage_Some in EA as (-> & _ & ->).
    simpl. destruct (last (free_list_ s)) as [f|]; simpl.
    + rewrite lookup_insert. case_decide as Hq; [right; left; by subst|].
      left. eauto.
    + destruct (Victim (replacer_ s)) as [[f|] r]; [|by left; eauto].
      destruct (is_dirty_ (pages_ s !!! f)); simpl;
        (rewrite lookup_insert; case_decide as Hq;
         [right; left; by subst|]);
        rewrite lookup_delete; case_decide; try done; left; eauto.
  - rewrite step_Fetch. unfold FetchPgImp.
    destruct (page_table_ s !! p) as [f|] eqn:E; simpl; [by left; eauto|].
    assert (∀ (X : Prop) old f,
      <[p := f]> (delete old (page_table_ s)) !! q = Some g →
      is_Some (page_table_ s !! q) ∨ X ∨
      OpFetchPage p = OpFetchPage q) as HI.
    { intros X old f. rewrite lookup_insert. case_decide as Hq.
      - right; right. by subst.
      - rewrite lookup_delete. case_decide; [done|]. left. eauto. }
    destruct (last (free_list_ s)) as [f|]; simpl; [apply HI|].
    destruct (Victim (replacer_ s)) as [[f|] r]; simpl; [apply HI|].
    left. eauto.
  - rewrite step_Unpin. unfold UnpinPgImp.
    destruct (page_table_ s !! p) as [f|]; [case_decide|]; left; eauto.
  - rewrite step_Flush. unfold FlushPgImp.
    destruct (page_table_ s !! p) as [f|];
      [case_decide; [|destruct (is_dirty_ _)]|]; left; eauto.
  - rewrite step_Delete. unfold DeletePgImp, DeallocatePage.
    destruct (page_table_ s !! p) as [f|]; [case_decide|]; simpl;
      try (left; by eauto).
    rewrite lookup_delete. case_decide; [done|]. left. eauto.
  - unfold step, exec. simpl.
    destruct (FlushAll_fold_frame (seq 0 (pool_size_ s)) s)
      as (_ & _ & Hpt & _).
    unfold FlushAllPgsImp. rewrite Hpt. left. eauto.
Qed.

(** The counter and the number of instances after a call. *)
Lemma step_counter s o :
  num_instances_ (step s o) = num_instances_ s ∧
  instance_index_ (step s o) = instance_index_ s ∧
  (next_page_id_ (step s o) = next_page_id_ s ∨
   (o = OpNewPage ∧
    next_page_id_ (step s o) =
      to_int32 (next_page_id_ s + num_instances_ s))).
Proof.
  unfold step. destruct (exec s o) as [[r s']|] eqn:E;
    [|by split; [|split; [|left]]].
  destruct (exec_counter _ _ _ _ E)
    as (HN & Hi & [(f & -> & _ & Hn)|[_ Hn]]).
  - split; [done|]. split; [done|]. right. split; [|done].
    destruct o as [|p|p d|p|p|]; simpl in E; try done.
    + by destruct (FetchPgImp s p).
    + by destruct (UnpinPgImp s p d).
    + by destruct (FlushPgImp s p).
    + by destruct (DeletePgImp s p).
  - split; [done|]. split; [done|]. by left.
Qed.

(** The allocator of a reachable pool: the number of instances and the
    index are the [uint32_t] values the constructor asserted, and the
    counter is a value of [page_id_t]. *)
Lemma reachable_allocator s :
  reachable s →
  is_uint32 (num_instances_ s) ∧
  0 ≤ instance_index_ s < num_instances_ s ∧
  -2147483648 ≤ next_page_id_ s ≤ MAX_PAGE_ID.
Proof.
  induction 1 as [pool_size n i d s Hnew|s o Hs IH].
  - revert Hnew. unfold new_BufferPoolManagerInstance.
    case_decide as HU; [|done]. case_decide as HN; [|done].
    destruct HU as [HUN HUi]. unfold is_uint32 in *.
    intros [= <-]. simpl. split; [done|]. split; [lia|].
    apply to_int32_range.
  - destruct (step_counter s o) as (-> & -> & Hc).
    destruct IH as (? & ? & ?). split; [done|]. split; [done|].
    destruct Hc as [->|[_ ->]]; [done|]. apply to_int32_range.
Qed.

(** When [FetchPage] only asks for identifiers below the counter and the
    counter does not wrap around, every resident identifier is below the
    counter, so [NewPage] never hands out a resident identifier and no call
    clashes. *)
Lemma reachable_known_no_clash s :
  reachable_known s →
  reachable_no_clash s ∧ 0 < num_instances_ s ∧
  ∀ q g, page_table_ s !! q = Some g → q < next_page_id_ s.
Proof.
  induction 1 as [pool_size n i d s Hnew|s o Hs (IH & HN & Hkeys) Ho].
  - split; [by econstructor|]. revert Hnew.
    unfold new_BufferPoolManagerInstance. do 2 (case_decide; [|done]).
    intros [= <-]. simpl. split; [lia|]. intros q g.
    by rewrite lookup_empty.
  - assert (no_id_clash s o) as Hok.
    { destruct o as [|p|p d|p|p|]; simpl in *; try done.
      - split; [|unfold INVALID_PAGE_ID; lia].
        destruct (page_table_ s !! next_page_id_ s) as [g|] eqn:E; [|done].
        apply Hkeys in E. lia.
      - unfold INVALID_PAGE_ID. lia. }
    split; [by constructor|].
    destruct (step_counter s o) as (HN' & _ & Hc). split; [by rewrite HN'|].
    assert (next_page_id_ s ≤ next_page_id_ (step s o)) as Hmono.
    { destruct Hc as [->|[-> ->]]; [lia|]. simpl in Ho.
      rewrite to_int32_small; unfold MAX_PAGE_ID in *; lia. }
    intros q g Hq.
    destruct (page_table_step _ _ _ _ Hq) as [[g' Hg']|[(-> & -> & Hn)| ->]].
    + apply Hkeys in Hg'. lia.
    + simpl in Ho. rewrite Hn.
      rewrite to_int32_small; unfold MAX_PAGE_ID in *; lia.
    + simpl in Ho. lia.
Qed.

(** The capacity invariant for pools in which [FetchPage] only asks for
    identifiers below the allocator's counter and the counter does not wrap
    around. *)
Lemma capacity_invariant_known_ids (s : BPM) :
  reachable_known s →
  (length (free_list_ s) + size (page_table_ s))%nat = pool_size_ s.
Proof.
  intros Hs. by apply cap_count, reachable_no_clash_inv,
    reachable_known_no_clash.
Qed.

(** The sentinel is among the identifiers the allocator can hand out: with
    [N = 2^32 - 1] and [i = 0] the second identifier is [N] converted to
    [page_id_t], which is [INVALID_PAGE_ID]; a frame taken from the free
    list afterwards erases its entry, and the count is one short. *)
Lemma sentinel_handed_out :
  let s0 := mkBPM 3 4294967295 0 0 (replicate 3 empty_Page)
                  (new_LRUReplacer 3) (seq 0 3) ∅ empty_disk in
  let s := run s0 [OpNewPage; OpNewPage; OpFetchPage 7] in
  new_BufferPoolManagerInstance 3 4294967295 0 empty_disk = Some s0 ∧
  new_ids (results s0 [OpNewPage; OpNewPage]) = [0; INVALID_PAGE_ID] ∧
  (length (free_list_ s) + size (page_table_ s))%nat ≠ pool_size_ s.
Proof. vm_compute. repeat split. discriminate. Qed.

(** C2 as stated fails: a pool of two frames, [FetchPage 0] and then
    [NewPage], which hands out the identifier 0 again.  Both frames are in
    use, the free list is empty, and the page table has one entry. *)
Lemma capacity_invariant_counterexample :
  let s := run (fresh_pool 2) [OpFetchPage 0; OpNewPage] in
  reachable s ∧
  results (fresh_pool 2) [OpFetchPage 0; OpNewPage] =
    [RPage (Some 1%nat); RNewPage (Some 0%nat) 0] ∧
  pool_size_ s = 2%nat ∧ free_list_ s = [] ∧
  map_to_list (page_table_ s) = [(0, 0%nat)] ∧
  (length (free_list_ s) + size (page_table_ s))%nat ≠ pool_size_ s.
Proof.
  split; [apply reachable_fresh|]. vm_compute. repeat split. discriminate.
Qed.

(** * Deleting a page *)

(** C3, as amended.  In a reachable state, [DeletePgImp] of a resident
    page whose frame [f] has pin count zero returns true; the frame keeps
    its buffer and pin count, gets the sentinel as identifier and a clear
    dirty flag; no other frame changes; the entry of the page is erased
    from the page table; [f] is pushed on the front of the free list.
    Frames are acquired from the back of the free list: the next
    [NewPgImp], and the next [FetchPgImp] of a page that is not resident,
    take the frame at the back of the old free list, and take [f] only
    when the old free list was empty ([NewPgImp] when its call of
    [AllocatePage] does not abort). *)
Theorem DeletePgImp_spec (s : BPM) (p q : Z) (f : nat) (out : Z) :
  reachable s →
  page_table_ s !! p = Some f →
  pin_count_ (pages_ s !!! f) = 0 →
  let s' := (DeletePgImp s p).2 in
  let pg := pages_ s !!! f in
  (DeletePgImp s p).1 = true ∧
  pages_ s' !!! f = mkPage (data_ pg) INVALID_PAGE_ID (pin_count_ pg) false ∧
  (∀ g, g ≠ f → pages_ s' !!! g = pages_ s !!! g) ∧
  page_table_ s' = delete p (page_table_ s) ∧
  page_table_ s' !! p = None ∧
  free_list_ s' = f :: free_list_ s ∧
  (ValidatePageId s' (next_page_id_ s') →
   ∃ new, NewPgImp s' out = Some new ∧
          new.1.1 = Some (default f (last (free_list_ s)))) ∧
  (page_table_ s' !! q = None →
   (FetchPgImp s' q).1 = Some (default f (last (free_list_ s)))) ∧
  (free_list_ s ≠ [] → default f (last (free_list_ s)) ≠ f).
Proof.
  intros Hs Hp Hpin. pose proof (reachable_wf _ Hs) as Hwf.
  destruct (wf_table _ Hwf _ _ Hp) as [Hf Hid].
  assert (last (f :: free_list_ s) = Some (default f (last (free_list_ s))))
    as Hlast.
  { rewrite last_cons. by destruct (last (free_list_ s)). }
  unfold DeletePgImp, DeallocatePage. rewrite Hp. case_decide as Hc; [done|]. simpl.
  split; [done|]. split.
  { rewrite list_lookup_total_insert_eq; [done|].
    by rewrite (wf_pages_len _ Hwf). }
  split; [by intros g Hg; rewrite list_lookup_total_insert_ne|].
  split; [done|]. split; [apply lookup_delete_eq|]. split; [done|].
  split; [|split].
  - intros HV. unfold NewPgImp. case_decide as Hc2; [by destruct Hc2|].
    rewrite AllocatePage_valid by done.
    simpl. rewrite Hlast. by eexists.
  - intros Hq. unfold FetchPgImp. simpl. rewrite Hq. simpl.
    by rewrite Hlast.
  - intros Hne Heq. destruct (last (free_list_ s)) as [g|] eqn:El.
    + simpl in Heq. subst g. apply last_Some_elem_of in El.
      by apply (wf_free_table _ Hwf f p).
    + by apply last_None in El.
Qed.

Lemma DeletePgImp_spec_witness :
  let s := run (fresh_pool 2) [OpNewPage; OpUnpinPage 0 false] in
  let s' := (DeletePgImp s 0).2 in
  let pg := pages_ s !!! 1%nat in
  ValidatePageId s' (next_page_id_ s') ∧
  (DeletePgImp s 0).1 = true ∧
  pages_ s' !!! 1%nat =
    mkPage (data_ pg) INVALID_PAGE_ID (pin_count_ pg) false ∧
  (∀ g, g ≠ 1%nat → pages_ s' !!! g = pages_ s !!! g) ∧
  page_table_ s' = delete 0 (page_table_ s) ∧
  page_table_ s' !! 0 = None ∧
  free_list_ s' = 1%nat :: free_list_ s ∧
  (ValidatePageId s' (next_page_id_ s') →
   ∃ new, NewPgImp s' 7 = Some new ∧
          new.1.1 = Some (default 1%nat (last (free_list_ s)))) ∧
  (page_table_ s' !! 9 = None →
   (FetchPgImp s' 9).1 = Some (default 1%nat (last (free_list_ s)))) ∧
  (free_list_ s ≠ [] → default 1%nat (last (free_list_ s)) ≠ 1%nat).
Proof.
  split; [vm_compute; reflexivity|].
  apply (DeletePgImp_spec
           (run (fresh_pool 2) [OpNewPage; OpUnpinPage 0 false]) 0 9 1 7).
  - apply reachable_fresh.
  - vm_compute. reflexivity.
  - vm_compute. reflexivity.
Defined.

(** C3 as stated fails: in a pool of two frames page 0 is created in
    frame 1, unpinned and deleted.  The free list is then [1; 0]: the next
    acquisition takes frame 0, not the deleted frame 1; and frame 1 is
    still in the eligibility ordering of the replacer. *)
Lemma DeletePgImp_counterexample :
  let s := run (fresh_pool 2) [OpNewPage; OpUnpinPage 0 false] in
  let s' := (DeletePgImp s 0).2 in
  page_table_ s !! 0 = Some 1%nat ∧
  pin_count_ (pages_ s !!! 1%nat) = 0 ∧
  (DeletePgImp s 0).1 = true ∧
  free_list_ s' = [1%nat; 0%nat] ∧
  (λ r, r.1.1) <$> NewPgImp s' INVALID_PAGE_ID = Some (Some 0%nat) ∧
  (FetchPgImp s' 9).1 = Some 0%nat ∧
  pin_lists_ (replacer_ s') = [1%nat] ∧
  pin_map_table_ (replacer_ s') !! 1%nat = Some (it_node 1%nat).
Proof. vm_compute. repeat split. Qed.

(** * Eviction of a pinned frame *)

Lemma pin_count_insert_same (ps : list Page) f g pg :
  pin_count_ pg = pin_count_ (ps !!! f) →
  pin_count_ (<[f := pg]> ps !!! g) = pin_count_ (ps !!! g).
Proof.
  intros E. destruct (decide (f < length ps)%nat) as [Hlt|Hge].
  - destruct (decide (f = g)) as [<-|Hne].
    + by rewrite list_lookup_total_insert_eq.
    + by rewrite list_lookup_total_insert_ne.
  - by rewrite list_insert_ge by lia.
Qed.

Lemma pin_inv_new pool_size n i d s :
  new_BufferPoolManagerInstance pool_size n i d = Some s → pin_inv s.
Proof.
  intros Hnew. split; [by eapply bpm_wf_new|..]; revert Hnew;
    unfold new_BufferPoolManagerInstance; do 2 (case_decide; [|done]);
    intros [= <-]; simpl; try (by intros f ?%elem_of_nil).
  intros f Hin%elem_of_seq. by rewrite lookup_total_replicate_2 by lia.
Qed.

(** A frame that is neither in the new eligibility ordering nor in the new
    free list is overwritten, and the ordering and the free list do not
    grow. *)
Lemma pin_inv_overwrite s s' f pg :
  pin_inv s → bpm_wf s' →
  pages_ s' = <[f := pg]> (pages_ s) →
  f ∉ pin_lists_ (replacer_ s') →
  f ∉ free_list_ s' →
  (∀ g, g ∈ pin_lists_ (replacer_ s') → g ∈ pin_lists_ (replacer_ s)) →
  (∀ g, g ∈ free_list_ s' → g ∈ free_list_ s) →
  pin_inv s'.
Proof.
  intros [Hwf Hz Hnf Hfz] Hwf' Hpages Hf Hf' Hsub Hfl. split; [done|..].
  - intros g Hg. rewrite Hpages, list_lookup_total_insert_ne.
    + by apply Hz, Hsub.
    + by intros ->.
  - intros g Hg Hin. by apply (Hnf g); [apply Hsub|apply Hfl].
  - intros g Hg. rewrite Hpages, list_lookup_total_insert_ne.
    + by apply Hfz, Hfl.
    + by intros ->.
Qed.

Lemma pin_inv_New s out r :
  pin_inv s → NewPgImp s out = Some r → pin_inv r.2.
Proof.
  intros Hinv Hr. pose proof (pin_wf _ Hinv) as Hwf.
  pose proof (bpm_wf_New s out r Hwf Hr) as Hwf'. revert Hr Hwf'.
  unfold NewPgImp. case_decide as Hne; [by intros [= <-]|].
  destruct (AllocatePage s) as [[id s1]|] eqn:EA; [|done].
  apply AllocatePage_Some in EA as (-> & _ & ->). intros [= <-]. simpl.
  destruct (last (free_list_ s)) as [f|] eqn:El; simpl.
  - destruct (last_free _ _ (wf_free_nodup _ Hwf) El)
      as (_ & _ & Hfnin & Hfsub & _).
    intros Hwf'. eapply (pin_inv_overwrite s _ f); simpl; try done.
    + by apply Pin_not_listed, wf_lru.
    + intros g. apply Pin_sub.
  - apply last_None in El.
    destruct (Victim (replacer_ s)) as [[f|] r] eqn:EV.
    + destruct (wf_Victim_Some _ _ _ (wf_lru _ Hwf) EV)
        as (Hr & Hin & Hnin & Hsub & Hcap).
      destruct (is_dirty_ (pages_ s !!! f)) eqn:Ed; simpl;
        rewrite ?list_insert_insert_eq; intros Hwf';
        (eapply (pin_inv_overwrite s _ f); simpl; try done;
         [by apply Pin_not_listed
         | rewrite El; by intros ?%elem_of_nil
         | intros g Hg%Pin_sub; by apply Hsub]).
    + exfalso. apply Hne.
      apply Victim_None in EV as [EV _]. unfold Size. by rewrite EV.
Qed.

Lemma pin_inv_Fetch s p : pin_inv s → pin_inv (FetchPgImp s p).2.
Proof.
  intros Hinv. pose proof (pin_wf _ Hinv) as Hwf.
  pose proof (bpm_wf_Fetch s p Hwf) as Hwf'. revert Hwf'.
  unfold FetchPgImp. destruct (page_table_ s !! p) as [f|] eqn:E; simpl.
  { intros Hwf'. eapply (pin_inv_overwrite s _ f); simpl; try done.
    - by apply Pin_not_listed, wf_lru.
    - intros Hin. by apply (wf_free_table _ Hwf f p).
    - intros g. apply Pin_sub. }
  destruct (last (free_list_ s)) as [f|] eqn:El; simpl.
  - destruct (last_free _ _ (wf_free_nodup _ Hwf) El)
      as (_ & _ & Hfnin & Hfsub & _).
    intros Hwf'. eapply (pin_inv_overwrite s _ f); simpl; try done.
    intros Hin. apply (pin_not_free _ Hinv f Hin).
    by apply last_Some_elem_of.
  - apply last_None in El.
    destruct (Victim (replacer_ s)) as [[f|] r] eqn:EV; [|done].
    destruct (wf_Victim_Some _ _ _ (wf_lru _ Hwf) EV)
      as (Hr & Hin & Hnin & Hsub & Hcap).
    simpl. intros Hwf'. eapply (pin_inv_overwrite s _ f); simpl; try done.
    rewrite El. by intros ?%elem_of_nil.
Qed.

Lemma pin_inv_Unpin s p b : pin_inv s → pin_inv (UnpinPgImp s p b).2.
Proof.
  intros Hinv. pose proof (pin_wf _ Hinv) as Hwf.
  pose proof (bpm_wf_Unpin s p b Hwf) as Hwf'. revert Hwf'.
  unfold UnpinPgImp. destruct (page_table_ s !! p) as [f|] eqn:E; [|done].
  case_decide as Hpin; [done|]. simpl. intros Hwf'.
  destruct (wf_table _ Hwf _ _ E) as [Hf _].
  assert (f < length (pages_ s))%nat as Hlen
    by (by rewrite (wf_pages_len _ Hwf)).
  split; [done|..]; simpl.
  - intros g. case_decide as Hz.
    + intros [->|Hg]%Unpin_sub.
      * by rewrite list_lookup_total_insert_eq.
      * rewrite list_lookup_total_insert_ne; [by apply pin_zero|].
        intros ->. apply (pin_zero _ Hinv) in Hg. lia.
    + intros Hg. rewrite list_lookup_total_insert_ne; [by apply pin_zero|].
      intros ->. apply (pin_zero _ Hinv) in Hg. lia.
  - intros g. case_decide as Hz; [|by apply pin_not_free].
    intros [->|Hg]%Unpin_sub; [|by apply pin_not_free].
    intros Hin. by apply (wf_free_table _ Hwf f p).
  - intros g Hg. rewrite list_lookup_total_insert_ne;
      [by apply pin_free_zero|].
    intros ->. by apply (wf_free_table _ Hwf g p).
Qed.

(** The dirty flag of a frame is cleared. *)
Lemma pin_inv_clean s s' f :
  pin_inv s → bpm_wf s' →
  pages_ s' = <[f := set_is_dirty (pages_ s !!! f) false]> (pages_ s) →
  replacer_ s' = replacer_ s → free_list_ s' = free_list_ s →
  pin_inv s'.
Proof.
  intros [Hwf Hz Hnf Hfz] Hwf' Hpages Hr Hfl.
  split; [done|..]; rewrite ?Hr, ?Hfl, ?Hpages; [| done |].
  - intros g Hg. rewrite pin_count_insert_same by done. by apply Hz.
  - intros g Hg. rewrite pin_count_insert_same by done. by apply Hfz.
Qed.

Lemma pin_inv_Flush s p : pin_inv s → pin_inv (FlushPgImp s p).2.
Proof.
  intros Hinv. pose proof (bpm_wf_Flush s p (pin_wf _ Hinv)) as Hwf'.
  revert Hwf'. unfold FlushPgImp.
  destruct (page_table_ s !! p) as [f|] eqn:E; [|done].
  case_decide; [done|]. destruct (is_dirty_ _); [|done]. simpl.
  intros Hwf'. by eapply (pin_inv_clean s _ f).
Qed.

Lemma pin_inv_FlushAll s : pin_inv s → pin_inv (FlushAllPgsImp s).
Proof.
  unfold FlushAllPgsImp. generalize (seq 0 (pool_size_ s)). intros l.
  revert s. induction l as [|i l IH]; intros s Hinv; [done|].
  simpl. apply IH.
  pose proof (bpm_wf_FlushAll_body s i (pin_wf _ Hinv)) as Hwf'.
  revert Hwf'. unfold FlushAll_body. destruct (is_dirty_ _); [|done].
  intros Hwf'. by eapply (pin_inv_clean s _ i).
Qed.

Lemma reachable_no_delete_inv s : reachable_no_delete s → pin_inv s.
Proof.
  induction 1 as [pool_size n i d s Hnew|s o Hs IH Ho].
  - by eapply pin_inv_new.
  - destruct o as [|p|p d|p|p|]; simpl in Ho.
    + apply step_New_case; [done|]. intros r Hr. by eapply pin_inv_New.
    + rewrite step_Fetch. by apply pin_inv_Fetch.
    + rewrite step_Unpin. by apply pin_inv_Unpin.
    + rewrite step_Flush. by apply pin_inv_Flush.
    + done.
    + by apply pin_inv_FlushAll.
Qed.

(** X22.  As long as [DeletePage] is never called, the property of C1
    holds: the frame [Victim] returns has pin count zero, and when every
    frame of the pool is pinned [NewPgImp] and a missing [FetchPgImp] fail
    and change nothing. *)
Lemma no_eviction_under_pin_without_delete (s : BPM) :
  reachable_no_delete s →
  (∀ f, (Victim (replacer_ s)).1 = Some f →
        pin_count_ (pages_ s !!! f) = 0) ∧
  ((∀ f, (f < pool_size_ s)%nat → 0 < pin_count_ (pages_ s !!! f)) →
   (∀ out, NewPgImp s out = Some (None, out, s)) ∧
   (∀ p, page_table_ s !! p = None → FetchPgImp s p = (None, s))).
Proof.
  intros Hs. pose proof (reachable_no_delete_inv _ Hs) as [Hwf Hz Hnf Hfz].
  split.
  - intros f HV. apply Hz.
    destruct (Victim (replacer_ s)) as [v r] eqn:EV. simpl in HV. subst v.
    by destruct (wf_Victim_Some _ _ _ (wf_lru _ Hwf) EV) as (_ & ? & _).
  - intros Hpinned.
    assert (free_list_ s = []) as Hfl.
    { destruct (free_list_ s) as [|f fl] eqn:E; [done|].
      assert (f ∈ free_list_ s) as Hin by (rewrite E; by left).
      pose proof (wf_free_lt _ Hwf _ Hin) as Hlt.
      specialize (Hpinned _ Hlt).
      assert (pin_count_ (pages_ s !!! f) = 0) by (apply Hfz; by left).
      lia. }
    assert (pin_lists_ (replacer_ s) = []) as Hl.
    { destruct (pin_lists_ (replacer_ s)) as [|f l] eqn:E; [done|].
      assert (f ∈ pin_lists_ (replacer_ s)) as Hin by (rewrite E; by left).
      pose proof (wf_lru_lt _ Hwf _ Hin) as Hlt.
      specialize (Hpinned _ Hlt).
      assert (pin_count_ (pages_ s !!! f) = 0) by (apply Hz; by left).
      lia. }
    split.
    + intros out. unfold NewPgImp. rewrite decide_True; [done|].
      unfold Size. by rewrite Hl.
    + intros p Hp. unfold FetchPgImp, Victim. by rewrite Hp, Hfl, Hl.
Qed.

(** C1 fails on the code.  After [pin_then_evict] page 0 is resident in
    frame 0 with pin count 1 and was never unpinned since its fetch, the
    free list is empty, and frame 0 is still in the eligibility ordering.
    The next [NewPgImp] does not fail: [Victim] returns frame 0, the frame
    is handed to page 2 and page 0 leaves the page table while its holder
    still has it pinned. *)
Lemma pinned_frame_evicted :
  let s := run (fresh_pool 1) pin_then_evict in
  results (fresh_pool 1) pin_then_evict =
    [RNewPage (Some 0%nat) 0; RBool true; RNewPage (Some 0%nat) 1;
     RBool true; RBool true; RPage (Some 0%nat)] ∧
  page_table_ s !! 0 = Some 0%nat ∧
  pin_count_ (pages_ s !!! 0%nat) = 1 ∧
  free_list_ s = [] ∧
  (Victim (replacer_ s)).1 = Some 0%nat ∧
  match NewPgImp s INVALID_PAGE_ID with
  | Some new =>
      new.1 = (Some 0%nat, 2) ∧
      page_table_ new.2 !! 0 = None ∧
      page_id_ (pages_ new.2 !!! 0%nat) = 2
  | None => False
  end.
Proof. vm_compute. repeat split. Qed.

(** * Fetching a page that is not resident *)

(** X23.  What the miss path of [FetchPgImp] does in a reachable state
    when it acquires a frame [f]: the [ReadPage] call is the last disk
    call, the frame holds what the disk has for the page, the requested
    identifier, pin count 1 and a clear dirty flag, the page table maps the
    page to [f], and no other frame changes.  The replacer is not called: it is
    the one [Victim] left when the frame came from it, and it is unchanged
    when the frame came from the free list. *)
Lemma FetchPgImp_miss_spec (s : BPM) (p : Z) (f : nat) :
  reachable s →
  page_table_ s !! p = None →
  (FetchPgImp s p).1 = Some f →
  let s' := (FetchPgImp s p).2 in
  (∃ buf, pages_ s' !!! f = mkPage buf p 1 false ∧
          buf = default zeroed (store (disk_manager_ s') !! p)) ∧
  last (calls (disk_manager_ s')) = Some (DiskRead p) ∧
  page_table_ s' !! p = Some f ∧
  (∀ g, g ≠ f → pages_ s' !!! g = pages_ s !!! g) ∧
  (free_list_ s ≠ [] → replacer_ s' = replacer_ s) ∧
  (free_list_ s = [] → replacer_ s' = (Victim (replacer_ s)).2 ∧
                       f ∉ pin_lists_ (replacer_ s')).
Proof.
  intros Hs Hp. pose proof (reachable_wf _ Hs) as Hwf.
  unfold FetchPgImp. rewrite Hp.
  destruct (last (free_list_ s)) as [g|] eqn:El; simpl.
  - intros [= ->].
    assert (f < length (pages_ s))%nat as Hlen.
    { rewrite (wf_pages_len _ Hwf). apply wf_free_lt; [done|].
      by apply last_Some_elem_of. }
    split; [eexists; split;
            [by rewrite list_lookup_total_insert_eq|]|].
    { by destruct (is_dirty_ _). }
    split; [by rewrite last_snoc|]. split; [apply lookup_insert_eq|].
    split; [by intros h Hh; rewrite list_lookup_total_insert_ne|].
    split; [done|]. intros Hnil. by rewrite Hnil in El.
  - apply last_None in El.
    destruct (Victim (replacer_ s)) as [[g|] r] eqn:EV; [|done]. simpl.
    intros [= ->].
    destruct (wf_Victim_Some _ _ _ (wf_lru _ Hwf) EV)
      as (Hr & Hin & Hnin & Hsub & Hcap).
    assert (f < length (pages_ s))%nat as Hlen.
    { rewrite (wf_pages_len _ Hwf). by apply wf_lru_lt. }
    split; [eexists; split;
            [by rewrite list_lookup_total_insert_eq|]|].
    { by destruct (is_dirty_ _). }
    split; [by rewrite last_snoc|]. split; [apply lookup_insert_eq|].
    split; [by intros h Hh; rewrite list_lookup_total_insert_ne|].
    split; [done|]. done.
Qed.

(** C4 fails on the code in its last part.  In a pool of one frame, after
    the first five calls of [pin_then_evict], frame 0 is in the free list
    and still in the eligibility ordering, and page 0 is not resident.
    [FetchPgImp] of page 0 takes frame 0 from the free list, pins it, and
    leaves it in the eligibility ordering, where [Victim] finds it. *)
Lemma FetchPgImp_miss_leaves_frame_eligible :
  let s := run (fresh_pool 1) (take 5 pin_then_evict) in
  let s' := (FetchPgImp s 0).2 in
  page_table_ s !! 0 = None ∧
  free_list_ s = [0%nat] ∧
  (FetchPgImp s 0).1 = Some 0%nat ∧
  page_id_ (pages_ s' !!! 0%nat) = 0 ∧
  pin_count_ (pages_ s' !!! 0%nat) = 1 ∧
  is_dirty_ (pages_ s' !!! 0%nat) = false ∧
  page_table_ s' !! 0 = Some 0%nat ∧
  last (calls (disk_manager_ s')) = Some (DiskRead 0) ∧
  pin_lists_ (replacer_ s') = [0%nat] ∧
  (Victim (replacer_ s')).1 = Some 0%nat.
Proof. vm_compute. repeat split. Qed.

(** * Further properties of the replacer *)

Lemma length_list_erase f (l : list nat) :
  (length (list_erase f l) ≤ length l)%nat.
Proof.
  induction l as [|x l IH]; simpl; [done|].
  destruct (decide (x = f)); simpl; lia.
Qed.

Lemma filter_ne_id f (l : list nat) :
  f ∉ l → filter (λ g, g ≠ f) l = l.
Proof.
  induction l as [|x l IH]; [done|].
  intros [Hne Hnin]%not_elem_of_cons.
  rewrite filter_cons_True by done. by rewrite IH.
Qed.

Lemma list_erase_filter f (l : list nat) :
  NoDup l → list_erase f l = filter (λ g, g ≠ f) l.
Proof.
  induction l as [|x l IH]; [done|].
  intros [Hx Hnd]%NoDup_cons. simpl.
  destruct (decide (x = f)) as [->|Hne].
  - rewrite filter_cons_False by (by intros ?). by rewrite filter_ne_id.
  - rewrite filter_cons_True by done. by rewrite IH.
Qed.

Lemma length_filter_ne f (l : list nat) :
  NoDup l → f ∈ l → S (length (filter (λ g, g ≠ f) l)) = length l.
Proof.
  induction l as [|x l IH]; [by intros _ ?%elem_of_nil|].
  intros [Hx Hnd]%NoDup_cons Hin.
  destruct (decide (x = f)) as [->|Hne].
  - rewrite filter_cons_False by (by intros ?). by rewrite filter_ne_id.
  - rewrite filter_cons_True by done. simpl. f_equal. apply IH; [done|].
    apply elem_of_cons in Hin as [->|Hin]; done.
Qed.

Lemma Pin_list r f :
  Replacer.wf r →
  pin_lists_ (Pin r f) = filter (λ g, g ≠ f) (pin_lists_ r).
Proof.
  intros Hwf. unfold Pin.
  destruct (pin_map_table_ r !! f) as [[g|]|] eqn:E; simpl.
  - destruct (Replacer.wf_node _ Hwf _ _ E) as [-> _].
    by apply list_erase_filter, Replacer.wf_nodup.
  - rewrite filter_ne_id; [done|]. intros Hin.
    apply (Replacer.wf_listed _ Hwf) in Hin. congruence.
  - rewrite filter_ne_id; [done|]. intros Hin.
    apply (Replacer.wf_listed _ Hwf) in Hin. congruence.
Qed.

Lemma Pin_unlisted r f : Replacer.wf r → f ∉ pin_lists_ r → Pin r f = r.
Proof.
  intros Hwf Hnin. unfold Pin.
  destruct (pin_map_table_ r !! f) as [[g|]|] eqn:E; try done.
  by destruct (Replacer.wf_node _ Hwf _ _ E) as [_ ?].
Qed.

Lemma reachable_lru_cap r :
  Replacer.reachable r → (length (pin_lists_ r) ≤ num_pages_ r)%nat.
Proof.
  induction 1 as [n|r f Hr IH|r f Hr IH|r Hr IH]; simpl.
  - lia.
  - rewrite Pin_num_pages. unfold Pin.
    destruct (pin_map_table_ r !! f) as [[g|]|]; simpl; try done.
    pose proof (length_list_erase g (pin_lists_ r)). lia.
  - unfold Unpin.
    destruct (pin_map_table_ r !! f) as [[g|]|]; try case_decide; simpl;
      lia.
  - unfold Victim. destruct (last (pin_lists_ r)) as [b|] eqn:E; [|done].
    apply last_Some in E as [l E]. simpl.
    rewrite E, removelast_last. rewrite E, length_app in IH. lia.
Qed.

(** X1.  In every state of a replacer that was constructed and then used,
    the eligibility ordering has no duplicates and never holds more than
    [num_pages_] frames, the iterator table holds a node iterator for
    exactly the frames of the ordering, and every iterator stored for a
    frame is either [end()] or the node of that very frame. *)
Theorem replacer_invariants (r : LRUReplacer) :
  Replacer.reachable r →
  NoDup (pin_lists_ r) ∧
  (Size r ≤ num_pages_ r)%nat ∧
  (∀ f, f ∈ pin_lists_ r ↔ pin_map_table_ r !! f = Some (it_node f)) ∧
  (∀ f it, pin_map_table_ r !! f = Some it → it = it_end ∨ it = it_node f).
Proof.
  intros Hr. pose proof (ReplacerFacts.reachable_lru_wf _ Hr) as Hwf.
  split; [by apply Replacer.wf_nodup|].
  split; [by apply reachable_lru_cap|]. split.
  - intros f. split; [by apply Replacer.wf_listed|].
    intros E. by destruct (Replacer.wf_node _ Hwf _ _ E).
  - intros f [g|] E; [right|by left].
    by destruct (Replacer.wf_node _ Hwf _ _ E) as [-> _].
Qed.

Lemma replacer_invariants_witness :
  let r := Pin (Unpin (Unpin (new_LRUReplacer 2) 0%nat) 1%nat) 0%nat in
  NoDup (pin_lists_ r) ∧
  (Size r ≤ num_pages_ r)%nat ∧
  (∀ f, f ∈ pin_lists_ r ↔ pin_map_table_ r !! f = Some (it_node f)) ∧
  (∀ f it, pin_map_table_ r !! f = Some it → it = it_end ∨ it = it_node f).
Proof.
  apply (replacer_invariants
           (Pin (Unpin (Unpin (new_LRUReplacer 2) 0%nat) 1%nat) 0%nat)).
  apply Replacer.reachable_Pin, Replacer.reachable_Unpin,
    Replacer.reachable_Unpin, Replacer.reachable_new.
Defined.

(** X2.  [Pin] and [Unpin] are idempotent in every state: a second [Pin]
    of the same frame, and a second [Unpin] of the same frame, change
    nothing. *)
Theorem Pin_Unpin_idempotent (r : LRUReplacer) (f : nat) :
  Pin (Pin r f) f = Pin r f ∧ Unpin (Unpin r f) f = Unpin r f.
Proof.
  split.
  - destruct (pin_map_table_ r !! f) as [[g|]|] eqn:E.
    + assert (Pin r f = mkLRU (num_pages_ r) (list_erase g (pin_lists_ r))
                (<[f := it_end]> (pin_map_table_ r))) as ->
        by (unfold Pin; by rewrite E).
      unfold Pin. simpl. by rewrite lookup_insert_eq.
    + assert (Pin r f = r) as -> by (unfold Pin; by rewrite E).
      unfold Pin. by rewrite E.
    + assert (Pin r f = r) as -> by (unfold Pin; by rewrite E).
      unfold Pin. by rewrite E.
  - assert (Unpin r f = r ∨
            Unpin r f = mkLRU (num_pages_ r) (f :: pin_lists_ r)
              (<[f := it_node f]> (pin_map_table_ r))) as [E|E].
    { unfold Unpin.
      destruct (pin_map_table_ r !! f) as [[g|]|]; try case_decide; auto. }
    + by rewrite !E.
    + rewrite E. unfold Unpin. simpl. by rewrite lookup_insert_eq.
Qed.

(** X3.  In every state of a used replacer, [Pin] takes exactly the given
    frame out of the eligibility ordering and keeps the order of the
    others; the size drops by one when the frame was eligible, and the
    replacer is unchanged when it was not. *)
Theorem Pin_removes_only (r : LRUReplacer) (f : nat) :
  Replacer.reachable r →
  pin_lists_ (Pin r f) = filter (λ g, g ≠ f) (pin_lists_ r) ∧
  (f ∉ pin_lists_ (Pin r f)) ∧
  (f ∈ pin_lists_ r → S (Size (Pin r f)) = Size r) ∧
  (f ∉ pin_lists_ r → Pin r f = r).
Proof.
  intros Hr. pose proof (ReplacerFacts.reachable_lru_wf _ Hr) as Hwf.
  split; [by apply Pin_list|]. split; [by apply Pin_not_listed|].
  split; [|by apply Pin_unlisted].
  intros Hin. unfold Size. rewrite Pin_list by done.
  apply length_filter_ne; [by apply Replacer.wf_nodup|done].
Qed.

Lemma Pin_removes_only_witness :
  let r := Unpin (Unpin (Unpin (new_LRUReplacer 3) 0%nat) 1%nat) 2%nat in
  pin_lists_ (Pin r 1%nat) = filter (λ g, g ≠ 1%nat) (pin_lists_ r) ∧
  (1%nat ∉ pin_lists_ (Pin r 1%nat)) ∧
  (1%nat ∈ pin_lists_ r → S (Size (Pin r 1%nat)) = Size r) ∧
  (1%nat ∉ pin_lists_ r → Pin r 1%nat = r).
Proof.
  apply (Pin_removes_only
           (Unpin (Unpin (Unpin (new_LRUReplacer 3) 0%nat) 1%nat) 2%nat)
           1%nat).
  apply Replacer.reachable_Unpin, Replacer.reachable_Unpin,
    Replacer.reachable_Unpin, Replacer.reachable_new.
Defined.

Lemma Unpin_sub_cases r f :
  pin_lists_ (Unpin r f) = pin_lists_ r ∨
  pin_lists_ (Unpin r f) = f :: pin_lists_ r.
Proof.
  unfold Unpin.
  destruct (pin_map_table_ r !! f) as [[g|]|]; try case_decide; simpl; auto.
Qed.

(** X4.  In every state of a used replacer: [Unpin] followed by [Pin] of a
    frame that was not eligible leaves the eligibility ordering as it was;
    [Pin] followed by [Unpin] of an eligible frame moves the frame to the
    front of the ordering (it becomes the most recently unpinned) and keeps
    the order of the others. *)
Theorem Unpin_Pin_roundtrip (r : LRUReplacer) (f : nat) :
  Replacer.reachable r →
  (f ∉ pin_lists_ r → pin_lists_ (Pin (Unpin r f) f) = pin_lists_ r) ∧
  (f ∈ pin_lists_ r →
   pin_lists_ (Unpin (Pin r f) f) =
     f :: filter (λ g, g ≠ f) (pin_lists_ r)).
Proof.
  intros Hr. pose proof (ReplacerFacts.reachable_lru_wf _ Hr) as Hwf.
  pose proof (reachable_lru_cap _ Hr) as Hcap. split.
  - intros Hnin. rewrite Pin_list by (by apply ReplacerFacts.wf_Unpin).
    destruct (Unpin_sub_cases r f) as [->| ->].
    + by apply filter_ne_id.
    + rewrite filter_cons_False by (by intros ?). by apply filter_ne_id.
  - intros Hin.
    pose proof (ReplacerFacts.wf_Pin r f Hwf) as Hwf'.
    rewrite ReplacerFacts.Unpin_fresh; simpl.
    + by rewrite Pin_list.
    + done.
    + by apply Pin_not_listed.
    + rewrite Pin_num_pages, Pin_list by done.
      pose proof (length_filter_ne f _ (Replacer.wf_nodup _ Hwf) Hin). lia.
Qed.

Lemma Unpin_Pin_roundtrip_witness :
  let r := Unpin (Unpin (new_LRUReplacer 3) 0%nat) 1%nat in
  (2%nat ∉ pin_lists_ r →
   pin_lists_ (Pin (Unpin r 2%nat) 2%nat) = pin_lists_ r) ∧
  (2%nat ∈ pin_lists_ r →
   pin_lists_ (Unpin (Pin r 2%nat) 2%nat) =
     2%nat :: filter (λ g, g ≠ 2%nat) (pin_lists_ r)).
Proof.
  apply (Unpin_Pin_roundtrip
           (Unpin (Unpin (new_LRUReplacer 3) 0%nat) 1%nat) 2%nat).
  apply Replacer.reachable_Unpin, Replacer.reachable_Unpin,
    Replacer.reachable_new.
Defined.

(** * The two copies of the replacer *)

Lemma copies_agree_new n :
  copies_agree (new_LRUReplacer n) (Counted.new_LRUReplacer n).
Proof. split; simpl; try done; intros f; by rewrite lookup_empty. Qed.

Lemma copies_agree_step r c o :
  Replacer.wf r → copies_agree r c → unpin_fresh r o →
  (lru_exec r o).1 = (counted_exec c o).1 ∧
  copies_agree (lru_exec r o).2 (counted_exec c o).2.
Proof.
  intros Hwf [Hn Hl Ht Hp Hli] Ho. destruct o as [f|f|]; simpl.
  - split; [done|]. unfold Pin, Counted.Pin. rewrite Ht.
    destruct (pin_map_table_ r !! f) as [[g|]|] eqn:E; try by split.
    split; simpl; try congruence.
    + intros h. rewrite lookup_insert. case_decide as Hh.
      * subst h. intros _. rewrite lookup_insert_eq. simpl.
        rewrite (Hli _ _ E). lia.
      * intros Hh'. rewrite lookup_insert_ne by done. by apply Hp.
    + intros h k. rewrite lookup_insert. case_decide as Hh; [done|].
      intros Hh'. rewrite lookup_insert_ne by done. by eapply Hli.
  - split; [done|]. destruct Ho as [Hnin Hroom].
    unfold Unpin, Counted.Unpin. rewrite Ht, Hl, Hn.
    assert (copies_agree
      (mkLRU (num_pages_ r) (f :: pin_lists_ r)
             (<[f := it_node f]> (pin_map_table_ r)))
      (Counted.mkLRU (num_pages_ r) (f :: pin_lists_ r)
             (<[f := it_node f]> (pin_map_table_ r))
             (<[f := 0]> (Counted.pin_count_ c)))) as Hins.
    { split; simpl; try done.
      - intros h. rewrite lookup_insert. case_decide as Hh; [done|].
        intros Hh'. rewrite lookup_insert_ne by done. by apply Hp.
      - intros h k. rewrite lookup_insert. case_decide as Hh.
        + subst h. intros _. by rewrite lookup_insert_eq.
        + intros Hh'. rewrite lookup_insert_ne by done. by eapply Hli. }
    destruct (pin_map_table_ r !! f) as [[g|]|] eqn:E.
    + by destruct (Replacer.wf_node _ Hwf _ _ E) as [_ ?].
    + rewrite (Hp _ E). simpl. rewrite decide_True by done. exact Hins.
    + rewrite !decide_True by done. exact Hins.
  - unfold Victim, Counted.Victim. rewrite Hl.
    destruct (last (pin_lists_ r)) as [b|]; simpl; [|by split].
    split; [done|]. split; simpl; try congruence.
    + intros h. rewrite lookup_delete. case_decide; [done|]. apply Hp.
    + intros h k. rewrite lookup_delete. case_decide; [done|]. apply Hli.
Qed.

Lemma wf_lru_exec r o : Replacer.wf r → Replacer.wf (lru_exec r o).2.
Proof.
  intros Hwf. destruct o as [f|f|]; simpl.
  - by apply ReplacerFacts.wf_Pin.
  - by apply ReplacerFacts.wf_Unpin.
  - by apply ReplacerFacts.wf_Victim.
Qed.

Lemma copies_agree_run r c ops :
  Replacer.wf r → copies_agree r c → unpins_fresh r ops →
  (lru_run r ops).1 = (counted_run c ops).1 ∧
  copies_agree (lru_run r ops).2 (counted_run c ops).2.
Proof.
  revert r c. induction ops as [|o ops IH]; intros r c Hwf Hag Hok;
    [done|].
  destruct Hok as [Ho Hok]. simpl.
  destruct (copies_agree_step r c o Hwf Hag Ho) as [Hv Hag'].
  pose proof (wf_lru_exec r o Hwf) as Hwf'.
  destruct (lru_exec r o) as [v r1]. destruct (counted_exec c o) as [v' c1].
  simpl in *. subst v'.
  destruct (IH r1 c1 Hwf' Hag' Hok) as [Hvs Hag''].
  destruct (lru_run r1 ops) as [vs r2].
  destruct (counted_run c1 ops) as [vs' c2]. simpl in *. by subst vs'.
Qed.

(** X5.  The two copies of the replacer in the source file agree on every
    sequence of [Pin], [Unpin] and [Victim] calls, started from new
    replacers of the same capacity, in which [Unpin] is only called for a
    frame that is not eligible while the ordering is below its capacity:
    the [Victim] calls return the same frames and the eligibility
    orderings stay equal. *)
Theorem copies_agree_on_fresh_unpins (n : nat) (ops : list lru_op) :
  unpins_fresh (new_LRUReplacer n) ops →
  (lru_run (new_LRUReplacer n) ops).1 =
    (counted_run (Counted.new_LRUReplacer n) ops).1 ∧
  pin_lists_ (lru_run (new_LRUReplacer n) ops).2 =
    Counted.pin_lists_ (counted_run (Counted.new_LRUReplacer n) ops).2.
Proof.
  intros Hok.
  destruct (copies_agree_run _ _ ops (ReplacerFacts.wf_new n)
              (copies_agree_new n) Hok) as [Hv Hag].
  split; [done|]. symmetry. by apply agree_lists.
Qed.

Lemma copies_agree_on_fresh_unpins_witness :
  let ops := [LUnpin 0%nat; LUnpin 1%nat; LPin 0%nat; LUnpin 0%nat;
              LVictim; LVictim; LVictim] in
  (lru_run (new_LRUReplacer 2) ops).1 =
    (counted_run (Counted.new_LRUReplacer 2) ops).1 ∧
  pin_lists_ (lru_run (new_LRUReplacer 2) ops).2 =
    Counted.pin_lists_ (counted_run (Counted.new_LRUReplacer 2) ops).2.
Proof.
  apply (copies_agree_on_fresh_unpins 2
           [LUnpin 0%nat; LUnpin 1%nat; LPin 0%nat; LUnpin 0%nat;
            LVictim; LVictim; LVictim]).
  vm_compute. repeat split; try lia.
  - intros H. by apply elem_of_nil in H.
  - intros H. apply elem_of_cons in H as [?|H]; [lia|].
    by apply elem_of_nil in H.
  - intros H. apply elem_of_cons in H as [?|H]; [lia|].
    by apply elem_of_nil in H.
Defined.

(** * Further properties of the manager *)

(** X6.  In a reachable state, [FlushPgImp] returns false exactly when the
    identifier is the sentinel or the page is not resident, and then the
    pool is unchanged.  When it returns true for a page in frame [f]: a
    clean page leaves the pool unchanged (no disk call); for a dirty page
    the disk receives exactly one [WritePage] with the identifier and the
    buffer of the frame and stores the buffer under the identifier, the
    dirty flag of the frame is cleared, its buffer, identifier and pin
    count stay (a pinned page can be flushed), and nothing else changes. *)
Theorem FlushPgImp_spec (s : BPM) (page_id : Z) :
  reachable s →
  let b := (FlushPgImp s page_id).1 in
  let s' := (FlushPgImp s page_id).2 in
  (b = false ↔
     page_id = INVALID_PAGE_ID ∨ page_table_ s !! page_id = None) ∧
  (b = false → s' = s) ∧
  (∀ f, b = true → page_table_ s !! page_id = Some f →
     let pg := pages_ s !!! f in
     (is_dirty_ pg = false → s' = s) ∧
     (is_dirty_ pg = true →
        calls (disk_manager_ s') =
          calls (disk_manager_ s) ++ [DiskWrite page_id (data_ pg)] ∧
        store (disk_manager_ s') !! page_id = Some (data_ pg) ∧
        pages_ s' !!! f =
          mkPage (data_ pg) (page_id_ pg) (pin_count_ pg) false ∧
        (∀ g, g ≠ f → pages_ s' !!! g = pages_ s !!! g) ∧
        replacer_ s' = replacer_ s ∧ free_list_ s' = free_list_ s ∧
        page_table_ s' = page_table_ s ∧
        next_page_id_ s' = next_page_id_ s)).
Proof.
  intros Hs. pose proof (reachable_wf _ Hs) as Hwf. unfold FlushPgImp.
  destruct (page_table_ s !! page_id) as [f|] eqn:E; simpl.
  2: { split; [|done]. split; [by right|done]. }
  destruct (wf_table _ Hwf _ _ E) as [Hf _].
  case_decide as Hinv; simpl.
  { split; [|done]. split; [by left|done]. }
  destruct (is_dirty_ (pages_ s !!! f)) eqn:Ed; simpl.
  - split; [split; [done|by intros [?|?]]|]. split; [done|].
    intros g _ [= <-]. rewrite Ed. split; [done|]. intros _.
    split; [done|]. split; [apply lookup_insert_eq|].
    split; [by rewrite list_lookup_total_insert_eq
              by (by rewrite (wf_pages_len _ Hwf))|].
    split; [|done]. intros h Hh. by rewrite list_lookup_total_insert_ne.
  - split; [split; [done|by intros [?|?]]|]. split; [done|].
    intros g _ [= <-]. rewrite Ed. by split.
Qed.

Lemma FlushPgImp_spec_witness :
  let s := run (fresh_pool 1) [OpNewPage; OpUnpinPage 0 true] in
  let b := (FlushPgImp s 0).1 in
  let s' := (FlushPgImp s 0).2 in
  (b = false ↔ 0 = INVALID_PAGE_ID ∨ page_table_ s !! 0 = None) ∧
  (b = false → s' = s) ∧
  (∀ f, b = true → page_table_ s !! 0 = Some f →
     let pg := pages_ s !!! f in
     (is_dirty_ pg = false → s' = s) ∧
     (is_dirty_ pg = true →
        calls (disk_manager_ s') =
          calls (disk_manager_ s) ++ [DiskWrite 0 (data_ pg)] ∧
        store (disk_manager_ s') !! 0 = Some (data_ pg) ∧
        pages_ s' !!! f =
          mkPage (data_ pg) (page_id_ pg) (pin_count_ pg) false ∧
        (∀ g, g ≠ f → pages_ s' !!! g = pages_ s !!! g) ∧
        replacer_ s' = replacer_ s ∧ free_list_ s' = free_list_ s ∧
        page_table_ s' = page_table_ s ∧
        next_page_id_ s' = next_page_id_ s)).
Proof.
  apply (FlushPgImp_spec
           (run (fresh_pool 1) [OpNewPage; OpUnpinPage 0 true]) 0).
  apply reachable_fresh.
Defined.

(** X7.  In a reachable state, flushing a page twice is flushing it once:
    the second [FlushPgImp] of the same identifier returns what the first
    returned and changes nothing (no second disk call). *)
Theorem FlushPgImp_idempotent (s : BPM) (page_id : Z) :
  reachable s →
  FlushPgImp (FlushPgImp s page_id).2 page_id =
    ((FlushPgImp s page_id).1, (FlushPgImp s page_id).2).
Proof.
  intros Hs. pose proof (reachable_wf _ Hs) as Hwf.
  destruct (page_table_ s !! page_id) as [f|] eqn:E.
  2: { unfold FlushPgImp. rewrite E. simpl. by rewrite E. }
  destruct (wf_table _ Hwf _ _ E) as [Hf _].
  destruct (decide (page_id = INVALID_PAGE_ID)) as [Hi|Hi].
  { unfold FlushPgImp. rewrite E, decide_True by done. simpl.
    by rewrite E, decide_True by done. }
  destruct (is_dirty_ (pages_ s !!! f)) eqn:Ed.
  - unfold FlushPgImp at 2 3 4. rewrite E, decide_False, Ed by done. simpl.
    unfold FlushPgImp. simpl. rewrite E, decide_False by done.
    rewrite list_lookup_total_insert_eq
      by (by rewrite (wf_pages_len _ Hwf)).
    done.
  - unfold FlushPgImp. rewrite E, decide_False, Ed by done. simpl.
    by rewrite E, decide_False, Ed by done.
Qed.

Lemma FlushPgImp_idempotent_witness :
  let s := run (fresh_pool 1) [OpNewPage; OpUnpinPage 0 true] in
  FlushPgImp (FlushPgImp s 0).2 0 = ((FlushPgImp s 0).1, (FlushPgImp s 0).2).
Proof.
  apply (FlushPgImp_idempotent
           (run (fresh_pool 1) [OpNewPage; OpUnpinPage 0 true]) 0).
  apply reachable_fresh.
Defined.

(** X8.  In a reachable state, [FetchPgImp] of a resident page returns its
    frame without any disk call: the pin count of the frame grows by one,
    its buffer, identifier and dirty flag stay, no other frame changes, the
    frame is taken out of the eligibility ordering and the order of the
    other eligible frames stays, and the free list, the page table and the
    allocator are unchanged. *)
Theorem FetchPgImp_hit_spec (s : BPM) (p : Z) (f : nat) :
  reachable s →
  page_table_ s !! p = Some f →
  let s' := (FetchPgImp s p).2 in
  let pg := pages_ s !!! f in
  (FetchPgImp s p).1 = Some f ∧
  page_id_ pg = p ∧
  pages_ s' !!! f =
    mkPage (data_ pg) p (pin_count_ pg + 1) (is_dirty_ pg) ∧
  1 ≤ pin_count_ (pages_ s' !!! f) ∧
  (∀ g, g ≠ f → pages_ s' !!! g = pages_ s !!! g) ∧
  pin_lists_ (replacer_ s') =
    filter (λ g, g ≠ f) (pin_lists_ (replacer_ s)) ∧
  disk_manager_ s' = disk_manager_ s ∧
  free_list_ s' = free_list_ s ∧
  page_table_ s' = page_table_ s ∧
  next_page_id_ s' = next_page_id_ s.
Proof.
  intros Hs E. pose proof (reachable_wf _ Hs) as Hwf.
  destruct (wf_table _ Hwf _ _ E) as [Hf Hid].
  pose proof (pin_nonneg_lookup _ f (wf_pin_nonneg _ Hwf)) as Hnn.
  unfold FetchPgImp. rewrite E. simpl.
  rewrite list_lookup_total_insert_eq by (by rewrite (wf_pages_len _ Hwf)).
  simpl. split; [done|]. split; [done|].
  split; [unfold set_pin_count; by rewrite Hid|].
  split; [lia|]. split.
  { intros g Hg. by rewrite list_lookup_total_insert_ne. }
  split; [|done]. by apply Pin_list, wf_lru.
Qed.

Lemma FetchPgImp_hit_spec_witness :
  let s := run (fresh_pool 2) [OpNewPage; OpUnpinPage 0 true] in
  let s' := (FetchPgImp s 0).2 in
  let pg := pages_ s !!! 1%nat in
  (FetchPgImp s 0).1 = Some 1%nat ∧
  page_id_ pg = 0 ∧
  pages_ s' !!! 1%nat =
    mkPage (data_ pg) 0 (pin_count_ pg + 1) (is_dirty_ pg) ∧
  1 ≤ pin_count_ (pages_ s' !!! 1%nat) ∧
  (∀ g, g ≠ 1%nat → pages_ s' !!! g = pages_ s !!! g) ∧
  pin_lists_ (replacer_ s') =
    filter (λ g, g ≠ 1%nat) (pin_lists_ (replacer_ s)) ∧
  disk_manager_ s' = disk_manager_ s ∧
  free_list_ s' = free_list_ s ∧
  page_table_ s' = page_table_ s ∧
  next_page_id_ s' = next_page_id_ s.
Proof.
  apply (FetchPgImp_hit_spec
           (run (fresh_pool 2) [OpNewPage; OpUnpinPage 0 true]) 0 1).
  - apply reachable_fresh.
  - vm_compute. reflexivity.
Defined.

(** X9.  In a reachable state, whenever [FetchPgImp] returns a frame, on a
    hit or on a miss, the requested page is resident in that frame
    afterwards: the page table maps the identifier to the frame, the frame
    is a frame of the pool, it holds the requested identifier, and its pin
    count is at least one; after a miss it is exactly one and the frame is
    clean. *)
Theorem FetchPgImp_returns_requested (s : BPM) (p : Z) (f : nat) :
  reachable s →
  (FetchPgImp s p).1 = Some f →
  let s' := (FetchPgImp s p).2 in
  page_table_ s' !! p = Some f ∧
  (f < pool_size_ s')%nat ∧
  page_id_ (pages_ s' !!! f) = p ∧
  1 ≤ pin_count_ (pages_ s' !!! f) ∧
  (page_table_ s !! p = None →
   pin_count_ (pages_ s' !!! f) = 1 ∧ is_dirty_ (pages_ s' !!! f) = false).
Proof.
  intros Hs Hr s'. pose proof (reachable_wf _ Hs) as Hwf.
  assert (bpm_wf s') as Hwf' by (by apply bpm_wf_Fetch).
  assert (page_table_ s' !! p = Some f) as Hp.
  { subst s'. revert Hr. unfold FetchPgImp.
    destruct (page_table_ s !! p) as [g|] eqn:E; simpl.
    - by intros [= <-].
    - destruct (last (free_list_ s)); simpl.
      + intros [= <-]. by rewrite lookup_insert_eq.
      + destruct (Victim (replacer_ s)) as [[g|] r]; [|done]. simpl.
        intros [= <-]. by rewrite lookup_insert_eq. }
  destruct (wf_table _ Hwf' _ _ Hp) as [Hf Hid].
  split; [done|]. split; [done|]. split; [done|].
  assert (f < length (pages_ s))%nat as Hlen.
  { rewrite (wf_pages_len _ Hwf).
    replace (pool_size_ s) with (pool_size_ s'); [done|].
    subst s'. unfold FetchPgImp.
    destruct (page_table_ s !! p); simpl; [done|].
    destruct (last (free_list_ s)); simpl; [done|].
    by destruct (Victim (replacer_ s)) as [[g|] r]. }
  subst s'. revert Hr. unfold FetchPgImp.
  destruct (page_table_ s !! p) as [g|] eqn:E; simpl.
  - intros [= <-]. rewrite list_lookup_total_insert_eq by done. simpl.
    pose proof (pin_nonneg_lookup _ g (wf_pin_nonneg _ Hwf)).
    split; [lia|done].
  - destruct (last (free_list_ s)); simpl.
    + intros [= <-]. by rewrite list_lookup_total_insert_eq.
    + destruct (Victim (replacer_ s)) as [[g|] r]; [|done]. simpl.
      intros [= <-]. by rewrite list_lookup_total_insert_eq.
Qed.

Lemma FetchPgImp_returns_requested_witness :
  let s := run (fresh_pool 2) [OpNewPage; OpUnpinPage 0 true] in
  let s' := (FetchPgImp s 7).2 in
  page_table_ s' !! 7 = Some 0%nat ∧
  (0 < pool_size_ s')%nat ∧
  page_id_ (pages_ s' !!! 0%nat) = 7 ∧
  1 ≤ pin_count_ (pages_ s' !!! 0%nat) ∧
  (page_table_ s !! 7 = None →
   pin_count_ (pages_ s' !!! 0%nat) = 1 ∧
   is_dirty_ (pages_ s' !!! 0%nat) = false).
Proof.
  apply (FetchPgImp_returns_requested
           (run (fresh_pool 2) [OpNewPage; OpUnpinPage 0 true]) 7 0).
  - apply reachable_fresh.
  - vm_compute. reflexivity.
Defined.

(** X10.  In every state, [FetchPgImp] fails exactly when the page is not
    resident, the free list is empty and the eligibility ordering is
    empty; a failed call changes nothing (no disk call, no pin). *)
Theorem FetchPgImp_fails_iff (s : BPM) (p : Z) :
  ((FetchPgImp s p).1 = None ↔
     page_table_ s !! p = None ∧ free_list_ s = [] ∧
     pin_lists_ (replacer_ s) = []) ∧
  ((FetchPgImp s p).1 = None → (FetchPgImp s p).2 = s).
Proof.
  unfold FetchPgImp, Victim.
  destruct (page_table_ s !! p) as [f|] eqn:E; simpl.
  { split; [|done]. split; [done|by intros [? _]]. }
  destruct (last (free_list_ s)) as [f|] eqn:El; simpl.
  { split; [|done]. split; [done|]. intros (_ & Hfl & _).
    by rewrite Hfl in El. }
  apply last_None in El.
  destruct (last (pin_lists_ (replacer_ s))) as [b|] eqn:Eb; simpl.
  { split; [|done]. split; [done|]. intros (_ & _ & Hl).
    by rewrite Hl in Eb. }
  apply last_None in Eb. by split.
Qed.

(** X11.  In every state, [DeletePgImp] returns false exactly when the page
    is resident in a frame whose pin count is not zero, and then the pool
    is unchanged; deleting a page that is not resident returns true and
    changes nothing; and after any [DeletePgImp] that returned true the
    page is not resident, so that deleting it again returns true and
    changes nothing. *)
Theorem DeletePgImp_edges (s : BPM) (p : Z) :
  ((DeletePgImp s p).1 = false ↔
     ∃ f, page_table_ s !! p = Some f ∧ pin_count_ (pages_ s !!! f) ≠ 0) ∧
  ((DeletePgImp s p).1 = false → (DeletePgImp s p).2 = s) ∧
  (page_table_ s !! p = None → DeletePgImp s p = (true, s)) ∧
  ((DeletePgImp s p).1 = true →
     page_table_ (DeletePgImp s p).2 !! p = None ∧
     DeletePgImp (DeletePgImp s p).2 p = (true, (DeletePgImp s p).2)).
Proof.
  assert (∀ s0, page_table_ s0 !! p = None → DeletePgImp s0 p = (true, s0))
    as Hnone.
  { intros s0 E. unfold DeletePgImp, DeallocatePage. by rewrite E. }
  destruct (page_table_ s !! p) as [f|] eqn:E.
  2: { rewrite (Hnone _ E). simpl. repeat split; try done.
       - by intros (f & ? & _).
       - by apply Hnone. }
  destruct (decide (pin_count_ (pages_ s !!! f) ≠ 0)) as [Hpin|Hpin].
  - assert (DeletePgImp s p = (false, s)) as ->.
    { unfold DeletePgImp, DeallocatePage. by rewrite E, decide_True. }
    simpl. repeat split; try done. eauto.
  - destruct (DeletePgImp s p) as [b s1] eqn:ED.
    assert (b = true ∧ page_table_ s1 !! p = None) as [-> Hp1].
    { revert ED. unfold DeletePgImp, DeallocatePage.
      rewrite E, decide_False by done. intros [= <- <-]. simpl.
      split; [done|apply lookup_delete_eq]. }
    simpl. split; [split; [done|]|].
    { intros (g & [= <-] & Hg). done. }
    split; [done|]. split; [done|]. intros _. split; [done|].
    by apply Hnone.
Qed.

(** X12.  In every state reached from a constructed pool by any calls: the
    frame table has [pool_size_] frames; the page table maps distinct
    pages to distinct frames, each a frame of the pool that holds the
    identifier it is mapped from; the free list has no duplicates and
    holds frames of the pool that are clean and carry the sentinel
    identifier; and no frame is both in the free list and the target of a
    page table entry. *)
Theorem frame_table_invariants (s : BPM) :
  reachable s →
  length (pages_ s) = pool_size_ s ∧
  (∀ p q f, page_table_ s !! p = Some f → page_table_ s !! q = Some f →
            p = q) ∧
  (∀ p f, page_table_ s !! p = Some f →
          (f < pool_size_ s)%nat ∧ page_id_ (pages_ s !!! f) = p ∧
          f ∉ free_list_ s) ∧
  NoDup (free_list_ s) ∧
  (∀ f, f ∈ free_list_ s →
        (f < pool_size_ s)%nat ∧
        page_id_ (pages_ s !!! f) = INVALID_PAGE_ID ∧
        is_dirty_ (pages_ s !!! f) = false).
Proof.
  intros Hs. pose proof (reachable_wf _ Hs) as Hwf.
  split; [by apply wf_pages_len|]. split; [|split; [|split]].
  - intros p q f Hp Hq.
    destruct (wf_table _ Hwf _ _ Hp) as [_ <-].
    by destruct (wf_table _ Hwf _ _ Hq) as [_ <-].
  - intros p f Hp. destruct (wf_table _ Hwf _ _ Hp) as [Hf Hid].
    split; [done|]. split; [done|]. intros Hin.
    by apply (wf_free_table _ Hwf f p).
  - by apply wf_free_nodup.
  - intros f Hin. split; [by apply wf_free_lt|]. by apply wf_free_clean.
Qed.

Lemma frame_table_invariants_witness :
  let s := run (fresh_pool 2) pin_then_evict in
  length (pages_ s) = pool_size_ s ∧
  (∀ p q f, page_table_ s !! p = Some f → page_table_ s !! q = Some f →
            p = q) ∧
  (∀ p f, page_table_ s !! p = Some f →
          (f < pool_size_ s)%nat ∧ page_id_ (pages_ s !!! f) = p ∧
          f ∉ free_list_ s) ∧
  NoDup (free_list_ s) ∧
  (∀ f, f ∈ free_list_ s →
        (f < pool_size_ s)%nat ∧
        page_id_ (pages_ s !!! f) = INVALID_PAGE_ID ∧
        is_dirty_ (pages_ s !!! f) = false).
Proof.
  apply (frame_table_invariants (run (fresh_pool 2) pin_then_evict)).
  apply reachable_fresh.
Defined.

(** X13.  In a reachable state, [NewPgImp] aborts exactly when the pool is
    not exhausted and the assertion of [ValidatePageId] fails on the
    counter, and it returns a frame when the pool is not exhausted and the
    assertion holds.  Whenever it returns a frame: the identifier written to the
    output variable is the allocator's counter, which passed
    [ValidatePageId] and advances by [num_instances_] in the arithmetic of
    [page_id_t] (it wraps around beyond 2^31 - 1); the frame holds a zeroed
    buffer, that identifier, pin count 1 and a clear dirty flag; no other
    frame changes; the page table maps the identifier to the frame; the
    frame is not in the eligibility ordering.  When the free list is not
    empty the frame is its back, nothing is erased from the page table and
    the disk is not called; when it is empty the frame is the one [Victim]
    returns, the entry of the identifier found in it is erased, and the
    disk is not called if the frame was clean. *)
Theorem NewPgImp_success_spec (s : BPM) (out : Z) :
  reachable s →
  (NewPgImp s out = None ↔
     ¬ (free_list_ s = [] ∧ Size (replacer_ s) = 0%nat) ∧
     ¬ ValidatePageId s (next_page_id_ s)) ∧
  (¬ (free_list_ s = [] ∧ Size (replacer_ s) = 0%nat) →
   ValidatePageId s (next_page_id_ s) →
   ∃ f s', NewPgImp s out = Some (Some f, next_page_id_ s, s')) ∧
  (∀ f id s',
     NewPgImp s out = Some (Some f, id, s') →
     id = next_page_id_ s ∧
     ValidatePageId s id ∧
     next_page_id_ s' = to_int32 (id + num_instances_ s) ∧
     (id + num_instances_ s ≤ MAX_PAGE_ID →
      next_page_id_ s' = id + num_instances_ s) ∧
     pages_ s' !!! f = mkPage zeroed id 1 false ∧
     (∀ g, g ≠ f → pages_ s' !!! g = pages_ s !!! g) ∧
     page_table_ s' !! id = Some f ∧
     (f ∉ pin_lists_ (replacer_ s')) ∧
     (free_list_ s ≠ [] →
        last (free_list_ s) = Some f ∧
        free_list_ s' = removelast (free_list_ s) ∧
        page_table_ s' = <[id := f]> (page_table_ s) ∧
        disk_manager_ s' = disk_manager_ s) ∧
     (free_list_ s = [] →
        (Victim (replacer_ s)).1 = Some f ∧
        free_list_ s' = [] ∧
        page_table_ s' =
          <[id := f]> (delete (page_id_ (pages_ s !!! f)) (page_table_ s)) ∧
        (is_dirty_ (pages_ s !!! f) = false →
         disk_manager_ s' = disk_manager_ s))).
Proof.
  intros Hs. pose proof (reachable_wf _ Hs) as Hwf. split.
  { unfold NewPgImp. case_decide as Hne; [by split; [|intros []]|].
    destruct (AllocatePage s) as [[id s1]|] eqn:EA.
    - apply AllocatePage_Some in EA as (-> & HV & _).
      split; [done|]. by intros [_ ?].
    - apply AllocatePage_None in EA. by split. }
  split; [apply NewPgImp_returns|].
  intros f id s'.
  unfold NewPgImp. case_decide as Hne; [done|].
  destruct (AllocatePage s) as [[id1 s1]|] eqn:EA; [|done].
  apply AllocatePage_Some in EA as (-> & HV & ->). simpl.
  assert (next_page_id_ s + num_instances_ s ≤ MAX_PAGE_ID →
          to_int32 (next_page_id_ s + num_instances_ s) =
            next_page_id_ s + num_instances_ s) as Hsmall.
  { intros Hb. apply to_int32_small.
    destruct (reachable_allocator _ Hs) as (_ & ? & ?). lia. }
  destruct (last (free_list_ s)) as [g|] eqn:El; simpl.
  - intros [= -> <- <-]. simpl.
    pose proof (last_Some_elem_of _ _ El) as Hin.
    assert (f < length (pages_ s))%nat as Hlen.
    { rewrite (wf_pages_len _ Hwf). by apply wf_free_lt. }
    split; [done|]. split; [done|]. split; [done|]. split; [done|].
    split; [by rewrite list_lookup_total_insert_eq|].
    split; [by intros h Hh; rewrite list_lookup_total_insert_ne|].
    split; [apply lookup_insert_eq|].
    split; [by apply Pin_not_listed, wf_lru|].
    split; [done|]. intros Hnil. by rewrite Hnil in El.
  - apply last_None in El.
    destruct (Victim (replacer_ s)) as [[g|] r] eqn:EV; [|done].
    destruct (wf_Victim_Some _ _ _ (wf_lru _ Hwf) EV)
      as (Hr & Hin & Hnin & Hsub & Hcap).
    assert (g < length (pages_ s))%nat as Hlen.
    { rewrite (wf_pages_len _ Hwf). by apply wf_lru_lt. }
    destruct (is_dirty_ (pages_ s !!! g)) eqn:Ed; simpl;
      intros [= -> <- <-]; simpl.
    + rewrite list_insert_insert_eq.
      rewrite (page_id_insert_same _ f f) by done.
      split; [done|]. split; [done|]. split; [done|]. split; [done|].
      split; [by rewrite list_lookup_total_insert_eq|].
      split; [by intros h Hh; rewrite list_lookup_total_insert_ne|].
      split; [apply lookup_insert_eq|].
      split; [by apply Pin_not_listed|]. split; [done|].
      intros _. repeat split; try done. intros Hd. congruence.
    + split; [done|]. split; [done|]. split; [done|]. split; [done|].
      split; [by rewrite list_lookup_total_insert_eq|].
      split; [by intros h Hh; rewrite list_lookup_total_insert_ne|].
      split; [apply lookup_insert_eq|].
      split; [by apply Pin_not_listed|]. split; [done|].
      intros _. by repeat split.
Qed.

Lemma NewPgImp_success_spec_witness :
  let s := run (fresh_pool 1) [OpNewPage; OpUnpinPage 0 false] in
  (λ r, r.1) <$> NewPgImp s 7 = Some (Some 0%nat, 1) ∧
  (NewPgImp s 7 = None ↔
     ¬ (free_list_ s = [] ∧ Size (replacer_ s) = 0%nat) ∧
     ¬ ValidatePageId s (next_page_id_ s)) ∧
  (¬ (free_list_ s = [] ∧ Size (replacer_ s) = 0%nat) →
   ValidatePageId s (next_page_id_ s) →
   ∃ f s', NewPgImp s 7 = Some (Some f, next_page_id_ s, s')) ∧
  (∀ f id s',
     NewPgImp s 7 = Some (Some f, id, s') →
     id = next_page_id_ s ∧
     ValidatePageId s id ∧
     next_page_id_ s' = to_int32 (id + num_instances_ s) ∧
     (id + num_instances_ s ≤ MAX_PAGE_ID →
      next_page_id_ s' = id + num_instances_ s) ∧
     pages_ s' !!! f = mkPage zeroed id 1 false ∧
     (∀ g, g ≠ f → pages_ s' !!! g = pages_ s !!! g) ∧
     page_table_ s' !! id = Some f ∧
     (f ∉ pin_lists_ (replacer_ s')) ∧
     (free_list_ s ≠ [] →
        last (free_list_ s) = Some f ∧
        free_list_ s' = removelast (free_list_ s) ∧
        page_table_ s' = <[id := f]> (page_table_ s) ∧
        disk_manager_ s' = disk_manager_ s) ∧
     (free_list_ s = [] →
        (Victim (replacer_ s)).1 = Some f ∧
        free_list_ s' = [] ∧
        page_table_ s' =
          <[id := f]> (delete (page_id_ (pages_ s !!! f)) (page_table_ s)) ∧
        (is_dirty_ (pages_ s !!! f) = false →
         disk_manager_ s' = disk_manager_ s))).
Proof.
  split; [vm_compute; reflexivity|].
  apply (NewPgImp_success_spec
           (run (fresh_pool 1) [OpNewPage; OpUnpinPage 0 false]) 7).
  apply reachable_fresh.
Defined.

(** [NewPage] on a pool whose free list is [0 .. m] and whose replacer was
    never used, when the assertion of [ValidatePageId] holds. *)
Lemma exec_New_fresh s m c :
  free_list_ s = seq 0 (S m) → replacer_ s = new_LRUReplacer c →
  ValidatePageId s (next_page_id_ s) →
  ∃ s', exec s OpNewPage = Some (RNewPage (Some m) (next_page_id_ s), s') ∧
        free_list_ s' = seq 0 m ∧
        replacer_ s' = new_LRUReplacer c ∧
        next_page_id_ s' = to_int32 (next_page_id_ s + num_instances_ s) ∧
        num_instances_ s' = num_instances_ s ∧
        instance_index_ s' = instance_index_ s.
Proof.
  intros Hfl Hr HV. unfold exec, NewPgImp.
  rewrite decide_False.
  2: { rewrite Hfl. intros [Hx _]. apply (f_equal length) in Hx.
       by rewrite length_seq in Hx. }
  rewrite AllocatePage_valid by done.
  simpl. rewrite Hfl, seq_S, last_snoc, removelast_last. simpl.
  eexists. split; [done|]. simpl. by rewrite Hr.
Qed.

(** Filling the pool: as long as the identifiers fit [page_id_t], [m]
    [NewPage] calls take the [m] frames of the free list from the back and
    hand out the progression; the calls that follow run on the pool they
    leave. *)
Lemma results_fill s m c ops :
  free_list_ s = seq 0 m → replacer_ s = new_LRUReplacer c →
  0 ≤ next_page_id_ s → 0 < num_instances_ s →
  next_page_id_ s `mod` num_instances_ s = instance_index_ s →
  next_page_id_ s + (Z.of_nat m - 1) * num_instances_ s ≤ MAX_PAGE_ID →
  ∃ s', results s (replicate m OpNewPage ++ ops) =
          fill_results m (next_page_id_ s) (num_instances_ s) ++
          results s' ops ∧
        free_list_ s' = [] ∧
        replacer_ s' = new_LRUReplacer c.
Proof.
  revert s. induction m as [|m IH]; intros s Hfl Hr Hnext HN Hmod Hb.
  { exists s. by repeat split. }
  destruct (exec_New_fresh s m c Hfl Hr)
    as (s1 & E & Hfl1 & Hr1 & Hn1 & HN1 & Hi1).
  { unfold ValidatePageId. rewrite to_uint32_small; [done|].
    unfold MAX_PAGE_ID in *. nia. }
  change (replicate (S m) OpNewPage ++ ops)
    with (OpNewPage :: (replicate m OpNewPage ++ ops)).
  cbn [results fill_results]. rewrite E.
  destruct m as [|m].
  { exists s1. simpl. by repeat split. }
  assert (next_page_id_ s1 = next_page_id_ s + num_instances_ s) as Hn.
  { rewrite Hn1. apply to_int32_small. unfold MAX_PAGE_ID in *. nia. }
  destruct (IH s1) as (s' & Hres & Hfl' & Hr'); try done.
  - rewrite Hn. lia.
  - by rewrite HN1.
  - rewrite Hn, HN1, Hi1.
    rewrite <- (Z.mul_1_l (num_instances_ s)) at 1.
    by rewrite Z_mod_plus_full.
  - rewrite Hn, HN1. nia.
  - exists s'. rewrite Hres, Hn, HN1. by repeat split.
Qed.

(** X14.  A pool constructed with [n] frames hands out its frames from the
    highest index down: as long as the identifiers [i], [i + N], ... fit
    [page_id_t], [n] successive [NewPage] calls succeed, returning the
    frames [n-1], ..., [0] with these identifiers, and with no page
    unpinned the next [NewPage] fails, leaving the output variable as it
    was. *)
Theorem NewPage_fills_pool (n : nat) (N i : Z) (d : DiskManager) (s : BPM) :
  new_BufferPoolManagerInstance n N i d = Some s →
  i + (Z.of_nat n - 1) * N ≤ MAX_PAGE_ID →
  results s (replicate n OpNewPage ++ [OpNewPage]) =
    fill_results n i N ++ [RNewPage None INVALID_PAGE_ID].
Proof.
  unfold new_BufferPoolManagerInstance.
  case_decide as HU; [|done]. case_decide as HN; [|done].
  destruct HU as [HUN HUi]. unfold is_uint32 in HUN, HUi.
  intros [= <-] Hb.
  assert (∀ s', free_list_ s' = [] → replacer_ s' = new_LRUReplacer n →
                results s' [OpNewPage] = [RNewPage None INVALID_PAGE_ID])
    as Hlast.
  { intros s' Hfl Hr. simpl. unfold NewPgImp.
    rewrite decide_True; [done|]. split; [done|]. unfold Size.
    by rewrite Hr. }
  destruct n as [|n].
  { by apply Hlast. }
  assert (0 ≤ (Z.of_nat (S n) - 1) * N) as Hprod by nia.
  assert (to_int32 i = i) as Hi.
  { apply to_int32_small. unfold MAX_PAGE_ID in *. lia. }
  set (s0 := mkBPM _ _ _ _ _ _ _ _ _).
  destruct (results_fill s0 (S n) (S n) [OpNewPage])
    as (s' & Hres & Hfl & Hr).
  - done.
  - done.
  - subst s0. cbn [next_page_id_]. rewrite Hi. lia.
  - subst s0. cbn [num_instances_]. lia.
  - subst s0. cbn [next_page_id_ num_instances_ instance_index_].
    rewrite Hi. apply Z.mod_small. lia.
  - subst s0. cbn [next_page_id_ num_instances_]. by rewrite Hi.
  - rewrite Hres, (Hlast s') by done. subst s0.
    cbn [next_page_id_ num_instances_]. by rewrite Hi.
Qed.

Lemma NewPage_fills_pool_witness :
  results (fresh_pool 3) (replicate 3 OpNewPage ++ [OpNewPage]) =
    fill_results 3 0 1 ++ [RNewPage None INVALID_PAGE_ID].
Proof.
  apply (NewPage_fills_pool 3 1 0 empty_disk (fresh_pool 3)).
  - reflexivity.
  - unfold MAX_PAGE_ID. lia.
Defined.

(** X15.  In a reachable state, fetching a resident page that is already
    pinned and is not in the eligibility ordering, and then unpinning it
    with [is_dirty = false], gives back exactly the state before the two
    calls. *)
Theorem Fetch_Unpin_restores (s : BPM) (p : Z) (f : nat) :
  reachable s →
  page_table_ s !! p = Some f →
  0 < pin_count_ (pages_ s !!! f) →
  f ∉ pin_lists_ (replacer_ s) →
  UnpinPgImp (FetchPgImp s p).2 p false = (true, s).
Proof.
  intros Hs E Hpin Hnin. pose proof (reachable_wf _ Hs) as Hwf.
  destruct (wf_table _ Hwf _ _ E) as [Hf _].
  assert (f < length (pages_ s))%nat as Hlen
    by (by rewrite (wf_pages_len _ Hwf)).
  unfold FetchPgImp. rewrite E. simpl.
  unfold UnpinPgImp. simpl. rewrite E.
  rewrite list_lookup_total_insert_eq by done. simpl.
  rewrite decide_False by lia. rewrite decide_False by lia.
  rewrite list_insert_insert_eq, Pin_unlisted by (done || by apply wf_lru).
  f_equal. rewrite list_insert_id.
  - by destruct s.
  - rewrite (list_lookup_lookup_total_lt _ _ Hlen). f_equal.
    destruct (pages_ s !!! f) as [dat id n b]. simpl.
    unfold set_pin_count, set_is_dirty. simpl.
    rewrite orb_false_r. f_equal. lia.
Qed.

Lemma Fetch_Unpin_restores_witness :
  let s := run (fresh_pool 2) [OpNewPage] in
  UnpinPgImp (FetchPgImp s 0).2 0 false = (true, s).
Proof.
  apply (Fetch_Unpin_restores (run (fresh_pool 2) [OpNewPage]) 0 1).
  - apply reachable_fresh.
  - vm_compute. reflexivity.
  - vm_compute. reflexivity.
  - vm_compute. intros H. by apply elem_of_nil in H.
Defined.

(** * Pin counts and eligibility *)

Lemma Pin_keeps r f g :
  Replacer.wf r → g ∈ pin_lists_ r → g ≠ f → g ∈ pin_lists_ (Pin r f).
Proof.
  intros Hwf Hin Hne. rewrite Pin_list by done.
  by apply list_elem_of_filter.
Qed.

Lemma Unpin_keeps r f g : g ∈ pin_lists_ r → g ∈ pin_lists_ (Unpin r f).
Proof.
  intros Hin. destruct (Unpin_sub_cases r f) as [->| ->]; [done|by right].
Qed.

Lemma Victim_keeps r f r' g :
  Victim r = (Some f, r') → g ∈ pin_lists_ r → g ≠ f → g ∈ pin_lists_ r'.
Proof.
  intros (l & El & ->)%Victim_Some. rewrite El. simpl.
  intros [?|Hg]%elem_of_app Hne; [done|].
  by apply list_elem_of_singleton in Hg.
Qed.

Lemma pins_inv_new pool_size n i d s :
  new_BufferPoolManagerInstance pool_size n i d = Some s → pins_inv s.
Proof.
  intros Hnew. split; [by eapply bpm_wf_new|..]; revert Hnew;
    unfold new_BufferPoolManagerInstance; do 2 (case_decide; [|done]);
    intros [= <-]; simpl.
  - intros f Hin%elem_of_seq. by rewrite lookup_total_replicate_2 by lia.
  - intros p f. by rewrite lookup_empty.
Qed.

(** A frame gets pin count 1 and an entry of the page table; the other
    entries of the new page table are old ones of other frames, and the
    other frames of the ordering stay. *)
Lemma pins_inv_install s s' f p pg :
  pins_inv s → bpm_wf s' →
  (f < pool_size_ s)%nat →
  pages_ s' = <[f := pg]> (pages_ s) →
  pin_count_ pg = 1 →
  (∀ g, g ∈ free_list_ s' → g ∈ free_list_ s ∧ g ≠ f) →
  (∀ q g, page_table_ s' !! q = Some g →
          q ≠ p → page_table_ s !! q = Some g ∧ g ≠ f) →
  page_table_ s' !! p = Some f →
  (∀ g, g ∈ pin_lists_ (replacer_ s) → g ≠ f →
        g ∈ pin_lists_ (replacer_ s')) →
  pins_inv s'.
Proof.
  intros [Hwf Hfz Hel] Hwf' Hf Hpages Hpin Hfl Hpt Hp Hkeep.
  assert (f < length (pages_ s))%nat as Hlen
    by (by rewrite (wf_pages_len _ Hwf)).
  split; [done|..].
  - intros g Hg. destruct (Hfl _ Hg) as [Hg' Hne].
    rewrite Hpages, list_lookup_total_insert_ne by done. by apply Hfz.
  - intros q g Hq. rewrite Hpages.
    destruct (decide (q = p)) as [->|Hqp].
    + rewrite Hp in Hq. injection Hq as <-.
      rewrite list_lookup_total_insert_eq by done. lia.
    + destruct (Hpt _ _ Hq Hqp) as [Hq' Hne].
      rewrite list_lookup_total_insert_ne by done.
      intros Hz. apply Hkeep; [|done]. by eapply Hel.
Qed.

Lemma pins_inv_New s out r :
  pins_inv s → NewPgImp s out = Some r → pins_inv r.2.
Proof.
  intros Hinv Hr. pose proof (pins_wf _ Hinv) as Hwf.
  pose proof (bpm_wf_New s out r Hwf Hr) as Hwf'. revert Hr Hwf'.
  unfold NewPgImp. case_decide as Hne; [by intros [= <-]|].
  destruct (AllocatePage s) as [[id s1]|] eqn:EA; [|done].
  apply AllocatePage_Some in EA as (-> & _ & ->). intros [= <-]. simpl.
  destruct (last (free_list_ s)) as [f|] eqn:El; simpl.
  - destruct (last_free _ _ (wf_free_nodup _ Hwf) El)
      as (Hin & _ & Hfnin & Hfsub & _).
    intros Hwf'.
    eapply (pins_inv_install s _ f (next_page_id_ s)); simpl; try done.
    + by apply wf_free_lt.
    + intros g Hg. split; [by apply Hfsub|]. by intros ->.
    + intros q g. rewrite lookup_insert. case_decide; [done|].
      intros Hq _. split; [done|]. intros ->.
      by apply (wf_free_table _ Hwf f q).
    + apply lookup_insert_eq.
    + intros g Hg Hgf. by apply Pin_keeps; [apply wf_lru|..].
  - apply last_None in El.
    destruct (Victim (replacer_ s)) as [[f|] r] eqn:EV.
    + destruct (wf_Victim_Some _ _ _ (wf_lru _ Hwf) EV)
        as (Hr & Hin & Hnin & Hsub & Hcap).
      assert (f < pool_size_ s)%nat as Hf by (by apply wf_lru_lt).
      destruct (is_dirty_ (pages_ s !!! f)) eqn:Ed; simpl;
        rewrite ?list_insert_insert_eq,
          ?(page_id_insert_same _ f f) by done; intros Hwf';
        (eapply (pins_inv_install s _ f (next_page_id_ s)); simpl;
         try done;
         [ rewrite El; by intros g ?%elem_of_nil
         | intros q g; rewrite lookup_insert; (case_decide; [done|]);
           intros Hq _; by apply (table_erase_frame s f)
         | apply lookup_insert_eq
         | intros g Hg Hgf; apply Pin_keeps; [done| |done];
           by eapply Victim_keeps ]).
    + exfalso. apply Hne.
      apply Victim_None in EV as [EV _]. unfold Size. by rewrite EV.
Qed.

Lemma pins_inv_Fetch s p : pins_inv s → pins_inv (FetchPgImp s p).2.
Proof.
  intros Hinv. pose proof (pins_wf _ Hinv) as Hwf.
  pose proof (bpm_wf_Fetch s p Hwf) as Hwf'. revert Hwf'.
  unfold FetchPgImp. destruct (page_table_ s !! p) as [f|] eqn:E; simpl.
  { intros Hwf'. destruct (wf_table _ Hwf _ _ E) as [Hf _].
    assert (f < length (pages_ s))%nat as Hlen
      by (by rewrite (wf_pages_len _ Hwf)).
    pose proof (pin_nonneg_lookup _ f (wf_pin_nonneg _ Hwf)) as Hnn.
    destruct Hinv as [_ Hfz Hel]. split; [done|..]; simpl.
    - intros g Hg. rewrite list_lookup_total_insert_ne; [by apply Hfz|].
      intros ->. by apply (wf_free_table _ Hwf g p).
    - intros q g Hq. destruct (decide (g = f)) as [->|Hgf].
      + rewrite list_lookup_total_insert_eq by done. simpl. lia.
      + rewrite list_lookup_total_insert_ne by done. intros Hz.
        apply Pin_keeps; [by apply wf_lru| |done]. by eapply Hel. }
  destruct (last (free_list_ s)) as [f|] eqn:El; simpl.
  - destruct (last_free _ _ (wf_free_nodup _ Hwf) El)
      as (Hin & _ & Hfnin & Hfsub & _).
    intros Hwf'. eapply (pins_inv_install s _ f p); simpl; try done.
    + by apply wf_free_lt.
    + intros g Hg. split; [by apply Hfsub|]. by intros ->.
    + intros q g. rewrite lookup_insert. case_decide; [done|].
      intros Hq _. by apply (table_erase_frame s f).
    + apply lookup_insert_eq.
  - apply last_None in El.
    destruct (Victim (replacer_ s)) as [[f|] r] eqn:EV; [|done].
    destruct (wf_Victim_Some _ _ _ (wf_lru _ Hwf) EV)
      as (Hr & Hin & Hnin & Hsub & Hcap).
    simpl. intros Hwf'. eapply (pins_inv_install s _ f p); simpl; try done.
    + by apply wf_lru_lt.
    + rewrite El. by intros g ?%elem_of_nil.
    + intros q g. rewrite lookup_insert. case_decide; [done|].
      intros Hq _. by apply (table_erase_frame s f).
    + apply lookup_insert_eq.
    + intros g Hg Hgf. by eapply Victim_keeps.
Qed.

Lemma pins_inv_Unpin s p b : pins_inv s → pins_inv (UnpinPgImp s p b).2.
Proof.
  intros Hinv. pose proof (pins_wf _ Hinv) as Hwf.
  pose proof (bpm_wf_Unpin s p b Hwf) as Hwf'. revert Hwf'.
  unfold UnpinPgImp. destruct (page_table_ s !! p) as [f|] eqn:E; [|done].
  case_decide as Hpin; [done|]. simpl. intros Hwf'.
  destruct (wf_table _ Hwf _ _ E) as [Hf _].
  assert (f < length (pages_ s))%nat as Hlen
    by (by rewrite (wf_pages_len _ Hwf)).
  destruct Hinv as [_ Hfz Hel]. split; [done|..]; simpl.
  - intros g Hg. rewrite list_lookup_total_insert_ne; [by apply Hfz|].
    intros ->. by apply (wf_free_table _ Hwf g p).
  - intros q g Hq. destruct (decide (g = f)) as [->|Hgf].
    + rewrite list_lookup_total_insert_eq by done. simpl. intros Hz.
      rewrite decide_True by done. by apply Unpin_eligible.
    + rewrite list_lookup_total_insert_ne by done. intros Hz.
      assert (g ∈ pin_lists_ (replacer_ s)) by (by eapply Hel).
      case_decide; [by apply Unpin_keeps|done].
Qed.

(** The dirty flag of a frame is cleared. *)
Lemma pins_inv_clean s s' f :
  pins_inv s → bpm_wf s' →
  pages_ s' = <[f := set_is_dirty (pages_ s !!! f) false]> (pages_ s) →
  replacer_ s' = replacer_ s → free_list_ s' = free_list_ s →
  page_table_ s' = page_table_ s →
  pins_inv s'.
Proof.
  intros [Hwf Hfz Hel] Hwf' Hpages Hr Hfl Hpt.
  split; [done|..]; rewrite ?Hr, ?Hfl, ?Hpt, ?Hpages.
  - intros g Hg. rewrite pin_count_insert_same by done. by apply Hfz.
  - intros q g Hq. rewrite pin_count_insert_same by done. by eapply Hel.
Qed.

Lemma pins_inv_Flush s p : pins_inv s → pins_inv (FlushPgImp s p).2.
Proof.
  intros Hinv. pose proof (bpm_wf_Flush s p (pins_wf _ Hinv)) as Hwf'.
  revert Hwf'. unfold FlushPgImp.
  destruct (page_table_ s !! p) as [f|] eqn:E; [|done].
  case_decide; [done|]. destruct (is_dirty_ _); [|done]. simpl.
  intros Hwf'. by eapply (pins_inv_clean s _ f).
Qed.

Lemma pins_inv_FlushAll s : pins_inv s → pins_inv (FlushAllPgsImp s).
Proof.
  unfold FlushAllPgsImp. generalize (seq 0 (pool_size_ s)). intros l.
  revert s. induction l as [|i l IH]; intros s Hinv; [done|].
  simpl. apply IH.
  pose proof (bpm_wf_FlushAll_body s i (pins_wf _ Hinv)) as Hwf'.
  revert Hwf'. unfold FlushAll_body. destruct (is_dirty_ _); [|done].
  intros Hwf'. by eapply (pins_inv_clean s _ i).
Qed.

Lemma pins_inv_Delete s p : pins_inv s → pins_inv (DeletePgImp s p).2.
Proof.
  intros Hinv. pose proof (pins_wf _ Hinv) as Hwf.
  pose proof (bpm_wf_Delete s p Hwf) as Hwf'. revert Hwf'.
  unfold DeletePgImp, DeallocatePage.
  destruct (page_table_ s !! p) as [f|] eqn:E; [|done].
  case_decide as Hpin; [done|]. simpl. intros Hwf'.
  destruct (wf_table _ Hwf _ _ E) as [Hf Hid].
  assert (f < length (pages_ s))%nat as Hlen
    by (by rewrite (wf_pages_len _ Hwf)).
  destruct Hinv as [_ Hfz Hel]. split; [done|..]; simpl.
  - intros g [->|Hg]%elem_of_cons.
    + rewrite list_lookup_total_insert_eq by done. simpl.
      destruct (decide (pin_count_ (pages_ s !!! f) = 0)); [done|].
      by destruct Hpin.
    + rewrite list_lookup_total_insert_ne; [by apply Hfz|].
      intros ->. by apply (wf_free_table _ Hwf g p).
  - intros q g. rewrite lookup_delete. case_decide as Hq; [done|].
    intros Hg. rewrite list_lookup_total_insert_ne; [by eapply Hel|].
    intros ->. destruct (wf_table _ Hwf _ _ Hg) as [_ Hid']. congruence.
Qed.

Lemma reachable_pins_inv s : reachable s → pins_inv s.
Proof.
  induction 1 as [pool_size n i d s Hnew|s o Hs IH].
  - by eapply pins_inv_new.
  - destruct o as [|p|p d|p|p|].
    + apply step_New_case; [done|]. intros r Hr. by eapply pins_inv_New.
    + rewrite step_Fetch. by apply pins_inv_Fetch.
    + rewrite step_Unpin. by apply pins_inv_Unpin.
    + rewrite step_Flush. by apply pins_inv_Flush.
    + rewrite step_Delete. by apply pins_inv_Delete.
    + by apply pins_inv_FlushAll.
Qed.

(** X16.  In every state reached from a constructed pool by any calls: no
    pin count is negative; every frame of the free list has pin count
    zero; and every resident page whose pin count is zero is in the
    eligibility ordering of the replacer, so an unpinned page can always
    be evicted. *)
Theorem pin_count_invariants (s : BPM) :
  reachable s →
  (∀ f, 0 ≤ pin_count_ (pages_ s !!! f)) ∧
  (∀ f, f ∈ free_list_ s → pin_count_ (pages_ s !!! f) = 0) ∧
  (∀ p f, page_table_ s !! p = Some f →
          pin_count_ (pages_ s !!! f) = 0 →
          f ∈ pin_lists_ (replacer_ s)).
Proof.
  intros Hs. destruct (reachable_pins_inv _ Hs) as [Hwf Hfz Hel].
  split; [|by split].
  intros f. by apply pin_nonneg_lookup, wf_pin_nonneg.
Qed.

Lemma pin_count_invariants_witness :
  let s := run (fresh_pool 2) pin_then_evict in
  (∀ f, 0 ≤ pin_count_ (pages_ s !!! f)) ∧
  (∀ f, f ∈ free_list_ s → pin_count_ (pages_ s !!! f) = 0) ∧
  (∀ p f, page_table_ s !! p = Some f →
          pin_count_ (pages_ s !!! f) = 0 →
          f ∈ pin_lists_ (replacer_ s)).
Proof.
  apply (pin_count_invariants (run (fresh_pool 2) pin_then_evict)).
  apply reachable_fresh.
Defined.

Lemma reachable_no_delete_reachable s : reachable_no_delete s → reachable s.
Proof.
  induction 1 as [pool_size n i d s Hnew|s o Hs IH Ho].
  - by econstructor.
  - by constructor.
Qed.

(** X17.  In a pool on which [DeletePage] is never called, a resident
    page has pin count zero exactly when its frame is in the eligibility
    ordering of the replacer; and no frame is both in the free list and
    in the eligibility ordering. *)
Theorem pin_eligibility_duality (s : BPM) (p : Z) (f : nat) :
  reachable_no_delete s →
  page_table_ s !! p = Some f →
  (pin_count_ (pages_ s !!! f) = 0 ↔ f ∈ pin_lists_ (replacer_ s)) ∧
  (∀ g, g ∈ pin_lists_ (replacer_ s) → g ∉ free_list_ s).
Proof.
  intros Hs Hp.
  destruct (reachable_no_delete_inv _ Hs) as [_ Hz Hnf _].
  destruct (reachable_pins_inv _ (reachable_no_delete_reachable _ Hs))
    as [_ _ Hel].
  split; [|done]. split; [by eapply Hel|by apply Hz].
Qed.

Lemma reachable_no_delete_run s ops :
  reachable_no_delete s → Forall not_delete ops →
  reachable_no_delete (run s ops).
Proof.
  revert s. induction ops as [|o ops IH]; intros s Hs Hok; [done|].
  apply Forall_cons in Hok as [Ho Hok]. simpl.
  destruct (exec s o) as [[r s']|] eqn:E; [|done].
  rewrite <- (exec_step _ _ _ _ E). apply IH; [|done].
  by constructor.
Qed.

Lemma pin_eligibility_duality_witness :
  let s := run (fresh_pool 2)
               [OpNewPage; OpNewPage; OpUnpinPage 0 true; OpFetchPage 0;
                OpUnpinPage 1 false] in
  (pin_count_ (pages_ s !!! 0%nat) = 0 ↔
     0%nat ∈ pin_lists_ (replacer_ s)) ∧
  (∀ g, g ∈ pin_lists_ (replacer_ s) → g ∉ free_list_ s).
Proof.
  apply (pin_eligibility_duality
           (run (fresh_pool 2)
                [OpNewPage; OpNewPage; OpUnpinPage 0 true; OpFetchPage 0;
                 OpUnpinPage 1 false]) 1 0).
  - apply reachable_no_delete_run.
    + eapply reachable_no_delete_new. apply (fresh_pool_new 2).
    + repeat constructor.
  - vm_compute. reflexivity.
Defined.

Lemma no_eviction_under_pin_without_delete_witness :
  let s := run (fresh_pool 2) [OpNewPage; OpNewPage] in
  (∀ f, (Victim (replacer_ s)).1 = Some f →
        pin_count_ (pages_ s !!! f) = 0) ∧
  ((∀ f, (f < pool_size_ s)%nat → 0 < pin_count_ (pages_ s !!! f)) →
   (∀ out, NewPgImp s out = Some (None, out, s)) ∧
   (∀ p, page_table_ s !! p = None → FetchPgImp s p = (None, s))).
Proof.
  apply (no_eviction_under_pin_without_delete
           (run (fresh_pool 2) [OpNewPage; OpNewPage])).
  apply reachable_no_delete_run.
  - eapply reachable_no_delete_new. apply (fresh_pool_new 2).
  - repeat constructor.
Defined.

(** * Every frame is accounted for *)

Lemma reachable_no_clash_reachable s : reachable_no_clash s → reachable s.
Proof.
  induction 1 as [pool_size n i d s Hnew|s o Hs IH Ho].
  - by econstructor.
  - by constructor.
Qed.

(** The frames of the free list followed by the frames of the page table:
    under the capacity invariant this list is a permutation of the frames
    of the pool. *)
Lemma frames_cover s f :
  cap_inv s → (f < pool_size_ s)%nat →
  f ∈ free_list_ s ++ (map_to_list (page_table_ s)).*2.
Proof.
  intros [Hwf _ Hcnt _] Hf.
  set (L := free_list_ s ++ (map_to_list (page_table_ s)).*2).
  assert (NoDup L) as Hnd.
  { apply NoDup_app. split; [by apply wf_free_nodup|]. split.
    - intros g Hg [[p g'] [-> Hpg]]%list_elem_of_fmap.
      apply elem_of_map_to_list in Hpg. simpl in *.
      by apply (wf_free_table _ Hwf g' p).
    - apply NoDup_fmap_2_strong; [|apply NoDup_map_to_list].
      intros [p1 g1] [p2 g2] H1%elem_of_map_to_list H2%elem_of_map_to_list.
      simpl. intros <-.
      destruct (wf_table _ Hwf _ _ H1) as [_ <-].
      by destruct (wf_table _ Hwf _ _ H2) as [_ <-]. }
  assert (L ⊆+ seq 0 (pool_size_ s)) as Hsub.
  { apply NoDup_submseteq; [done|]. intros g Hg. apply elem_of_seq.
    split; [lia|]. simpl.
    apply elem_of_app in Hg as [Hg|[[p g'] [-> Hpg]]%list_elem_of_fmap].
    - by apply wf_free_lt.
    - apply elem_of_map_to_list in Hpg. simpl.
      by destruct (wf_table _ Hwf _ _ Hpg). }
  assert (L ≡ₚ seq 0 (pool_size_ s)) as HP.
  { apply submseteq_length_Permutation; [done|].
    unfold L. rewrite length_seq, length_app, length_fmap,
      length_map_to_list. lia. }
  rewrite HP. apply elem_of_seq. lia.
Qed.

(** X18.  In a pool whose calls never clash on an identifier (no
    [FetchPage] of the sentinel, no [NewPage] while the identifier it
    hands out is resident), every frame of the pool is accounted for: it
    is in the free list or it is the frame of a resident page. *)
Theorem frames_accounted (s : BPM) (f : nat) :
  reachable_no_clash s →
  (f < pool_size_ s)%nat →
  f ∈ free_list_ s ∨ ∃ p, page_table_ s !! p = Some f.
Proof.
  intros Hs Hf. pose proof (reachable_no_clash_inv _ Hs) as Hinv.
  pose proof (frames_cover s f Hinv Hf) as Hin.
  apply elem_of_app in Hin as [Hin|[[p g] [-> Hpg]]%list_elem_of_fmap].
  - by left.
  - right. exists p. by apply elem_of_map_to_list in Hpg.
Qed.

Lemma frames_accounted_witness :
  let s := run (fresh_pool 2)
               [OpNewPage; OpNewPage; OpUnpinPage 0 true; OpFetchPage 0;
                OpUnpinPage 0 false; OpNewPage; OpDeletePage 1] in
  1%nat ∈ free_list_ s ∨ ∃ p, page_table_ s !! p = Some 1%nat.
Proof.
  apply (frames_accounted
    (run (fresh_pool 2)
         [OpNewPage; OpNewPage; OpUnpinPage 0 true; OpFetchPage 0;
          OpUnpinPage 0 false; OpNewPage; OpDeletePage 1]) 1).
  - apply reachable_no_clash_run.
    + eapply reachable_no_clash_new. apply (fresh_pool_new 2).
    + vm_compute. repeat split; discriminate.
  - vm_compute. lia.
Defined.

(** * What reaches the disk *)

(** A miss in a pool without identifier clashes loads what the disk holds
    for the page: a write-back that precedes the read is keyed by another
    identifier. *)
Lemma Fetch_miss_loads_store s p g :
  cap_inv s → page_table_ s !! p = None →
  (FetchPgImp s p).1 = Some g →
  data_ (pages_ (FetchPgImp s p).2 !!! g) =
    default zeroed (store (disk_manager_ s) !! p).
Proof.
  intros Hinv Hp. pose proof (cap_wf _ Hinv) as Hwf.
  unfold FetchPgImp. rewrite Hp.
  destruct (last (free_list_ s)) as [f|] eqn:El; simpl.
  - intros [= ->]. apply last_Some_elem_of in El.
    destruct (wf_free_clean _ Hwf _ El) as [_ ->]. simpl.
    rewrite list_lookup_total_insert_eq; [done|].
    rewrite (wf_pages_len _ Hwf). by apply wf_free_lt.
  - apply last_None in El.
    destruct (Victim (replacer_ s)) as [[f|] r] eqn:EV; [|done]. simpl.
    intros [= ->].
    destruct (wf_Victim_Some _ _ _ (wf_lru _ Hwf) EV) as (_ & Hin & _).
    rewrite list_lookup_total_insert_eq
      by (rewrite (wf_pages_len _ Hwf); by apply wf_lru_lt).
    simpl. destruct (is_dirty_ (pages_ s !!! g)); [|done]. simpl.
    rewrite lookup_insert_ne; [done|].
    destruct (cap_lru _ Hinv _ Hin) as [Hf|[q Hq]].
    { rewrite El in Hf. by apply elem_of_nil in Hf. }
    destruct (wf_table _ Hwf _ _ Hq) as [_ ->]. intros ->. congruence.
Qed.

(** X19.  Dirty data survives eviction.  In a pool without identifier
    clashes let page [p] be resident and dirty in the frame that the
    eviction picks (the free list is empty and [Victim] returns it), and
    let the identifier [NewPgImp] is about to hand out pass
    [ValidatePageId] and be neither resident nor the sentinel.  Then
    [NewPgImp] returns; after it [p] is no longer resident and the disk
    holds for [p] the buffer the page had; and a [FetchPgImp] of [p] that
    returns a frame returns it with that buffer. *)
Theorem evicted_dirty_page_reloads
    (s : BPM) (p : Z) (f : nat) (out : Z) :
  reachable_no_clash s →
  page_table_ s !! next_page_id_ s = None →
  next_page_id_ s ≠ INVALID_PAGE_ID →
  ValidatePageId s (next_page_id_ s) →
  page_table_ s !! p = Some f →
  is_dirty_ (pages_ s !!! f) = true →
  free_list_ s = [] →
  (Victim (replacer_ s)).1 = Some f →
  ∃ new, NewPgImp s out = Some new ∧
    let s1 := new.2 in
    page_table_ s1 !! p = None ∧
    store (disk_manager_ s1) !! p = Some (data_ (pages_ s !!! f)) ∧
    ∀ g, (FetchPgImp s1 p).1 = Some g →
         data_ (pages_ (FetchPgImp s1 p).2 !!! g) = data_ (pages_ s !!! f).
Proof.
  intros Hs Hfresh Hnext HVal Hp Hd Hfl HV.
  pose proof (reachable_no_clash_inv _ Hs) as Hinv.
  pose proof (cap_wf _ Hinv) as Hwf.
  destruct (wf_table _ Hwf _ _ Hp) as [Hf Hid].
  destruct (Victim (replacer_ s)) as [v r] eqn:EV. simpl in HV. subst v.
  pose proof (Victim_Some _ _ _ EV) as (l & El & _).
  assert (¬ (free_list_ s = [] ∧ Size (replacer_ s) = 0%nat)) as Hne.
  { unfold Size. rewrite El, length_app. simpl. lia. }
  destruct (NewPgImp s out) as [new|] eqn:EN.
  2: { revert EN. unfold NewPgImp. rewrite decide_False by done.
       by rewrite AllocatePage_valid. }
  exists new. split; [done|].
  assert (cap_inv new.2) as Hinv1 by (by eapply cap_inv_New).
  assert (page_table_ new.2 !! p = None ∧
          store (disk_manager_ new.2) !! p = Some (data_ (pages_ s !!! f)))
    as [Hp1 Hst].
  { revert EN. unfold NewPgImp. rewrite decide_False by done.
    rewrite AllocatePage_valid by done.
    simpl. rewrite Hfl. simpl. rewrite EV, Hd. simpl. intros [= <-]. simpl.
    rewrite list_lookup_total_insert_eq
      by (by rewrite (wf_pages_len _ Hwf)).
    simpl. rewrite Hid. split; [|apply lookup_insert_eq].
    rewrite lookup_insert_ne by (intros Hn; congruence).
    apply lookup_delete_eq. }
  simpl. split; [done|]. split; [done|]. intros g Hg.
  rewrite (Fetch_miss_loads_store new.2 p g Hinv1 Hp1 Hg). by rewrite Hst.
Qed.

Lemma pool_over_new n id buf :
  new_BufferPoolManagerInstance_single n (mkDisk {[id := buf]} []) =
    Some (pool_over n id buf).
Proof. reflexivity. Qed.

(** The disk holds bytes of ones for page 0.  Page 0 is created (its buffer
    is zeroed), made dirty and evicted: the bytes on the disk before the
    eviction differ from the buffer, and the page that is fetched again
    has the buffer. *)
Lemma evicted_dirty_page_reloads_witness :
  let ones := replicate PAGE_SIZE x01 in
  let s := run (pool_over 2 0 ones)
               [OpNewPage; OpNewPage; OpUnpinPage 0 true;
                OpUnpinPage 1 false] in
  store (disk_manager_ s) !! 0 = Some ones ∧
  data_ (pages_ s !!! 1%nat) = zeroed ∧
  ones ≠ zeroed ∧
  (λ new, (FetchPgImp new.2 0).1) <$> NewPgImp s 7 = Some (Some 0%nat) ∧
  ∃ new, NewPgImp s 7 = Some new ∧
    let s1 := new.2 in
    page_table_ s1 !! 0 = None ∧
    store (disk_manager_ s1) !! 0 = Some (data_ (pages_ s !!! 1%nat)) ∧
    ∀ g, (FetchPgImp s1 0).1 = Some g →
         data_ (pages_ (FetchPgImp s1 0).2 !!! g) =
           data_ (pages_ s !!! 1%nat).
Proof.
  split; [vm_compute; reflexivity|].
  split; [vm_compute; reflexivity|].
  split; [vm_compute; discriminate|].
  split; [vm_compute; reflexivity|].
  apply (evicted_dirty_page_reloads
           (run (pool_over 2 0 (replicate PAGE_SIZE x01))
                [OpNewPage; OpNewPage; OpUnpinPage 0 true;
                 OpUnpinPage 1 false]) 0 1 7).
  - apply reachable_no_clash_run.
    + eapply reachable_no_clash_new.
      apply (pool_over_new 2 0 (replicate PAGE_SIZE x01)).
    + vm_compute. repeat split; discriminate.
  - vm_compute. reflexivity.
  - vm_compute. discriminate.
  - vm_compute. reflexivity.
  - vm_compute. reflexivity.
  - vm_compute. reflexivity.
  - vm_compute. reflexivity.
  - vm_compute. reflexivity.
Defined.

Lemma flush_calls_written s (ps : list Page) :
  (∀ pg, pg ∈ ps → ∃ f, (f < pool_size_ s)%nat ∧ pages_ s !!! f = pg) →
  Forall (written_from s) (flush_calls ps) ∧
  ∀ id, DiskRead id ∉ flush_calls ps.
Proof.
  induction ps as [|pg ps IH]; intros Hps; simpl.
  - split; [constructor|]. intros id. apply not_elem_of_nil.
  - destruct IH as [IH1 IH2].
    { intros pg' Hpg'. apply Hps. by right. }
    destruct (is_dirty_ pg) eqn:Ed; simpl; [|by split].
    split.
    + constructor; [|done]. destruct (Hps pg) as (f & Hf & Hpg);
        [by left|]. exists f. by rewrite Hpg.
    + intros id [?|?]%elem_of_cons; [done|]. by apply (IH2 id).
Qed.

(** X20.  What a call sends to the disk, in a reachable state.  The calls
    recorded so far stay, in order.  Every new [WritePage] carries the
    identifier and the buffer of a frame of the pool that was dirty before
    the call: a clean frame is never written.  A [ReadPage] is only issued
    by a [FetchPage] of a page that was not resident, for that page.
    [UnpinPage] and [DeletePage] never call the disk. *)
Theorem disk_calls_discipline (s : BPM) (o : bpm_op) :
  reachable s →
  ∃ l, calls (disk_manager_ (step s o)) = calls (disk_manager_ s) ++ l ∧
       Forall (written_from s) l ∧
       (∀ id, DiskRead id ∈ l →
              o = OpFetchPage id ∧ page_table_ s !! id = None) ∧
       match o with
       | OpUnpinPage _ _ | OpDeletePage _ => l = []
       | _ => True
       end.
Proof.
  intros Hs. pose proof (reachable_wf _ Hs) as Hwf.
  assert (∀ l0 : list disk_call, l0 = l0 ++ []) as Hnil
    by (intros; by rewrite app_nil_r).
  assert (∀ X, (∀ id, DiskRead id ∈ @nil disk_call → X id)) as Hno
    by (intros X id ?%elem_of_nil; done).
  assert (∀ f, (f < pool_size_ s)%nat →
            is_dirty_ (pages_ s !!! f) = true →
            Forall (written_from s)
              [DiskWrite (page_id_ (pages_ s !!! f))
                         (data_ (pages_ s !!! f))]) as Hw.
  { intros f Hf Hd. constructor; [|constructor]. by exists f. }
  destruct o as [|p|p d|p|p|].
  - rewrite step_New. unfold NewPgImp. case_decide as Hne.
    { exists []. simpl. split; [apply Hnil|]. split; [constructor|].
      split; [apply Hno|done]. }
    destruct (AllocatePage s) as [[id s1]|] eqn:EA.
    2: { exists []. simpl. split; [apply Hnil|]. split; [constructor|].
         split; [apply Hno|done]. }
    apply AllocatePage_Some in EA as (-> & _ & ->).
    simpl. destruct (last (free_list_ s)) as [f|] eqn:El; simpl.
    { exists []. split; [apply Hnil|]. split; [constructor|].
      split; [apply Hno|done]. }
    destruct (Victim (replacer_ s)) as [[f|] r] eqn:EV.
    2: { exists []. simpl. split; [apply Hnil|]. split; [constructor|].
         split; [apply Hno|done]. }
    destruct (wf_Victim_Some _ _ _ (wf_lru _ Hwf) EV) as (_ & Hin & _).
    destruct (is_dirty_ (pages_ s !!! f)) eqn:Ed; simpl.
    + eexists. split; [done|]. split; [by apply Hw; [apply wf_lru_lt|]|].
      split; [|done].
      intros id [?|?%elem_of_nil]%elem_of_cons; done.
    + exists []. split; [apply Hnil|]. split; [constructor|].
      split; [apply Hno|done].
  - rewrite step_Fetch. unfold FetchPgImp.
    destruct (page_table_ s !! p) as [f|] eqn:E; simpl.
    { exists []. split; [apply Hnil|]. split; [constructor|].
      split; [apply Hno|done]. }
    assert (∀ f, (f < pool_size_ s)%nat →
      ∃ l, calls (ReadPage
                    (if is_dirty_ (pages_ s !!! f)
                     then WritePage (disk_manager_ s)
                            (page_id_ (pages_ s !!! f))
                            (data_ (pages_ s !!! f))
                     else disk_manager_ s) p).2 =
             calls (disk_manager_ s) ++ l ∧
           Forall (written_from s) l ∧
           (∀ id, DiskRead id ∈ l →
                  OpFetchPage p = OpFetchPage id ∧
                  page_table_ s !! id = None) ∧ True) as Hmiss.
    { intros f Hf. destruct (is_dirty_ (pages_ s !!! f)) eqn:Ed; simpl.
      - exists [DiskWrite (page_id_ (pages_ s !!! f))
                          (data_ (pages_ s !!! f)); DiskRead p].
        split; [by rewrite <- app_assoc|]. split.
        + constructor; [by exists f|]. constructor; [done|constructor].
        + split; [|done]. intros id [?|Hid]%elem_of_cons; [done|].
          apply list_elem_of_singleton in Hid. by injection Hid as ->.
      - exists [DiskRead p]. split; [done|]. split.
        + constructor; [done|constructor].
        + split; [|done]. intros id Hid.
          apply list_elem_of_singleton in Hid. by injection Hid as ->. }
    destruct (last (free_list_ s)) as [f|] eqn:El; simpl.
    { apply Hmiss, wf_free_lt; [done|]. by apply last_Some_elem_of. }
    destruct (Victim (replacer_ s)) as [[f|] r] eqn:EV; simpl.
    + destruct (wf_Victim_Some _ _ _ (wf_lru _ Hwf) EV) as (_ & Hin & _).
      by apply Hmiss, wf_lru_lt.
    + exists []. split; [apply Hnil|]. split; [constructor|].
      split; [apply Hno|done].
  - rewrite step_Unpin. unfold UnpinPgImp.
    destruct (page_table_ s !! p) as [f|]; [case_decide|]; simpl;
      (exists []; split; [apply Hnil|]; split; [constructor|];
       split; [apply Hno|done]).
  - rewrite step_Flush. unfold FlushPgImp.
    destruct (page_table_ s !! p) as [f|] eqn:E; simpl.
    2: { exists []. split; [apply Hnil|]. split; [constructor|].
         split; [apply Hno|done]. }
    case_decide.
    { exists []. split; [apply Hnil|]. split; [constructor|].
      split; [apply Hno|done]. }
    destruct (wf_table _ Hwf _ _ E) as [Hf Hid].
    destruct (is_dirty_ (pages_ s !!! f)) eqn:Ed; simpl.
    + eexists. split; [done|]. split.
      * rewrite <- Hid. by apply Hw.
      * split; [|done]. intros id [?|?%elem_of_nil]%elem_of_cons; done.
    + exists []. split; [apply Hnil|]. split; [constructor|].
      split; [apply Hno|done].
  - rewrite step_Delete. unfold DeletePgImp, DeallocatePage.
    destruct (page_table_ s !! p) as [f|]; [case_decide|]; simpl;
      (exists []; split; [apply Hnil|]; split; [constructor|];
       split; [apply Hno|done]).
  - unfold step, exec. simpl.
    destruct (FlushAll_prefix s (pool_size_ s)) as (_ & Hc & _).
    { by rewrite (wf_pages_len _ Hwf). }
    fold (FlushAllPgsImp s) in Hc.
    rewrite <- (wf_pages_len _ Hwf), firstn_all in Hc.
    destruct (flush_calls_written s (pages_ s)) as [HF Hnr].
    { intros pg [f Hpg]%list_elem_of_lookup. exists f.
      split; [rewrite <- (wf_pages_len _ Hwf); by eapply lookup_lt_Some|].
      by apply list_lookup_total_correct. }
    exists (flush_calls (pages_ s)). split; [done|]. split; [done|].
    split; [|done]. intros id Hid. by destruct (Hnr id).
Qed.

Lemma disk_calls_discipline_witness :
  let s := run (fresh_pool 1) [OpNewPage; OpUnpinPage 0 true] in
  ∃ l, calls (disk_manager_ (step s (OpFetchPage 5))) =
         calls (disk_manager_ s) ++ l ∧
       Forall (written_from s) l ∧
       (∀ id, DiskRead id ∈ l →
              OpFetchPage 5 = OpFetchPage id ∧
              page_table_ s !! id = None) ∧
       True.
Proof.
  apply (disk_calls_discipline
           (run (fresh_pool 1) [OpNewPage; OpUnpinPage 0 true])
           (OpFetchPage 5)).
  apply reachable_fresh.
Defined.

(** X21.  No eviction while a frame is free.  In a reachable state whose
    free list is not empty, a resident page other than the sentinel stays
    resident in its frame across any call, except a [DeletePage] of that
    page and a [NewPage] that hands out its identifier. *)
Theorem resident_stays_while_free
    (s : BPM) (o : bpm_op) (q : Z) (g : nat) :
  reachable s →
  free_list_ s ≠ [] →
  page_table_ s !! q = Some g →
  q ≠ INVALID_PAGE_ID →
  o ≠ OpDeletePage q →
  (o = OpNewPage → q ≠ next_page_id_ s) →
  page_table_ (step s o) !! q = Some g.
Proof.
  intros Hs Hfl Hq Hqi Hod Hon. pose proof (reachable_wf _ Hs) as Hwf.
  destruct (last (free_list_ s)) as [f|] eqn:El.
  2: { by apply last_None in El. }
  destruct o as [|p|p d|p|p|].
  - rewrite step_New. unfold NewPgImp.
    rewrite decide_False by (by intros [? _]).
    destruct (AllocatePage s) as [[id s1]|] eqn:EA; [|done].
    apply AllocatePage_Some in EA as (-> & _ & ->).
    simpl. rewrite El. simpl.
    rewrite lookup_insert_ne; [done|]. intros Hn. by apply Hon.
  - rewrite step_Fetch. unfold FetchPgImp.
    destruct (page_table_ s !! p) as [f'|] eqn:E; simpl; [done|].
    rewrite El. simpl.
    apply last_Some_elem_of in El.
    destruct (wf_free_clean _ Hwf _ El) as [-> _].
    rewrite lookup_insert_ne by (intros ->; congruence).
    by rewrite lookup_delete_ne.
  - rewrite step_Unpin. unfold UnpinPgImp.
    destruct (page_table_ s !! p) as [f'|]; [case_decide|]; done.
  - rewrite step_Flush. unfold FlushPgImp.
    destruct (page_table_ s !! p) as [f'|];
      [case_decide; [|destruct (is_dirty_ _)]|]; done.
  - rewrite step_Delete. unfold DeletePgImp, DeallocatePage.
    destruct (page_table_ s !! p) as [f'|]; [case_decide|]; simpl;
      try done.
    rewrite lookup_delete_ne; [done|]. intros ->. by apply Hod.
  - unfold step, exec. simpl.
    destruct (FlushAll_fold_frame (seq 0 (pool_size_ s)) s)
      as (_ & _ & Hpt & _).
    unfold FlushAllPgsImp. by rewrite Hpt.
Qed.

Lemma resident_stays_while_free_witness :
  let s := run (fresh_pool 3) [OpNewPage; OpUnpinPage 0 true] in
  page_table_ (step s (OpFetchPage 9)) !! 0 = Some 2%nat.
Proof.
  apply (resident_stays_while_free
           (run (fresh_pool 3) [OpNewPage; OpUnpinPage 0 true])
           (OpFetchPage 9) 0 2).
  - apply reachable_fresh.
  - vm_compute. discriminate.
  - vm_compute. reflexivity.
  - vm_compute. discriminate.
  - discriminate.
  - discriminate.
Defined.

Lemma FetchPgImp_miss_spec_witness :
  let s := run (fresh_pool 1) [OpNewPage; OpUnpinPage 0 true] in
  let s' := (FetchPgImp s 5).2 in
  (∃ buf, pages_ s' !!! 0%nat = mkPage buf 5 1 false ∧
          buf = default zeroed (store (disk_manager_ s') !! 5)) ∧
  last (calls (disk_manager_ s')) = Some (DiskRead 5) ∧
  page_table_ s' !! 5 = Some 0%nat ∧
  (∀ g, g ≠ 0%nat → pages_ s' !!! g = pages_ s !!! g) ∧
  (free_list_ s ≠ [] → replacer_ s' = replacer_ s) ∧
  (free_list_ s = [] → replacer_ s' = (Victim (replacer_ s)).2 ∧
                       0%nat ∉ pin_lists_ (replacer_ s')).
Proof.
  apply (FetchPgImp_miss_spec
           (run (fresh_pool 1) [OpNewPage; OpUnpinPage 0 true]) 5 0).
  - apply reachable_fresh.
  - vm_compute. reflexivity.
  - vm_compute. reflexivity.
Defined.

Lemma Counted_Victim_lru_order_witness :
  let r := Counted.Unpin (Counted.Unpin (Counted.Unpin
             (Counted.new_LRUReplacer 3) 5%nat) 1%nat) 2%nat in
  ∃ r1 r2 r3,
    Counted.Victim r = (Some 5%nat, r1) ∧
    Counted.Victim r1 = (Some 1%nat, r2) ∧
    Counted.Victim r2 = (Some 2%nat, r3) ∧
    Counted.Victim r3 = (None, r3).
Proof.
  apply (Counted_Victim_lru_order 3 5 1 2); lia.
Defined.
